(** * A shallow embedding of [morse.py]

    The brute-force Morse decoder with unknown spacing: the Morse table and its
    trie, the language scoring functions, the generational beam search with its
    memo table, the polarity wrapper and the de-duplication done in [main].

    Conventions of the embedding.
    - A Python [str] is a [string], its characters taken from the 8-bit
      range; one character of it (what [bits[i]] or [for s in code] yields)
      is an [ascii].
    - The trie is the nested [dict] the source builds, sentinel key ["$"]
      included, so it is a value of the small object type [pyobj]; membership
      ([in]) and subscription ([node[k]]) have their Python meaning on both a
      [dict] and a [str], and subscription can raise.
    - A computation that can raise returns an [outcome]; the [while] loop takes
      fuel, and [NoFuel] is the outcome of a run that was cut short.
    - Scores are Python floats.  Every definition is written over an interface
      [Arith] of the float operations the source uses; [binary64] instantiates
      it with IEEE-754 double precision numbers, which is what CPython computes
      with and what the properties are about.  [exact] is the same program over
      the rationals, an idealisation that rounds nowhere and that can rank
      results in another order than the program does.
    - The module constants [BEAM_WIDTH], [MAX_WORD_LEN] and [MAX_RESULTS] are
      the fields of a [config]; [source_config] holds the values of the file. *)

From Stdlib Require Import Ascii String QArith Floats Uint63 Lia Bool.
From stdpp Require Import gmap strings list sorting.

#[local] Set Warnings "-register-all,-inexact-float,-abstract-large-number".
#[local] Open Scope string_scope.
#[local] Open Scope nat_scope.
#[local] Open Scope list_scope.

(** ** The fragment of the Python runtime the program uses *)

Inductive exn : Type := TypeError | KeyError | AttributeError.

Inductive outcome (A : Type) : Type :=
| Ok (a : A)
| Raise (e : exn)
| NoFuel.

Arguments Ok {A} a.
Arguments Raise {A} e.
Arguments NoFuel {A}.

#[global] Instance outcome_ret : MRet outcome := fun _ a => Ok a.

#[global] Instance outcome_bind : MBind outcome := fun _ _ f m =>
  match m with
  | Ok a => f a
  | Raise e => Raise e
  | NoFuel => NoFuel
  end.

(** [for x in l: acc = body(x, acc)], stopping at the first exception. *)
Fixpoint for_each {X S : Type} (body : X -> S -> outcome S) (l : list X) (acc : S)
  : outcome S :=
  match l with
  | [] => Ok acc
  | x :: l' => acc' ← body x acc; for_each body l' acc'
  end.

(** Objects: a [dict] keyed by one-character strings, in insertion order, or a
    [str]. *)
Inductive pyobj : Type :=
| PyDict (items : list (ascii * pyobj))
| PyStr (s : string).

Fixpoint assoc {V : Type} (k : ascii) (items : list (ascii * V)) : option V :=
  match items with
  | [] => None
  | (k', v) :: rest => if Ascii.eqb k' k then Some v else assoc k rest
  end.

(** [d[k] = v] on the items of a dict: an existing key keeps its place, a new
    key goes last. *)
Fixpoint assoc_set {V : Type} (k : ascii) (v : V) (items : list (ascii * V))
  : list (ascii * V) :=
  match items with
  | [] => [(k, v)]
  | (k', v') :: rest =>
      if Ascii.eqb k' k then (k, v) :: rest else (k', v') :: assoc_set k v rest
  end.

(** [k in o]: key membership on a dict, substring test on a str (here for a
    one-character [k]). *)
Definition py_contains (k : ascii) (o : pyobj) : bool :=
  match o with
  | PyDict items => bool_decide (is_Some (assoc k items))
  | PyStr s => existsb (Ascii.eqb k) (list_ascii_of_string s)
  end.

(** [o[k]] for a one-character string [k]. *)
Definition py_getitem (o : pyobj) (k : ascii) : outcome pyobj :=
  match o with
  | PyDict items =>
      match assoc k items with
      | Some v => Ok v
      | None => Raise KeyError
      end
  | PyStr _ => Raise TypeError
  end.

(** [o[k] = v]. *)
Definition py_setitem (o : pyobj) (k : ascii) (v : pyobj) : outcome pyobj :=
  match o with
  | PyDict items => Ok (PyDict (assoc_set k v items))
  | PyStr _ => Raise TypeError
  end.

(** The str an object has to be where the program concatenates it to a str
    ([cur_word + letter]). *)
Definition py_str (o : pyobj) : outcome string :=
  match o with
  | PyStr s => Ok s
  | PyDict _ => Raise TypeError
  end.

(** ** Float arithmetic *)

Class Arith : Type := {
  num : Type;
  flit : Q -> num;            (* a decimal literal of the source *)
  fadd : num -> num -> num;   (* a + b *)
  fsub : num -> num -> num;   (* a - b *)
  fneg : num -> num;          (* -a *)
  flt : num -> num -> bool;   (* a < b *)
  fge : num -> num -> bool;   (* a >= b *)
}.

Declare Scope score_scope.
Delimit Scope score_scope with score.
Infix "+" := fadd : score_scope.
Infix "-" := fsub : score_scope.
Notation "- a" := (fneg a) : score_scope.
Infix "<?" := flt : score_scope.
Infix ">=?" := fge (at level 70) : score_scope.

(** IEEE-754 binary64: a decimal literal denotes the double nearest to it, which
    is the correctly rounded quotient of its numerator and denominator. *)
Definition binary64 : Arith := {|
  num := float;
  flit q := PrimFloat.div (PrimFloat.of_uint63 (Uint63.of_Z (Qnum q)))
                          (PrimFloat.of_uint63 (Uint63.of_Z (Zpos (Qden q))));
  fadd := PrimFloat.add;
  fsub := PrimFloat.sub;
  fneg := PrimFloat.opp;
  flt := PrimFloat.ltb;
  fge a b := PrimFloat.leb b a;
|}.

(** Exact rational arithmetic: the scores the program would compute if no
    operation rounded.  It is not the arithmetic of the program. *)
Definition exact : Arith := {|
  num := Q;
  flit q := q;
  fadd := Qplus;
  fsub := Qminus;
  fneg := Qopp;
  flt a b := negb (Qle_bool b a);
  fge a b := Qle_bool b a;
|}.

(** The decimal literals of the source. *)
Definition literals : list Q :=
  [0.0; 0.2; 0.25; 0.65; 0.7; 0.75; 0.8; 0.85; 0.9; 1.0; 2.0; 5.0]%Q.

(** What the ordering arguments need of the arithmetic, on the values the
    program computes with.  A float can be a NaN, which compares like nothing,
    so the laws of the comparisons are those of the [number]s: [<] is a strict
    weak order on them, [>=] its complement, and negation reverses it.  The
    values of the program stay in three ranges: [is_weight] holds of the
    literals, [is_term] of what adding and subtracting weights from a weight
    gives (the score of a word), and [is_score] of what adding and subtracting
    terms from a term gives (the score of a state or of a result); on scores,
    adding or subtracting a term is monotone.  [binary64_order] and
    [exact_order] below are the instances for the two arithmetics. *)
Class ArithOrder (A : Arith) : Type := {
  number : num -> Prop;
  is_weight : num -> Prop;
  is_term : num -> Prop;
  is_score : num -> Prop;
  flt_irrefl : forall a : num, number a -> flt a a = false;
  flt_trans : forall a b c : num, number a -> number b -> number c ->
    flt a b = true -> flt b c = true -> flt a c = true;
  flt_incomparable : forall a b c : num, number a -> number b -> number c ->
    flt a b = false -> flt b c = false -> flt a c = false;
  fge_flt : forall a b : num, number a -> number b -> fge a b = negb (flt a b);
  flt_fneg : forall a b : num, number a -> number b ->
    flt (fneg a) (fneg b) = flt b a;
  number_fneg : forall a : num, number a -> number (fneg a);
  score_number : forall a : num, is_score a -> number a;
  weight_literal : forall q : Q, In q literals -> is_weight (flit q);
  weight_term : forall a : num, is_weight a -> is_term a;
  term_score : forall a : num, is_term a -> is_score a;
  term_fadd : forall a c : num, is_term a -> is_weight c -> is_term (fadd a c);
  term_fsub : forall a c : num, is_term a -> is_weight c -> is_term (fsub a c);
  score_fadd : forall a c : num, is_score a -> is_term c -> is_score (fadd a c);
  score_fsub : forall a c : num, is_score a -> is_term c -> is_score (fsub a c);
  fadd_mono : forall a b c : num, is_score a -> is_score b -> is_term c ->
    fge a b = true -> fge (fadd a c) (fadd b c) = true;
  fsub_mono : forall a b c : num, is_score a -> is_score b -> is_term c ->
    fge a b = true -> fge (fsub a c) (fsub b c) = true;
}.

(** ** Configuration *)

Record config : Type := {
  BEAM_WIDTH : nat;
  MAX_WORD_LEN : nat;
  MAX_RESULTS : nat;
}.

Definition source_config : config :=
  {| BEAM_WIDTH := 12000; MAX_WORD_LEN := 15; MAX_RESULTS := 20 |}.

(** ** Morse alphabet *)

Definition MORSE : list (string * string) :=
  [ (".-", "A"); ("-...", "B"); ("-.-.", "C"); ("-..", "D"); (".", "E");
    ("..-.", "F"); ("--.", "G"); ("....", "H"); ("..", "I"); (".---", "J");
    ("-.-", "K"); (".-..", "L"); ("--", "M"); ("-.", "N"); ("---", "O");
    (".--.", "P"); ("--.-", "Q"); (".-.", "R"); ("...", "S"); ("-", "T");
    ("..-", "U"); ("...-", "V"); (".--", "W"); ("-..-", "X");
    ("-.--", "Y"); ("--..", "Z") ].

(** ** The Morse trie *)

(** The body of the outer loop of [build_morse_trie] for one [(code, letter)],
    as a function on the node the walk stands on: [setdefault] returns the child
    that is there or a fresh [{}]; the child is then updated in place, which the
    parent sees. *)
Fixpoint insert_code (code : list ascii) (letter : string) (node : pyobj)
  : outcome pyobj :=
  match code with
  | [] => py_setitem node "$" (PyStr letter)
  | s :: code' =>
      match node with
      | PyDict items =>
          let child := default (PyDict []) (assoc s items) in
          child' ← insert_code code' letter child;
          Ok (PyDict (assoc_set s child' items))
      | PyStr _ => Raise AttributeError
      end
  end.

Definition build_morse_trie (morse_map : list (string * string)) : outcome pyobj :=
  for_each (fun '(code, letter) trie =>
              insert_code (list_ascii_of_string code) letter trie)
           morse_map (PyDict []).

Definition MORSE_TRIE : pyobj :=
  Eval vm_compute in
    match build_morse_trie MORSE with
    | Ok trie => trie
    | _ => PyDict []
    end.

(** Following a path of keys from a node. *)
Fixpoint follow (path : list ascii) (node : pyobj) : option pyobj :=
  match path with
  | [] => Some node
  | k :: path' =>
      match node with
      | PyDict items => child ← assoc k items; follow path' child
      | PyStr _ => None
      end
  end.

(** The letter a node carries, when it is terminal. *)
Definition terminal_letter (node : pyobj) : option string :=
  match node with
  | PyDict items =>
      match assoc "$"%char items with
      | Some (PyStr l) => Some l
      | _ => None
      end
  | PyStr _ => None
  end.

Definition is_terminal (node : pyobj) : bool := py_contains "$" node.

Definition is_edge (k : ascii) : bool := negb (Ascii.eqb k "$").

(** Every terminal node below [node], with the path of edges that leads to it
    and its letter. *)
Fixpoint terminals (node : pyobj) : list (list ascii * pyobj) :=
  match node with
  | PyStr _ => []
  | PyDict items =>
      match assoc "$"%char items with
      | Some l => [([], l)]
      | None => []
      end
      ++ flat_map (fun kv =>
                     if is_edge (fst kv)
                     then map (fun pl => (fst kv :: fst pl, snd pl)) (terminals (snd kv))
                     else [])
                  items
  end.

(** ** Generic definitions over a float arithmetic *)

Section Decoder.

Context {A : Arith}.

#[local] Open Scope score_scope.

(** *** Language scoring *)

Definition LETTER_FREQ : list (string * num) :=
  [ ("E", flit 1.0); ("T", flit 0.9); ("A", flit 0.85); ("O", flit 0.85);
    ("N", flit 0.8); ("R", flit 0.8); ("I", flit 0.75); ("S", flit 0.75);
    ("H", flit 0.7); ("L", flit 0.7); ("D", flit 0.65) ].

(** [d.get(k, dflt)] on a dict keyed by strings. *)
Fixpoint dict_get {V : Type} (d : list (string * V)) (k : string) (dflt : V) : V :=
  match d with
  | [] => dflt
  | (k', v) :: rest => if String.eqb k' k then v else dict_get rest k dflt
  end.

Definition score_letter (c : string) : num :=
  dict_get LETTER_FREQ c (flit 0.25).

(** The characters of a str, each a str of length one ([for c in word]). *)
Definition chars (word : string) : list string :=
  map (fun a => String a EmptyString) (list_ascii_of_string word).

Definition score_word (word : string) (dictionary : gset string) : num :=
  let score := flit 0.0 in
  let score := fold_left (fun score c => score + score_letter c) (chars word) score in
  let score := if bool_decide (word ∈ dictionary) then score + flit 5.0 else score in
  let score := if (12 <? String.length word)%nat then score - flit 2.0 else score in
  score.

(** *** Sorting *)

(** [sorted(l, key=key)]: a stable sort that compares keys with [<].  An
    element goes in front of the first one of the sorted rest whose key is not
    smaller than its own, so equal keys keep the order of the input. *)
Fixpoint insert_by {X : Type} (key : X -> num) (x : X) (l : list X) : list X :=
  match l with
  | [] => [x]
  | y :: l' => if key y <? key x then y :: insert_by key x l' else x :: y :: l'
  end.

Fixpoint sorted {X : Type} (key : X -> num) (l : list X) : list X :=
  match l with
  | [] => []
  | x :: l' => insert_by key x (sorted key l')
  end.

(** *** Brute-force decoder *)

(** A search state [(bit_pos, current_word, sentence_tuple, score)]. *)
Definition state : Type := nat * string * list string * num.

(** A result [(text, score)]. *)
Definition result : Type := string * num.

(** The variables of the [while] body that outlive one state:
    [(visited, results, next_states)]. *)
Definition frame : Type := gmap (nat * string) num * list result * list state.

Definition state_score (s : state) : num := snd s.

Definition result_score (r : result) : num := snd r.

(** [" ".join(words)]. *)
Definition join (words : list string) : string := String.concat " " words.

(** Truthiness of a str. *)
Definition nonempty (w : string) : bool := negb (String.eqb w "").

Section Run.

Variable cfg : config.
Variable dictionary : gset string.
Variable bits : list ascii.

Let n : nat := length bits.

(** [key in visited and visited[key] >= score]. *)
Definition dominated (visited : gmap (nat * string) num) (key : nat * string)
    (score : num) : bool :=
  match visited !! key with
  | Some best => best >=? score
  | None => false
  end.

(** The inner [while i < n and bits[i] in node] loop: [rest] is [bits[i:]]. *)
Fixpoint trie_walk (cur_word : string) (sentence : list string) (score : num)
    (node : pyobj) (i : nat) (rest : list ascii) (next_states : list state)
  : outcome (list state) :=
  match rest with
  | [] => Ok next_states
  | b :: rest' =>
      if py_contains b node then
        node ← py_getitem node b;
        let i := S i in
        if py_contains "$" node && (String.length cur_word <? MAX_WORD_LEN cfg)%nat then
          letter ← py_getitem node "$";
          letter ← py_str letter;
          trie_walk cur_word sentence score node i rest'
            (next_states ++ [(i, cur_word +:+ letter, sentence,
                              score + score_letter letter)])
        else trie_walk cur_word sentence score node i rest' next_states
      else Ok next_states
  end.

(** The body of [for pos, cur_word, sentence, score in states]. *)
Definition process_state (s : state) (fr : frame) : outcome frame :=
  let '(pos, cur_word, sentence, score) := s in
  let '(visited, results, next_states) := fr in
  let key := (pos, cur_word) in
  if dominated visited key score then Ok fr
  else
    let visited := <[key := score]> visited in
    if (pos =? n)%nat then
      if nonempty cur_word && bool_decide (cur_word ∈ dictionary) then
        let final_sentence := sentence ++ [cur_word] in
        let final_score := score + score_word cur_word dictionary in
        Ok (visited, results ++ [(join final_sentence, final_score)], next_states)
      else Ok (visited, results, next_states)
    else
      next_states ← trie_walk cur_word sentence score MORSE_TRIE pos
                              (drop pos bits) next_states;
      if nonempty cur_word && bool_decide (cur_word ∈ dictionary) then
        Ok (visited, results,
            next_states ++ [(pos, "", sentence ++ [cur_word],
                             score + score_word cur_word dictionary - flit 0.2)])
      else Ok (visited, results, next_states).

(** Beam pruning. *)
Definition prune (next_states : list state) : list state :=
  take (BEAM_WIDTH cfg) (sorted (fun x => - state_score x) next_states).

(** The outer [while states] loop.  Besides [results] it returns the largest
    length [next_states] had before pruning, which the program does not
    compute: it tells whether pruning ever dropped a state. *)
Fixpoint while_states (fuel : nat) (states : list state)
    (visited : gmap (nat * string) num) (results : list result) (peak : nat)
  : outcome (list result * nat) :=
  match states with
  | [] => Ok (results, peak)
  | _ :: _ =>
      match fuel with
      | O => NoFuel
      | S fuel' =>
          '(visited, results, next_states) ←
             for_each process_state states (visited, results, []);
          while_states fuel' (prune next_states) visited results
                       (Nat.max peak (length next_states))
      end
  end.

Definition search (fuel : nat) : outcome (list result * nat) :=
  while_states fuel [(0, "", [], flit 0.0)] ∅ [] 0.

Definition brute_force_decode_fuel (fuel : nat) : outcome (list result) :=
  '(results, _) ← search fuel;
  Ok (take (MAX_RESULTS cfg) (sorted (fun x => - result_score x) results)).

(** Generations that are enough for a stream of [n] symbols. *)
Definition generations : nat := 2 * n + 1.

End Run.

Definition brute_force_decode (cfg : config) (bits : string)
    (dictionary : gset string) : outcome (list result) :=
  let bits := list_ascii_of_string bits in
  brute_force_decode_fuel cfg dictionary bits (generations bits).

(** The largest frontier of a run, before pruning. *)
Definition peak_frontier (cfg : config) (bits : string)
    (dictionary : gset string) : outcome nat :=
  let bits := list_ascii_of_string bits in
  '(_, peak) ← search cfg dictionary bits (generations bits);
  Ok peak.

(** *** Polarity handling *)

(** [s.translate(str.maketrans("10", "01"))]. *)
Definition swap_bits (s : string) : string :=
  string_of_list_ascii
    (map (fun c => if Ascii.eqb c "1" then "0"%char
                   else if Ascii.eqb c "0" then "1"%char else c)
         (list_ascii_of_string s)).

(** [s.replace(old, new)] for one-character [old] and [new]. *)
Definition replace (old new : ascii) (s : string) : string :=
  string_of_list_ascii
    (map (fun c => if Ascii.eqb c old then new else c) (list_ascii_of_string s)).

Definition decode_with_polarity (cfg : config) (bitstream : string)
    (dictionary : gset string) (invert : bool) : outcome (list result) :=
  let bits := if invert then swap_bits bitstream else bitstream in
  let bits := replace "0" "-" (replace "1" "." bits) in
  brute_force_decode cfg bits dictionary.

(** *** The de-duplication of [main] *)

(** [if text not in best or best[text] < score: best[text] = score], on the
    items of [best] in insertion order. *)
Fixpoint keep_best (text : string) (score : num) (best : list result) : list result :=
  match best with
  | [] => [(text, score)]
  | (t, s) :: rest =>
      if String.eqb t text
      then (if s <? score then (t, score) :: rest else (t, s) :: rest)
      else (t, s) :: keep_best text score rest
  end.

Definition best_of (all_results : list result) : list result :=
  fold_left (fun best '(text, score) => keep_best text score best) all_results [].

(** From [all_results] to [ranked]. *)
Definition rank (cfg : config) (all_results : list result) : list result :=
  take (MAX_RESULTS cfg) (sorted (fun x => - result_score x) (best_of all_results)).

(** The lists of the two polarity runs, in the order [main] extends
    [all_results] with them, then [rank]. *)
Definition aggregate (cfg : config) (normal inverted : list result) : list result :=
  rank cfg (normal ++ inverted).

End Decoder.

(** ** Vocabulary of the properties *)

(** A str without the sentinel character of the trie.  Every symbol sequence
    (dots and dashes only) is one. *)
Definition sentinel_free (bits : string) : Prop :=
  forallb is_edge (list_ascii_of_string bits) = true.

(** A symbol sequence: dots and dashes only. *)
Definition only_symbols (bits : string) : bool :=
  forallb (fun c => Ascii.eqb c "." || Ascii.eqb c "-") (list_ascii_of_string bits).

Definition symbol_sequence (bits : string) : Prop := only_symbols bits = true.

(** The shape of a trie the walk cannot fail on: a dict whose sentinel entry, if
    any, is a str and whose other entries are such tries. *)
Fixpoint wf_node (node : pyobj) : bool :=
  match node with
  | PyStr _ => false
  | PyDict items =>
      forallb (fun kv =>
                 if is_edge (fst kv) then wf_node (snd kv)
                 else match snd kv with PyStr _ => true | PyDict _ => false end)
              items
  end.

(** The configuration [cfg] with another beam width. *)
Definition with_beam (b : nat) (cfg : config) : config :=
  {| BEAM_WIDTH := b; MAX_WORD_LEN := MAX_WORD_LEN cfg; MAX_RESULTS := MAX_RESULTS cfg |}.

(** An entry of [terminals] that is an entry of [MORSE]. *)
Definition is_morse_code (pl : list ascii * pyobj) : bool :=
  match snd pl with
  | PyStr letter => bool_decide ((string_of_list_ascii (fst pl), letter) ∈ MORSE)
  | PyDict _ => false
  end.

(** Following the code of an entry of [MORSE] leads to its letter. *)
Definition reaches_letter (entry : string * string) : bool :=
  bool_decide
    ((follow (list_ascii_of_string (fst entry)) MORSE_TRIE ≫= terminal_letter)
     = Some (snd entry)).

Section Vocabulary.

Context {A : Arith}.

#[local] Open Scope score_scope.

(** Descending by score: no entry is followed, anywhere later, by one it is
    smaller than. *)
Definition descending (rs : list result) : Prop :=
  StronglySorted (fun a b => (result_score a >=? result_score b) = true) rs.

(** The top-1 score of a ranked list. *)
Definition top1 (rs : list result) : option num := result_score <$> head rs.

(** The sum of a list of floats, taken from the left as a loop does. *)
Definition fsum (l : list num) : num := fold_left fadd l (flit 0.0).

(** A word that can be committed, and the sentences made of such words. *)
Definition committable (dictionary : gset string) (w : string) : Prop :=
  w ≠ "" ∧ w ∈ dictionary.

Definition sentence_of (dictionary : gset string) (text : string) : Prop :=
  ∃ words : list string,
    words ≠ [] ∧ Forall (committable dictionary) words ∧ text = join words.

(** How far a state is from the end of the search: twice the symbols left,
    plus one while a word is in progress. *)
Definition state_rank (n : nat) (s : state) : nat :=
  let '(pos, cur_word, _, _) := s in
  2 * (n - pos) + (if nonempty cur_word then 1 else 0).

Definition state_sentence (s : state) : list string := snd (fst s).

(** The invariant of the active states of one generation. *)
Definition state_inv (dictionary : gset string) (n k : nat) (s : state) : Prop :=
  state_rank n s < k ∧ Forall (committable dictionary) (state_sentence s).

(** Finalisation as the specification words it: a state at the end of the
    sequence yields a result when its partial word is empty or in the
    dictionary. *)
Definition finalize_as_specified (dictionary : gset string) (s : state)
    (results : list result) : list result :=
  let '(_, partial_word, sentence, score) := s in
  if nonempty partial_word then
    if bool_decide (partial_word ∈ dictionary)
    then results ++ [(join (sentence ++ [partial_word]),
                      score + score_word partial_word dictionary)]
    else results
  else results ++ [(join sentence, score)].

(** [s] is the best score of [text] in [rs]: one of its scores, and none of
    them is larger. *)
Definition best_score (text : string) (s : num) (rs : list result) : Prop :=
  (text, s) ∈ rs ∧ ∀ s', (text, s') ∈ rs → (s >=? s') = true.

(** A state a walk from position [i] over [k] characters appends. *)
Definition walked (sentence : list string) (i k : nat) (s : state) : Prop :=
  i < fst (fst (fst s)) ≤ i + k ∧ state_sentence s = sentence.

(** A successor is nearer to the end and keeps the sentence committable. *)
Definition successor (dictionary : gset string) (n : nat) (s s' : state) : Prop :=
  state_rank n s' < state_rank n s ∧
  (Forall (committable dictionary) (state_sentence s) →
   Forall (committable dictionary) (state_sentence s')).

(** A result of a state with a committable sentence is a sentence. *)
Definition result_from (dictionary : gset string) (s : state) (r : result) : Prop :=
  Forall (committable dictionary) (state_sentence s) → sentence_of dictionary (fst r).

(** [best[text]], if [text in best]. *)
Fixpoint text_score (text : string) (best : list result) : option num :=
  match best with
  | [] => None
  | (t, s) :: rest => if String.eqb t text then Some s else text_score text rest
  end.

(** The invariant of the loop over [all_results]: [best] has one entry for
    each text seen, with the best score seen for it. *)
Definition best_inv (seen best : list result) : Prop :=
  NoDup (fst <$> best) ∧
  ∀ t, match text_score t best with
       | Some s => best_score t s seen
       | None => t ∉ fst <$> seen
       end.

End Vocabulary.

(** The weights of the eleven high-frequency letters. *)
Definition tabulated : list (string * Q) :=
  [ ("E", 1.0); ("T", 0.9); ("A", 0.85); ("O", 0.85); ("N", 0.8); ("R", 0.8);
    ("I", 0.75); ("S", 0.75); ("H", 0.7); ("L", 0.7); ("D", 0.65) ]%Q.

(** The score of a word as the specification words it. *)
Definition score_word_as_specified {A : Arith} (word : string)
    (dictionary : gset string) : num :=
  let letters := fsum (score_letter <$> chars word) in
  let bonus := if bool_decide (word ∈ dictionary)
               then fadd letters (flit 5.0) else letters in
  if bool_decide (12 < String.length word) then fsub bonus (flit 2.0) else bonus.

(** Beam-width monotonicity of the top-1 score at one input, as the claim
    states it: the wider beam's best score is not below the narrower one's. *)
Definition beam_monotone_at {A : Arith} (cfg : config) (bits : string)
    (dictionary : gset string) (b1 b2 : nat) : Prop :=
  ∀ ranked1 ranked2 s1,
    brute_force_decode (with_beam b1 cfg) bits dictionary = Ok ranked1 →
    brute_force_decode (with_beam b2 cfg) bits dictionary = Ok ranked2 →
    top1 ranked1 = Some s1 →
    ∃ s2, top1 ranked2 = Some s2 ∧ fge s2 s1 = true.


(** ** Main, up to the list it prints *)

Definition BITSTREAM : string :=
  "1111000101111011010001011101011011011110011111101000101111101101".

Definition ENABLE_REVERSE_POLARITY : bool := true.

(** [main] from [all_results = []] to [ranked], for a dictionary that has been
    loaded; the module constants [BITSTREAM] and [ENABLE_REVERSE_POLARITY] are
    arguments. *)
Definition main_ranked {A : Arith} (cfg : config) (enable_reverse : bool)
    (bitstream : string) (dictionary : gset string) : outcome (list result) :=
  let all_results : list result := [] in
  normal ← decode_with_polarity cfg bitstream dictionary false;
  let all_results := all_results ++ normal in
  all_results ←
    (if enable_reverse
     then inverted ← decode_with_polarity cfg bitstream dictionary true;
          Ok (all_results ++ inverted)
     else Ok all_results);
  Ok (rank cfg all_results).

(** ** Vocabulary of the further properties *)

(** What a code table binds a code to: the last entry for it, as the loop of
    [build_morse_trie] overwrites earlier ones. *)
Fixpoint last_binding (code : string) (morse_map : list (string * string))
  : option string :=
  match morse_map with
  | [] => None
  | (c, l) :: rest =>
      match last_binding code rest with
      | Some l' => Some l'
      | None => if String.eqb c code then Some l else None
      end
  end.

(** The letter a trie has for a code: the letter of the node the characters of
    the code lead to, if that node is terminal. *)
Definition lookup_code (trie : pyobj) (code : string) : option string :=
  follow (list_ascii_of_string code) trie ≫= terminal_letter.

(** The code of a letter in a table: the first entry with that letter. *)
Fixpoint letter_code_in (table : list (string * string)) (letter : string)
  : option string :=
  match table with
  | [] => None
  | (c, l) :: rest => if String.eqb l letter then Some c else letter_code_in rest letter
  end.

Definition letter_code : string → option string := letter_code_in MORSE.

(** The symbols that spell a sequence of letters, and a sequence of words. *)
Fixpoint spell_letters (letters : list string) : option (list ascii) :=
  match letters with
  | [] => Some []
  | l :: rest =>
      code ← letter_code l;
      symbols ← spell_letters rest;
      Some (list_ascii_of_string code ++ symbols)
  end.

Definition spell (words : list string) : option (list ascii) :=
  spell_letters (concat (chars <$> words)).

(** The symbols that spell a text: those of its letters, the spaces between
    its words left out. *)
Definition spell_text (text : string) : option (list ascii) :=
  spell_letters (filter (fun c => c ≠ " ") (chars text)).

(** The symbol sequence [decode_with_polarity] decodes. *)
Definition symbols_of (bitstream : string) (invert : bool) : string :=
  replace "0" "-" (replace "1" "." (if invert then swap_bits bitstream else bitstream)).

Section Scores.

Context {A : Arith}.

#[local] Open Scope score_scope.

(** The score after the letters of [word] have been read one by one. *)
Definition typed (score : num) (word : string) : num :=
  fold_left (fun score c => score + score_letter c) (chars word) score.

(** The score after [word] has been read and committed at a word boundary. *)
Definition committed (dictionary : gset string) (score : num) (word : string) : num :=
  typed score word + score_word word dictionary - flit 0.2.

(** The score of the state that has committed [sentence] and read
    [cur_word]. *)
Definition path_score (dictionary : gset string) (sentence : list string)
    (cur_word : string) : num :=
  typed (fold_left (committed dictionary) sentence (flit 0.0)) cur_word.

(** A state that has read a prefix of the stream. *)
Definition reads (cfg : config) (dictionary : gset string) (bits : list ascii)
    (s : state) : Prop :=
  let '(pos, cur_word, sentence, score) := s in
  spell (sentence ++ [cur_word]) = Some (take pos bits) ∧
  pos ≤ length bits ∧
  Forall (fun w => committable dictionary w ∧ String.length w ≤ MAX_WORD_LEN cfg)
         sentence ∧
  String.length cur_word ≤ MAX_WORD_LEN cfg ∧
  score = path_score dictionary sentence cur_word.

(** A result that is a decoding of the stream: its text joins dictionary words
    of at most [MAX_WORD_LEN] letters, the codes of its letters are the stream,
    and its score is the score of the path that read it plus the score of its
    last word. *)
Definition decodes (cfg : config) (dictionary : gset string) (bits : list ascii)
    (r : result) : Prop :=
  ∃ (sentence : list string) (word : string),
    fst r = join (sentence ++ [word]) ∧
    Forall (fun w => committable dictionary w ∧ String.length w ≤ MAX_WORD_LEN cfg)
           (sentence ++ [word]) ∧
    spell (sentence ++ [word]) = Some bits ∧
    snd r = path_score dictionary sentence word + score_word word dictionary.

(** A state the walk from [node] at position [i] emits after the characters
    [consumed] of [rest]. *)
Definition emitted (cfg : config) (cur_word : string) (sentence : list string)
    (score : num) (node : pyobj) (i : nat) (rest : list ascii) (s : state) : Prop :=
  ∃ (consumed : list ascii) (items : list (ascii * pyobj)) (letter : string),
    consumed ≠ [] ∧
    consumed `prefix_of` rest ∧
    follow consumed node = Some (PyDict items) ∧
    assoc "$"%char items = Some (PyStr letter) ∧
    String.length cur_word < MAX_WORD_LEN cfg ∧
    s = ((i + length consumed)%nat, cur_word +:+ letter, sentence,
         score + score_letter letter).

End Scores.


(** ** Vocabulary of the search for one word *)

Section OneWord.

Context {A : Arith}.

#[local] Open Scope score_scope.

(** The state that has read the first [k] letters of [word], as one word in
    progress. *)
Definition prefix_state (word : string) (k : nat) : state :=
  let letters := take k (chars word) in
  (length (default [] (spell_letters letters)), String.concat "" letters, [],
   fold_left (fun score c => score + score_letter c) letters (flit 0.0)).

(** The memo key of a state. *)
Definition state_key (s : state) : nat * string := (fst (fst (fst s)), snd (fst (fst s))).

(** The generation a state belongs to: one for each letter read and one for
    each word committed. *)
Definition state_age (s : state) : nat :=
  let '(_, cur_word, sentence, _) := s in
  (String.length cur_word
   + sum_list_with (fun w => S (String.length w)) sentence)%nat.

(** The active states of generation [k]. *)
Definition generation_inv (cfg : config) (dictionary : gset string)
    (bits : list ascii) (k : nat) (s : state) : Prop :=
  reads cfg dictionary bits s ∧ state_age s = k.

(** The memo table at generation [k]: its keys are those of states of earlier
    generations. *)
Definition memo_inv (cfg : config) (dictionary : gset string) (bits : list ascii)
    (k : nat) (visited : gmap (nat * string) num) : Prop :=
  ∀ pos cur_word best,
    visited !! (pos, cur_word) = Some best →
    ∃ sentence score,
      reads cfg dictionary bits (pos, cur_word, sentence, score) ∧
      (state_age (pos, cur_word, sentence, score) < k)%nat.

(** What processing the state of the first [k] letters of [word] leaves
    behind: the state of the first [k + 1] letters among the successors, or,
    at the last letter, the word among the results. *)
Definition word_progress (dictionary : gset string) (word : string) (k : nat)
    (results : list result) (next_states : list state) : Prop :=
  if (k <? String.length word)%nat
  then prefix_state word (S k) ∈ next_states
  else (word, path_score dictionary [] word + score_word word dictionary) ∈ results.

End OneWord.

(** ** binary64 numbers on the grid of their smallest spacing *)

(** The value of a binary64 number in units of [2^-1074], the spacing of the
    smallest numbers: every finite number is a whole number of them.  The
    infinities stand at [2^2098] units, the first power of two beyond the
    finite numbers. *)
Definition SFulps (f : spec_float) : Z :=
  match f with
  | S754_zero _ | S754_nan => 0
  | S754_infinity s => cond_Zopp s (2 ^ 2098)
  | S754_finite s m e => cond_Zopp s (Zpos m * 2 ^ (e + 1074))
  end%Z.

Definition ulps (x : float) : Z := SFulps (Prim2SF x).

(** Not a NaN. *)
Definition is_number (x : float) : bool :=
  match Prim2SF x with
  | S754_nan => false
  | _ => true
  end.

(** Rounding a non-negative number of units to the nearest binary64 number, ties
    to even: the [s] bits beyond the first 53 are dropped. *)
Definition nearest (n : Z) : Z :=
  (let s := Z.log2 n + 1 - 53 in
   if s <=? 0 then n
   else
     let q := n / 2 ^ s in
     let r := n mod 2 ^ s in
     let q' := match 2 * r ?= 2 ^ s with
               | Lt => q
               | Eq => if Z.even q then q else q + 1
               | Gt => q + 1
               end in
     Z.min (q' * 2 ^ s) (2 ^ 2098))%Z.

Definition round_ulps (n : Z) : Z :=
  (if n <? 0 then - nearest (- n) else nearest n)%Z.

(** Where the bits a shift drops stand relative to one half of the last bit
    kept. *)
Definition dropped (x j : Z) : location :=
  (let r := x mod 2 ^ j in
   if r =? 0 then loc_Exact else loc_Inexact (2 * r ?= 2 ^ j))%Z.

(** [mrs] is [x] shifted right by [j] bits. *)
Definition shifted (x j : Z) (mrs : shr_record) : Prop :=
  shr_m mrs = (x / 2 ^ j)%Z ∧ loc_of_shr_record mrs = dropped x j.

(** A finite number: a zero, or a significand and an exponent in range. *)
Definition SFfinite (f : spec_float) : bool :=
  match f with
  | S754_zero _ => true
  | S754_finite _ m e => bounded prec emax m e
  | _ => false
  end.

(** Not a NaN, as a property. *)
Definition b64_number (x : float) : Prop := is_number x = true.

(** A finite binary64 number of at most [bound] units in magnitude. *)
Definition within (bound : Z) (x : float) : Prop :=
  SFfinite (Prim2SF x) && (Z.abs (ulps x) <=? bound)%Z = true.

(** The ranges of the values of the program in binary64: a literal is at most
    [64], the score of a word at most [2^66] and a score at most [2^136] in
    magnitude.  Each range is so far above the one before that adding a value
    of the range before to its bound rounds back to the bound. *)
Definition b64_weight : float -> Prop := within (2 ^ 1080).
Definition b64_term : float -> Prop := within (2 ^ 1140).
Definition b64_score : float -> Prop := within (2 ^ 1210).

(** ** Vocabulary of the search that never prunes *)

Section Memo.

Context {A : Arith}.

#[local] Open Scope score_scope.

(** The memo table has for [key] a score not below [v]. *)
Definition covers (visited : gmap (nat * string) num) (key : nat * string)
    (v : num) : Prop :=
  ∃ best, visited !! key = Some best ∧ (best >=? v) = true.

(** A state with [key] and a score not below [v] is still to be processed. *)
Definition awaits (pending : list state) (key : nat * string) (v : num) : Prop :=
  ∃ s, s ∈ pending ∧ state_key s = key ∧ (state_score s >=? v) = true.

Definition reached (visited : gmap (nat * string) num) (pending : list state)
    (key : nat * string) (v : num) : Prop :=
  covers visited key v ∨ awaits pending key v.

(** The memo table is closed under the steps of the search, up to the states
    that are still to be processed: what a step from an entry of the table
    leads to is reached, with the score the step gives to the score of the
    entry, or a better one; and an entry at the end of the stream with a word
    of the dictionary has a result with the score it gives, or a better one.
    The steps are those of [process_state]: reading the code of a letter while
    the word is below [MAX_WORD_LEN], and committing a word of the dictionary
    before the end of the stream. *)
Definition closed {O : ArithOrder A} (cfg : config) (dictionary : gset string)
    (bits : list ascii) (visited : gmap (nat * string) num) (results : list result)
    (pending : list state) : Prop :=
  (∀ key best, visited !! key = Some best → is_score best) ∧
  Forall (fun s => is_score (state_score s)) pending ∧
  ∀ pos cur_word best,
    visited !! (pos, cur_word) = Some best →
    (∀ letter code,
       letter_code letter = Some code →
       list_ascii_of_string code `prefix_of` drop pos bits →
       String.length cur_word < MAX_WORD_LEN cfg →
       reached visited pending
               ((pos + String.length code)%nat, cur_word +:+ letter)
               (best + score_letter letter)) ∧
    (pos ≠ length bits → committable dictionary cur_word →
     reached visited pending (pos, "")
             (best + score_word cur_word dictionary - flit 0.2)) ∧
    (pos = length bits → committable dictionary cur_word →
     ∃ r, r ∈ results ∧ number (result_score r) ∧
          (result_score r >=? best + score_word cur_word dictionary) = true).

End Memo.

(** * Properties *)

(** ** The outcome monad and association lists *)

Lemma assoc_Some_elem {V : Type} (k : ascii) (v : V) (items : list (ascii * V)) :
  assoc k items = Some v → (k, v) ∈ items.
Proof.
  induction items as [|[k' v'] rest IH]; simpl; [done|].
  destruct (Ascii.eqb k' k) eqn:E.
  - apply Ascii.eqb_eq in E. intros [= ->]. subst. left.
  - intros H. right. auto.
Qed.

Lemma forallb_elem {X : Type} (f : X → bool) (l : list X) (x : X) :
  forallb f l = true → x ∈ l → f x = true.
Proof.
  intros H Hx. apply list_elem_of_In in Hx.
  rewrite forallb_forall in H. auto.
Qed.

(** ** binary64 arithmetic on the grid *)

Section Grid.

#[local] Open Scope Z_scope.

Lemma digits2_pos_bounds (p : positive) :
  2 ^ (Zpos (digits2_pos p) - 1) ≤ Zpos p < 2 ^ Zpos (digits2_pos p).
Proof.
  induction p as [p IH|p IH|]; simpl digits2_pos.
  - rewrite Pos2Z.inj_succ.
    replace (Z.succ (Zpos (digits2_pos p)) - 1) with (Z.succ (Zpos (digits2_pos p) - 1)) by lia.
    rewrite !Z.pow_succ_r by lia. lia.
  - rewrite Pos2Z.inj_succ.
    replace (Z.succ (Zpos (digits2_pos p)) - 1) with (Z.succ (Zpos (digits2_pos p) - 1)) by lia.
    rewrite !Z.pow_succ_r by lia. lia.
  - simpl. lia.
Qed.

Lemma log2_digits (p : positive) : Z.log2 (Zpos p) + 1 = Zpos (digits2_pos p).
Proof.
  pose proof (digits2_pos_bounds p) as [Hlo Hhi].
  rewrite (Z.log2_unique (Zpos p) (Zpos (digits2_pos p) - 1)); [lia|lia|].
  replace (Z.succ (Zpos (digits2_pos p) - 1)) with (Zpos (digits2_pos p)) by lia. lia.
Qed.

Lemma iter_xO (m d : positive) : Zpos (Pos.iter xO m d) = Zpos m * 2 ^ Zpos d.
Proof.
  induction d as [|d IH] using Pos.peano_ind.
  - simpl. lia.
  - rewrite Pos.iter_succ, Pos2Z.inj_succ, Z.pow_succ_r by lia.
    rewrite Pos2Z.inj_xO, IH. lia.
Qed.

End Grid.

Section Shift.

#[local] Open Scope Z_scope.

Lemma shr_1_shifted (x j : Z) (mrs : shr_record) :
  0 ≤ x → 0 ≤ j → shifted x j mrs → shifted x (j + 1) (shr_1 mrs).
Proof.
  intros Hx Hj [Hm Hloc]. destruct mrs as [m r s]. simpl in Hm.
  assert (0 < 2 ^ j) as Hpow by (apply Z.pow_pos_nonneg; lia).
  pose proof (Z.div_mod x (2 ^ j) ltac:(lia)) as Hdm.
  pose proof (Z.mod_pos_bound x (2 ^ j) Hpow) as Hrem.
  assert (0 ≤ m) as Hm0 by (subst m; apply Z.div_pos; lia).
  unfold dropped in Hloc. cbn zeta in Hloc.
  set (rem := x mod 2 ^ j) in *.
  assert (shr_1 {| shr_m := m; shr_r := r; shr_s := s |}
          = {| shr_m := Z.div2 m; shr_r := Z.odd m; shr_s := r || s |}) as ->.
  { by destruct m as [|[p|p|]|]. }
  pose proof (Z.div2_odd m) as Hodd.
  assert (2 ^ (j + 1) = 2 * 2 ^ j) as Hpow' by (rewrite Z.pow_add_r by lia; lia).
  set (b := Z.b2z (Z.odd m)) in *.
  assert (0 ≤ b ≤ 1) as Hb by (unfold b; destruct (Z.odd m); simpl; lia).
  assert (x = 2 ^ (j + 1) * Z.div2 m + (b * 2 ^ j + rem)) as Hx'.
  { rewrite Hpow'. rewrite <- Hm in Hdm. nia. }
  assert (0 ≤ b * 2 ^ j + rem < 2 ^ (j + 1)) as Hbound by nia.
  split.
  - simpl. by eapply Z.div_unique_pos.
  - unfold dropped. cbn zeta.
    rewrite <- (Z.mod_unique_pos _ _ _ _ Hbound Hx').
    unfold b in *. clear Hodd Hx' Hdm Hm Hb.
    assert ((r || s) = negb (rem =? 0)) as ->.
    { destruct r, s, (rem =? 0); simpl in Hloc |- *; congruence. }
    clear Hloc.
    destruct (Z.odd m); cbn [Z.b2z] in *;
      destruct (Z.eqb_spec rem 0) as [Hz|Hz]; cbn [negb loc_of_shr_record].
    + destruct (Z.eqb_spec (1 * 2 ^ j + rem) 0); [lia|].
      f_equal. symmetry. apply Z.compare_eq_iff. lia.
    + destruct (Z.eqb_spec (1 * 2 ^ j + rem) 0); [lia|].
      f_equal. symmetry. apply Z.compare_gt_iff. lia.
    + destruct (Z.eqb_spec (0 * 2 ^ j + rem) 0); [done|lia].
    + destruct (Z.eqb_spec (0 * 2 ^ j + rem) 0); [lia|].
      f_equal. symmetry. apply Z.compare_lt_iff. lia.
Qed.

Lemma shr_iter (x : Z) (n : positive) :
  0 ≤ x → ∀ j mrs, 0 ≤ j → shifted x j mrs →
  shifted x (j + Zpos n) (SpecFloat.iter_pos shr_1 n mrs).
Proof.
  intros Hx. induction n as [n IH|n IH|]; intros j mrs Hj Hs; simpl.
  - rewrite Pos2Z.inj_xI.
    replace (j + (2 * Zpos n + 1)) with (j + 1 + Zpos n + Zpos n) by lia.
    apply IH; [lia|]. apply IH; [lia|]. by apply shr_1_shifted.
  - rewrite Pos2Z.inj_xO.
    replace (j + 2 * Zpos n) with (j + Zpos n + Zpos n) by lia.
    apply IH; [lia|]. by apply IH.
  - by apply shr_1_shifted.
Qed.

Lemma shifted_0 (x : Z) : shifted x 0 (shr_record_of_loc x loc_Exact).
Proof.
  split; simpl.
  - by rewrite Z.div_1_r.
  - unfold dropped. simpl. by rewrite Z.mod_1_r.
Qed.

Lemma shr_spec (x e k : Z) :
  0 ≤ x →
  ∃ mrs, shr (shr_record_of_loc x loc_Exact) e k = (mrs, e + Z.max k 0) ∧
         shifted x (Z.max k 0) mrs.
Proof.
  intros Hx. destruct k as [|k|k]; simpl.
  - eexists. split; [by rewrite Z.add_0_r|]. apply shifted_0.
  - eexists. split; [done|].
    apply (shr_iter x k Hx 0); [lia|]. apply shifted_0.
  - eexists. split; [by rewrite Z.add_0_r|]. apply shifted_0.
Qed.

End Shift.

Section Rounding.

#[local] Open Scope Z_scope.

Lemma fexp_eq (e : Z) : fexp prec emax e = Z.max (e - 53) (-1074).
Proof. reflexivity. Qed.

Lemma pow2_pos (a : Z) : 0 ≤ a → 0 < 2 ^ a.
Proof. intros. apply Z.pow_pos_nonneg; lia. Qed.

Lemma pow2_le (a b : Z) : 0 ≤ a ≤ b → 2 ^ a ≤ 2 ^ b.
Proof. intros. apply Z.pow_le_mono_r; lia. Qed.

Lemma pow2_lt (a b : Z) : 0 ≤ a < b → 2 ^ a < 2 ^ b.
Proof. intros. apply Z.pow_lt_mono_r; lia. Qed.

Lemma log2_shifted (m a d : Z) :
  0 ≤ a → 1 ≤ d → 2 ^ (d - 1) ≤ m < 2 ^ d → Z.log2 (m * 2 ^ a) + 1 = d + a.
Proof.
  intros Ha Hd [Hlo Hhi]. pose proof (pow2_pos a Ha) as Hpa.
  rewrite (Z.log2_unique (m * 2 ^ a) (d - 1 + a)); [lia|lia|]. split.
  - rewrite Z.pow_add_r by lia. nia.
  - replace (Z.succ (d - 1 + a)) with (d + a) by lia. rewrite Z.pow_add_r by lia. nia.
Qed.

Lemma Zdigits2_unique (x d : Z) : 2 ^ (d - 1) ≤ x < 2 ^ d → 1 ≤ d → Zdigits2 x = d.
Proof.
  intros [Hlo Hhi] Hd. pose proof (pow2_pos (d - 1) ltac:(lia)) as Hp.
  destruct x as [|p|p]; [lia| |lia].
  simpl. rewrite <- log2_digits.
  rewrite (Z.log2_unique (Zpos p) (d - 1)); [lia|lia|].
  replace (Z.succ (d - 1)) with d by lia. done.
Qed.

Lemma mul_compare_r (n m p : Z) : 0 < p → (n * p ?= m * p) = (n ?= m).
Proof.
  intros Hp. destruct (Z.compare_spec n m) as [->| |].
  - apply Z.compare_refl.
  - apply Z.compare_lt_iff. nia.
  - apply Z.compare_gt_iff. nia.
Qed.

(** The rounding step of binary64, on the significand left by dropping [k]
    bits of [m]. *)
Lemma nearest_cases (m k a : Z) :
  0 ≤ a → 0 ≤ k → 0 < k + a → 0 < m → Z.log2 (m * 2 ^ a) + 1 - 53 = k + a →
  nearest (m * 2 ^ a)
  = Z.min (round_nearest_even (m / 2 ^ k) (dropped m k) * 2 ^ (k + a)) (2 ^ 2098).
Proof.
  intros Ha Hk Hs Hm Hlog. unfold nearest. cbn zeta. rewrite Hlog.
  destruct (Z.leb_spec (k + a) 0) as [|_]; [lia|].
  pose proof (pow2_pos a Ha) as Hpa. pose proof (pow2_pos k Hk) as Hpk.
  rewrite (Z.pow_add_r 2 k a) by lia.
  rewrite Z.div_mul_cancel_r by lia.
  rewrite Z.mul_mod_distr_r by lia.
  replace (2 * (m mod 2 ^ k * 2 ^ a)) with (2 * (m mod 2 ^ k) * 2 ^ a) by lia.
  rewrite mul_compare_r by lia.
  f_equal. f_equal. unfold dropped. cbn zeta.
  pose proof (Z.mod_pos_bound m (2 ^ k) Hpk) as Hrem.
  destruct (Z.eqb_spec (m mod 2 ^ k) 0) as [Hz|Hz].
  - rewrite Hz, Z.mul_0_r. cbn [round_nearest_even].
    destruct (Z.compare_spec 0 (2 ^ k)); [lia|done|lia].
  - cbn [round_nearest_even]. by destruct (2 * (m mod 2 ^ k) ?= 2 ^ k).
Qed.

End Rounding.

Section Round.

#[local] Open Scope Z_scope.

Lemma round_nearest_even_bounds (q : Z) (l : location) :
  q ≤ round_nearest_even q l ≤ q + 1.
Proof. destruct l as [|[]]; simpl; try destruct (Z.even q); lia. Qed.

Lemma mul_lt_bounds (x y X Y : Z) : 0 ≤ x < X → 0 < y ≤ Y → x * y < X * Y.
Proof. nia. Qed.

Lemma mul_le_bounds (x y X Y : Z) : 0 ≤ X ≤ x → 0 ≤ Y ≤ y → X * Y ≤ x * y.
Proof. nia. Qed.

Lemma round_result (sx : bool) (v e target : Z) :
  0 < v →
  (e ≤ 971 → v * 2 ^ (e + 1074) = target) →
  (971 < e → target = 2 ^ 2098) →
  match v with
  | 0 => S754_zero sx
  | Zpos m => if e <=? emax - prec then S754_finite sx m e else S754_infinity sx
  | Zneg _ => S754_nan
  end ≠ S754_nan ∧
  SFulps match v with
         | 0 => S754_zero sx
         | Zpos m => if e <=? emax - prec then S754_finite sx m e else S754_infinity sx
         | Zneg _ => S754_nan
         end = cond_Zopp sx target.
Proof.
  intros Hv Hfin Hinf. destruct v as [|m|m]; [lia| |lia].
  change (emax - prec) with 971.
  destruct (Z.leb_spec e 971) as [Hle|Hgt]; (split; [done|]); cbn [SFulps].
  - by rewrite (Hfin Hle).
  - by rewrite (Hinf Hgt).
Qed.

Lemma binary_round_aux_spec (sx : bool) (mz : positive) (ez : Z) :
  -1074 ≤ ez → ez ≤ fexp prec emax (Zpos (digits2_pos mz) + ez) →
  binary_round_aux prec emax sx (Zpos mz) ez loc_Exact ≠ S754_nan ∧
  SFulps (binary_round_aux prec emax sx (Zpos mz) ez loc_Exact)
  = cond_Zopp sx (nearest (Zpos mz * 2 ^ (ez + 1074))).
Proof.
  intros Hez Hfe. rewrite fexp_eq in Hfe.
  pose proof (digits2_pos_bounds mz) as Hdg.
  unfold binary_round_aux, shr_fexp. cbn [Zdigits2].
  set (dg := Zpos (digits2_pos mz)) in *.
  assert (1 ≤ dg) as Hdg1 by (unfold dg; lia).
  set (a := ez + 1074). assert (a = ez + 1074) as Ha' by done.
  assert (0 ≤ a) as Ha by lia.
  pose proof (log2_shifted (Zpos mz) a dg Ha Hdg1 Hdg) as Hlog.
  set (k := fexp prec emax (dg + ez) - ez).
  assert (k = Z.max (dg + ez - 53) (-1074) - ez) as Hk by (unfold k; by rewrite fexp_eq).
  assert (0 ≤ k) as Hk0 by lia.
  destruct (shr_spec (Zpos mz) ez k) as (mrs & -> & [Hq Hloc]); [lia|].
  rewrite Z.max_l in Hq, Hloc |- * by lia.
  rewrite Hq, Hloc.
  set (q := Zpos mz / 2 ^ k) in *.
  set (q' := round_nearest_even q (dropped (Zpos mz) k)).
  set (e' := ez + k). assert (e' = ez + k) as He' by done.
  pose proof (round_nearest_even_bounds q (dropped (Zpos mz) k)) as Hq'. fold q' in Hq'.
  pose proof (pow2_pos k Hk0) as Hpk.
  assert ((k = 0 ∧ a = 0 ∧ dg ≤ 53) ∨ (0 < k + a ∧ k = dg - 53)) as [(Hk1 & Ha1 & Hd1)|[Hs Hk1]]
    by lia.
  - (* no bit is dropped and the number is below the normal range *)
    assert (q' = Zpos mz) as Hqm.
    { unfold q', q, dropped. rewrite Hk1. cbn zeta.
      change (2 ^ 0) with 1. by rewrite Z.mod_1_r, Z.div_1_r. }
    rewrite (Zdigits2_unique q' dg) by (try rewrite Hqm; lia).
    destruct (shr_spec q' e' (fexp prec emax (dg + e') - e'))
      as (mrs2 & -> & [Hq2 _]); [lia|].
    rewrite fexp_eq in Hq2 |- *.
    rewrite (Z.max_r _ 0) in Hq2 |- * by lia.
    rewrite Hq2. change (2 ^ 0) with 1. rewrite Z.div_1_r.
    apply round_result; [lia| |lia].
    intros _. unfold nearest. cbn zeta. fold a.
    replace (Z.log2 (Zpos mz * 2 ^ a) + 1 - 53) with (dg + a - 53) by lia.
    destruct (Z.leb_spec (dg + a - 53) 0); [|lia].
    rewrite Hqm. f_equal. f_equal. lia.
  - (* the significand has 53 bits after [k] are dropped *)
    assert (2 ^ dg = 2 ^ k * 2 ^ 53) as Hp1.
    { rewrite <- Z.pow_add_r by lia. f_equal. lia. }
    assert (2 ^ (dg - 1) = 2 ^ k * 2 ^ 52) as Hp2.
    { rewrite <- Z.pow_add_r by lia. f_equal. lia. }
    assert (2 ^ 52 ≤ q < 2 ^ 53) as Hqb.
    { unfold q. split.
      - apply Z.div_le_lower_bound; lia.
      - apply Z.div_lt_upper_bound; lia. }
    assert (2 ^ 53 = 2 * 2 ^ 52) as H53 by reflexivity.
    assert (0 < 2 ^ 52) as H52 by reflexivity.
    assert (2 ^ 54 = 2 * 2 ^ 53) as H54 by reflexivity.
    assert (nearest (Zpos mz * 2 ^ a)
            = Z.min (q' * 2 ^ (k + a)) (2 ^ 2098)) as ->.
    { apply nearest_cases; lia. }
    assert (0 ≤ k + a) as Hka by lia.
    pose proof (pow2_pos (k + a) Hka) as Hpka.
    assert (2 ^ 2098 = 2 ^ 53 * 2 ^ 2045) as Hbig1 by reflexivity.
    assert (2 ^ 2098 = 2 ^ 52 * 2 ^ 2046) as Hbig2 by reflexivity.
    assert (2 ^ 2045 = 2 * 2 ^ 2044) as Hbig3 by reflexivity.
    destruct (Z_lt_le_dec q' (2 ^ 53)) as [Hlt|Hge].
    + rewrite (Zdigits2_unique q' 53) by (change (53 - 1) with 52; lia).
      destruct (shr_spec q' e' (fexp prec emax (53 + e') - e'))
        as (mrs2 & -> & [Hq2 _]); [lia|].
      rewrite fexp_eq in Hq2 |- *.
      rewrite (Z.max_r _ 0) in Hq2 |- * by lia.
      rewrite Hq2. change (2 ^ 0) with 1. rewrite Z.div_1_r.
      replace (e' + 0 + 1074) with (k + a) by lia.
      apply round_result; [lia| |]; replace (e' + 0 + 1074) with (k + a) by lia.
      * intros He. rewrite Z.min_l; [done|].
        pose proof (pow2_le (k + a) 2045 ltac:(lia)) as Hle.
        rewrite Hbig1. apply Z.lt_le_incl, mul_lt_bounds; lia.
      * intros He. rewrite Z.min_r; [done|].
        pose proof (pow2_le 2046 (k + a) ltac:(lia)) as Hle.
        rewrite Hbig2. apply mul_le_bounds; lia.
    + assert (q' = 2 ^ 53) as Hqe by lia.
      rewrite (Zdigits2_unique q' 54) by (change (54 - 1) with 53; lia).
      destruct (shr_spec q' e' (fexp prec emax (54 + e') - e'))
        as (mrs2 & -> & [Hq2 _]); [lia|].
      rewrite fexp_eq in Hq2 |- *.
      replace (Z.max (Z.max (54 + e' - 53) (-1074) - e') 0) with 1 in Hq2 |- * by lia.
      rewrite Hq2, Hqe. change (2 ^ 53 / 2 ^ 1) with (2 ^ 52).
      apply round_result; [lia| |]; replace (e' + 1 + 1074) with (k + a + 1) by lia.
      * intros He. rewrite Z.pow_add_r by lia. change (2 ^ 1) with 2.
        rewrite Z.min_l; [lia|].
        pose proof (pow2_le (k + a) 2044 ltac:(lia)) as Hle.
        rewrite Hbig1, Hbig3. nia.
      * intros He. rewrite Z.min_r; [done|].
        pose proof (pow2_le 2045 (k + a) ltac:(lia)) as Hle.
        rewrite Hbig1. apply mul_le_bounds; lia.
Qed.

End Round.

Section Operations.

#[local] Open Scope Z_scope.

Lemma digits_iter_xO (p d : positive) :
  Zpos (digits2_pos (Pos.iter xO p d)) = Zpos (digits2_pos p) + Zpos d.
Proof.
  pose proof (digits2_pos_bounds p) as [Hlo Hhi].
  change (Zpos (digits2_pos (Pos.iter xO p d))) with (Zdigits2 (Zpos (Pos.iter xO p d))).
  pose proof (pow2_pos (Zpos d) ltac:(lia)) as Hpd.
  apply Zdigits2_unique; [|lia]. rewrite iter_xO. split.
  - replace (Zpos (digits2_pos p) + Zpos d - 1) with (Zpos (digits2_pos p) - 1 + Zpos d)
      by lia.
    rewrite Z.pow_add_r by lia. nia.
  - rewrite Z.pow_add_r by lia. nia.
Qed.

Lemma binary_round_spec (sx : bool) (p : positive) (e : Z) :
  -1074 ≤ e →
  binary_round prec emax sx p e ≠ S754_nan ∧
  SFulps (binary_round prec emax sx p e)
  = cond_Zopp sx (nearest (Zpos p * 2 ^ (e + 1074))).
Proof.
  intros He. unfold binary_round, shl_align.
  pose proof (fexp_eq (Zpos (digits2_pos p) + e)) as Hfe.
  destruct (fexp prec emax (Zpos (digits2_pos p) + e) - e) as [|d|d] eqn:Hd.
  - apply binary_round_aux_spec; lia.
  - apply binary_round_aux_spec; lia.
  - set (fe := fexp prec emax (Zpos (digits2_pos p) + e)) in *.
    replace (Zpos p * 2 ^ (e + 1074)) with (Zpos (Pos.iter xO p d) * 2 ^ (fe + 1074)).
    + apply binary_round_aux_spec; [lia|].
      rewrite digits_iter_xO.
      replace (Zpos (digits2_pos p) + Zpos d + fe) with (Zpos (digits2_pos p) + e) by lia.
      fold fe. lia.
    + rewrite iter_xO, <- Z.mul_assoc, <- Z.pow_add_r by lia. do 2 f_equal. lia.
Qed.

Lemma nearest_0 : nearest 0 = 0.
Proof. reflexivity. Qed.

Lemma binary_normalize_spec (m e : Z) :
  -1074 ≤ e →
  binary_normalize prec emax m e false ≠ S754_nan ∧
  SFulps (binary_normalize prec emax m e false) = round_ulps (m * 2 ^ (e + 1074)).
Proof.
  intros He. pose proof (pow2_pos (e + 1074) ltac:(lia)) as Hp.
  unfold round_ulps. destruct m as [|p|p]; cbn [binary_normalize].
  - done.
  - destruct (Z.ltb_spec (Zpos p * 2 ^ (e + 1074)) 0); [lia|].
    by apply (binary_round_spec false).
  - destruct (Z.ltb_spec (Zneg p * 2 ^ (e + 1074)) 0); [|lia].
    replace (- (Zneg p * 2 ^ (e + 1074))) with (Zpos p * 2 ^ (e + 1074)) by lia.
    by apply (binary_round_spec true).
Qed.

Lemma bounded_inv (m : positive) (e : Z) :
  bounded prec emax m e = true →
  -1074 ≤ e ≤ 971 ∧ Zpos (digits2_pos m) ≤ 53 ∧
  (e = -1074 ∨ Zpos (digits2_pos m) = 53).
Proof.
  unfold bounded, canonical_mantissa. rewrite fexp_eq. change (emax - prec) with 971.
  intros [Hc He]%andb_true_iff. apply Z.eqb_eq in Hc. apply Z.leb_le in He. lia.
Qed.

Lemma SFulps_bound (m : positive) (e : Z) :
  bounded prec emax m e = true → 0 < Zpos m * 2 ^ (e + 1074) < 2 ^ 2098.
Proof.
  intros (He & Hd & _)%bounded_inv.
  pose proof (digits2_pos_bounds m) as [_ Hhi].
  pose proof (pow2_pos (e + 1074) ltac:(lia)) as Hp.
  pose proof (pow2_le (e + 1074) 2045 ltac:(lia)) as Hle.
  pose proof (pow2_le (Zpos (digits2_pos m)) 53 ltac:(lia)) as Hle'.
  split; [lia|].
  change (2 ^ 2098) with (2 ^ 53 * 2 ^ 2045). apply mul_lt_bounds; lia.
Qed.

Lemma nearest_bounded (m : positive) (e : Z) :
  bounded prec emax m e = true →
  nearest (Zpos m * 2 ^ (e + 1074)) = Zpos m * 2 ^ (e + 1074).
Proof.
  intros Hb. pose proof (SFulps_bound m e Hb) as Hlt.
  apply bounded_inv in Hb as (He & Hd & Hc).
  pose proof (digits2_pos_bounds m) as Hdg.
  pose proof (log2_shifted (Zpos m) (e + 1074) (Zpos (digits2_pos m))
                ltac:(lia) ltac:(lia) Hdg) as Hlog.
  destruct (Z_le_gt_dec (Zpos (digits2_pos m) + (e + 1074) - 53) 0) as [Hs|Hs].
  - unfold nearest. cbn zeta.
    replace (Z.log2 (Zpos m * 2 ^ (e + 1074)) + 1 - 53)
      with (Zpos (digits2_pos m) + (e + 1074) - 53) by lia.
    by destruct (Z.leb_spec (Zpos (digits2_pos m) + (e + 1074) - 53) 0); [|lia].
  - rewrite (nearest_cases (Zpos m) 0 (e + 1074)) by lia.
    unfold dropped. cbn zeta. change (2 ^ 0) with 1.
    rewrite Z.mod_1_r, Z.div_1_r. cbn [Z.eqb round_nearest_even].
    rewrite Z.add_0_l. lia.
Qed.

Lemma shl_align_fst (m : positive) (e ez : Z) :
  ez ≤ e → Zpos (fst (shl_align m e ez)) = Zpos m * 2 ^ (e - ez).
Proof.
  intros Hle. unfold shl_align. destruct (ez - e) as [|d|d] eqn:Hd; cbn [fst].
  - replace (e - ez) with 0 by lia. change (2 ^ 0) with 1. lia.
  - lia.
  - rewrite iter_xO. do 2 f_equal. lia.
Qed.

Lemma aligned_sum (sx sy : bool) (mx my : positive) (ex ey : Z) :
  -1074 ≤ ex → -1074 ≤ ey →
  (cond_Zopp sx (Zpos (fst (shl_align mx ex (Z.min ex ey))))
   + cond_Zopp sy (Zpos (fst (shl_align my ey (Z.min ex ey)))))
  * 2 ^ (Z.min ex ey + 1074)
  = cond_Zopp sx (Zpos mx * 2 ^ (ex + 1074)) + cond_Zopp sy (Zpos my * 2 ^ (ey + 1074)).
Proof.
  intros Hx Hy. rewrite !shl_align_fst by lia.
  assert (∀ e, Z.min ex ey ≤ e →
               2 ^ (e - Z.min ex ey) * 2 ^ (Z.min ex ey + 1074) = 2 ^ (e + 1074)) as Hp.
  { intros e He. rewrite <- Z.pow_add_r by lia. f_equal. lia. }
  pose proof (Hp ex ltac:(lia)) as Hpx. pose proof (Hp ey ltac:(lia)) as Hpy.
  destruct sx, sy; cbn [cond_Zopp]; nia.
Qed.

Lemma round_ulps_bounded (s : bool) (m : positive) (e : Z) :
  bounded prec emax m e = true →
  round_ulps (cond_Zopp s (Zpos m * 2 ^ (e + 1074)))
  = cond_Zopp s (Zpos m * 2 ^ (e + 1074)).
Proof.
  intros Hb. pose proof (SFulps_bound m e Hb) as Hlt. unfold round_ulps.
  destruct s; cbn [cond_Zopp].
  - destruct (Z.ltb_spec (- (Zpos m * 2 ^ (e + 1074))) 0); [|lia].
    by rewrite Z.opp_involutive, nearest_bounded.
  - destruct (Z.ltb_spec (Zpos m * 2 ^ (e + 1074)) 0); [lia|].
    by rewrite nearest_bounded.
Qed.

Lemma SFadd_spec (x y : spec_float) :
  SFfinite x = true → SFfinite y = true →
  SF64add x y ≠ S754_nan ∧ SFulps (SF64add x y) = round_ulps (SFulps x + SFulps y).
Proof.
  unfold SF64add.
  destruct x as [sx|sx| |sx mx ex], y as [sy|sy| |sy my ey]; try done;
    cbn [SFfinite SFadd SFulps]; intros Hx Hy.
  - by destruct sx, sy.
  - split; [done|]. by rewrite Z.add_0_l, round_ulps_bounded.
  - split; [done|]. by rewrite Z.add_0_r, round_ulps_bounded.
  - apply bounded_inv in Hx as (Hx & _). apply bounded_inv in Hy as (Hy & _).
    rewrite <- aligned_sum by lia.
    apply binary_normalize_spec. lia.
Qed.

Lemma SFsub_spec (x y : spec_float) :
  SFfinite x = true → SFfinite y = true →
  SF64sub x y ≠ S754_nan ∧ SFulps (SF64sub x y) = round_ulps (SFulps x - SFulps y).
Proof.
  unfold SF64sub.
  destruct x as [sx|sx| |sx mx ex], y as [sy|sy| |sy my ey]; try done;
    cbn [SFfinite SFsub SFulps]; intros Hx Hy.
  - by destruct sx, sy.
  - split; [done|]. rewrite Z.sub_0_l.
    replace (- cond_Zopp sy (Zpos my * 2 ^ (ey + 1074)))
      with (cond_Zopp (negb sy) (Zpos my * 2 ^ (ey + 1074)))
      by (destruct sy; cbn [cond_Zopp negb]; lia).
    by rewrite round_ulps_bounded.
  - split; [done|]. by rewrite Z.sub_0_r, round_ulps_bounded.
  - apply bounded_inv in Hx as (Hx & _). apply bounded_inv in Hy as (Hy & _).
    replace (cond_Zopp sx (Zpos mx * 2 ^ (ex + 1074))
             - cond_Zopp sy (Zpos my * 2 ^ (ey + 1074)))
      with (cond_Zopp sx (Zpos mx * 2 ^ (ex + 1074))
            + cond_Zopp (negb sy) (Zpos my * 2 ^ (ey + 1074)))
      by (destruct sy; cbn [cond_Zopp negb]; lia).
    rewrite <- aligned_sum by lia.
    replace (cond_Zopp sx (Zpos (fst (shl_align mx ex (Z.min ex ey))))
             + cond_Zopp (negb sy) (Zpos (fst (shl_align my ey (Z.min ex ey)))))
      with (cond_Zopp sx (Zpos (fst (shl_align mx ex (Z.min ex ey))))
            - cond_Zopp sy (Zpos (fst (shl_align my ey (Z.min ex ey)))))
      by (destruct sy; cbn [cond_Zopp negb]; lia).
    apply binary_normalize_spec. lia.
Qed.

End Operations.

Section Monotone.

#[local] Open Scope Z_scope.

(** The significand [nearest] keeps of [n] when it drops [s] bits. *)
Lemma nearest_nonneg (n : Z) : 0 ≤ n → 0 ≤ nearest n.
Proof.
  intros Hn. unfold nearest. cbn zeta.
  destruct (Z.leb_spec (Z.log2 n + 1 - 53) 0) as [|Hs]; [done|].
  pose proof (pow2_pos (Z.log2 n + 1 - 53) ltac:(lia)) as Hp.
  pose proof (Z.div_pos n _ Hn Hp) as Hq.
  apply Z.min_glb; [|done].
  destruct (_ ?= _); try destruct (Z.even _); nia.
Qed.

Lemma nearest_small (n : Z) : 0 ≤ n → Z.log2 n + 1 - 53 ≤ 0 → nearest n = n ∧ n < 2 ^ 53.
Proof.
  intros Hn Hs. unfold nearest. cbn zeta.
  destruct (Z.leb_spec (Z.log2 n + 1 - 53) 0) as [_|]; [|lia]. split; [done|].
  destruct (Z.eq_dec n 0) as [->|]; [done|].
  pose proof (Z.log2_spec n ltac:(lia)) as [_ Hhi].
  pose proof (pow2_le (Z.succ (Z.log2 n)) 53 ltac:(pose proof (Z.log2_nonneg n); lia)).
  lia.
Qed.

Lemma nearest_large (n : Z) :
  let s := Z.log2 n + 1 - 53 in
  let q := n / 2 ^ s in
  let q' := match 2 * (n mod 2 ^ s) ?= 2 ^ s with
            | Lt => q
            | Eq => if Z.even q then q else q + 1
            | Gt => q + 1
            end in
  0 < s →
  nearest n = Z.min (q' * 2 ^ s) (2 ^ 2098) ∧
  2 ^ 52 ≤ q < 2 ^ 53 ∧ q ≤ q' ≤ q + 1.
Proof.
  intros s q q' Hs. unfold nearest. cbn zeta. fold s.
  destruct (Z.leb_spec s 0) as [|_]; [lia|]. split; [done|].
  assert (0 < n) as Hn.
  { destruct n as [|p|p]; [| lia |]; unfold s in Hs; simpl in Hs; lia. }
  pose proof (Z.log2_spec n Hn) as [Hlo Hhi].
  pose proof (pow2_pos s ltac:(lia)) as Hp.
  assert (Z.log2 n = 52 + s) as Hl by (unfold s; lia).
  assert (2 ^ (52 + s) = 2 ^ s * 2 ^ 52) as H1 by (rewrite Z.pow_add_r by lia; lia).
  assert (2 ^ Z.succ (52 + s) = 2 ^ s * 2 ^ 53) as H2.
  { replace (Z.succ (52 + s)) with (53 + s) by lia. rewrite Z.pow_add_r by lia. lia. }
  rewrite Hl, ?H1, ?H2 in Hlo, Hhi.
  split.
  - unfold q. split.
    + apply Z.div_le_lower_bound; lia.
    + apply Z.div_lt_upper_bound; lia.
  - unfold q'. destruct (_ ?= _); try destruct (Z.even q); lia.
Qed.

Lemma nearest_mono (n1 n2 : Z) : 0 ≤ n1 ≤ n2 → nearest n1 ≤ nearest n2.
Proof.
  intros [H1 H12].
  pose proof (Z.log2_le_mono n1 n2 H12) as Hlog.
  destruct (Z_le_gt_dec (Z.log2 n2 + 1 - 53) 0) as [Hs2|Hs2].
  { destruct (nearest_small n1) as [-> _]; [lia|lia|].
    destruct (nearest_small n2) as [-> _]; lia. }
  destruct (nearest_large n2 ltac:(lia)) as (-> & Hq2 & Hq2').
  assert (2 ^ 53 = 2 * 2 ^ 52) as H53 by reflexivity.
  assert (0 < 2 ^ 52) as H52 by reflexivity.
  assert (2 ^ 53 < 2 ^ 2098) as Hbig by reflexivity.
  destruct (Z_le_gt_dec (Z.log2 n1 + 1 - 53) 0) as [Hs1|Hs1].
  { destruct (nearest_small n1) as [-> Hlt]; [lia|lia|].
    pose proof (pow2_le 1 (Z.log2 n2 + 1 - 53) ltac:(lia)) as Hp.
    change (2 ^ 1) with 2 in Hp.
    apply Z.min_glb; [|lia]. nia. }
  destruct (nearest_large n1 ltac:(lia)) as (-> & Hq1 & Hq1').
  apply Z.min_le_compat_r.
  set (s1 := Z.log2 n1 + 1 - 53) in *. set (s2 := Z.log2 n2 + 1 - 53) in *.
  pose proof (pow2_pos s1 ltac:(lia)) as Hp1.
  destruct (Z.eq_dec s1 s2) as [Heq|Hne].
  - rewrite <- Heq in *. clear s2 Heq Hs2 Hlog.
    pose proof (Z.div_le_mono n1 n2 (2 ^ s1) Hp1 H12) as Hq.
    apply Z.mul_le_mono_nonneg_r; [lia|].
    destruct (Z.eq_dec (n1 / 2 ^ s1) (n2 / 2 ^ s1)) as [Hqe|Hqn]; [|lia].
    pose proof (Z.div_mod n1 (2 ^ s1) ltac:(lia)) as Hd1.
    pose proof (Z.div_mod n2 (2 ^ s1) ltac:(lia)) as Hd2.
    rewrite <- Hqe in *.
    assert (n1 mod 2 ^ s1 ≤ n2 mod 2 ^ s1) as Hr by lia.
    destruct (Z.compare_spec (2 * (n1 mod 2 ^ s1)) (2 ^ s1)),
             (Z.compare_spec (2 * (n2 mod 2 ^ s1)) (2 ^ s1));
      try destruct (Z.even _); lia.
  - assert (s1 + 1 ≤ s2) as Hlt by lia.
    pose proof (pow2_le (s1 + 1) s2 ltac:(lia)) as Hp.
    rewrite Z.pow_add_r in Hp by lia. change (2 ^ 1) with 2 in Hp.
    nia.
Qed.

Lemma round_ulps_mono (n1 n2 : Z) : n1 ≤ n2 → round_ulps n1 ≤ round_ulps n2.
Proof.
  intros H12. unfold round_ulps.
  destruct (Z.ltb_spec n1 0), (Z.ltb_spec n2 0); try lia.
  - pose proof (nearest_mono (- n2) (- n1) ltac:(lia)). lia.
  - pose proof (nearest_nonneg (- n1) ltac:(lia)).
    pose proof (nearest_nonneg n2 ltac:(lia)). lia.
  - by apply nearest_mono.
Qed.

Lemma round_ulps_opp (n : Z) : round_ulps (- n) = - round_ulps n.
Proof.
  unfold round_ulps.
  destruct (Z.ltb_spec (- n) 0), (Z.ltb_spec n 0); try lia.
  - by rewrite Z.opp_involutive.
  - assert (n = 0) as -> by lia. done.
Qed.

(** A sum stays within [bound] when what is added is too small to move
    [bound] itself. *)
Lemma round_ulps_within (bound step n c : Z) :
  0 ≤ bound → 0 ≤ step → nearest (bound + step) = bound →
  Z.abs n ≤ bound → Z.abs c ≤ step →
  Z.abs (round_ulps (n + c)) ≤ bound.
Proof.
  intros Hb Hs Hfix Hn Hc.
  pose proof (round_ulps_mono (n + c) (bound + step) ltac:(lia)) as Hhi.
  pose proof (round_ulps_mono (- (bound + step)) (n + c) ltac:(lia)) as Hlo.
  rewrite round_ulps_opp in Hlo.
  assert (round_ulps (bound + step) = bound) as Hr.
  { unfold round_ulps. by destruct (Z.ltb_spec (bound + step) 0); [lia|]. }
  lia.
Qed.

End Monotone.

Section Order.

#[local] Open Scope Z_scope.

Lemma SFulps_opp (f : spec_float) : SFulps (SFopp f) = - SFulps f.
Proof. destruct f as [s|s| |s m e]; simpl; try done; destruct s; simpl; lia. Qed.

Lemma compare_bounded (m1 m2 : positive) (e1 e2 : Z) :
  bounded prec emax m1 e1 = true → bounded prec emax m2 e2 = true →
  match e1 ?= e2 with
  | Lt => Lt
  | Gt => Gt
  | Eq => Pos.compare_cont Eq m1 m2
  end = (Zpos m1 * 2 ^ (e1 + 1074) ?= Zpos m2 * 2 ^ (e2 + 1074)).
Proof.
  intros (He1 & Hd1 & Hc1)%bounded_inv (He2 & Hd2 & Hc2)%bounded_inv.
  pose proof (digits2_pos_bounds m1) as [Hlo1 Hhi1].
  pose proof (digits2_pos_bounds m2) as [Hlo2 Hhi2].
  pose proof (pow2_le (Zpos (digits2_pos m1)) 53 ltac:(lia)) as Hm1.
  pose proof (pow2_le (Zpos (digits2_pos m2)) 53 ltac:(lia)) as Hm2.
  assert (2 ^ 53 = 2 * 2 ^ 52) as H53 by reflexivity.
  pose proof (pow2_pos (e1 + 1074) ltac:(lia)) as Hp1.
  pose proof (pow2_pos (e2 + 1074) ltac:(lia)) as Hp2.
  destruct (Z.compare_spec e1 e2) as [->|Hlt|Hgt].
  - rewrite mul_compare_r by done. symmetry. apply Pos2Z.inj_compare.
  - symmetry. apply Z.compare_lt_iff.
    assert (Zpos (digits2_pos m2) = 53) as Hd by lia.
    rewrite Hd in Hlo2. change (53 - 1) with 52 in Hlo2.
    pose proof (pow2_le (e1 + 1074 + 1) (e2 + 1074) ltac:(lia)) as Hp.
    rewrite Z.pow_add_r in Hp by lia. change (2 ^ 1) with 2 in Hp. nia.
  - symmetry. apply Z.compare_gt_iff.
    assert (Zpos (digits2_pos m1) = 53) as Hd by lia.
    rewrite Hd in Hlo1. change (53 - 1) with 52 in Hlo1.
    pose proof (pow2_le (e2 + 1074 + 1) (e1 + 1074) ltac:(lia)) as Hp.
    rewrite Z.pow_add_r in Hp by lia. change (2 ^ 1) with 2 in Hp. nia.
Qed.

Lemma SFcompare_ulps (x y : spec_float) :
  valid_binary x = true → valid_binary y = true →
  x ≠ S754_nan → y ≠ S754_nan →
  SFcompare x y = Some (SFulps x ?= SFulps y).
Proof.
  assert (0 < 2 ^ 2098) as Hinf by reflexivity.
  destruct x as [sx|sx| |sx mx ex], y as [sy|sy| |sy my ey]; try done;
    cbn [valid_binary SFcompare SFulps]; intros Hx Hy _ _; f_equal;
    try (pose proof (SFulps_bound _ _ Hx) as Hbx);
    try (pose proof (SFulps_bound _ _ Hy) as Hby).
  1-7: try destruct sx; try destruct sy; cbn [cond_Zopp]; symmetry;
    first [apply Z.compare_eq_iff; lia | apply Z.compare_lt_iff; lia
          | apply Z.compare_gt_iff; lia].
  destruct sx, sy; cbn [cond_Zopp].
  - rewrite Z.compare_opp.
    rewrite (Z.compare_antisym (Zpos mx * 2 ^ (ex + 1074)) (Zpos my * 2 ^ (ey + 1074))).
    rewrite <- (compare_bounded _ _ _ _ Hx Hy).
    by destruct (ex ?= ey).
  - symmetry. apply Z.compare_lt_iff. lia.
  - symmetry. apply Z.compare_gt_iff. lia.
  - apply (compare_bounded _ _ _ _ Hx Hy).
Qed.

End Order.

Section Binary64.

#[local] Open Scope Z_scope.

Lemma number_not_nan (x : float) : b64_number x ↔ Prim2SF x ≠ S754_nan.
Proof. unfold b64_number, is_number. by destruct (Prim2SF x). Qed.

Lemma b64_ltb (x y : float) :
  b64_number x → b64_number y → PrimFloat.ltb x y = (ulps x <? ulps y).
Proof.
  intros Hx%number_not_nan Hy%number_not_nan.
  rewrite FloatAxioms.ltb_spec. unfold SFltb.
  rewrite (SFcompare_ulps _ _ (Prim2SF_valid x) (Prim2SF_valid y) Hx Hy).
  unfold Z.ltb, ulps. by destruct (_ ?= _).
Qed.

Lemma b64_leb (x y : float) :
  b64_number x → b64_number y → PrimFloat.leb x y = (ulps x <=? ulps y).
Proof.
  intros Hx%number_not_nan Hy%number_not_nan.
  rewrite FloatAxioms.leb_spec. unfold SFleb.
  rewrite (SFcompare_ulps _ _ (Prim2SF_valid x) (Prim2SF_valid y) Hx Hy).
  unfold Z.leb, ulps. by destruct (_ ?= _).
Qed.

Lemma b64_opp (x : float) :
  b64_number x → b64_number (- x)%float ∧ ulps (- x)%float = - ulps x.
Proof.
  intros Hx. unfold b64_number, is_number, ulps in *. rewrite FloatAxioms.opp_spec.
  split; [by destruct (Prim2SF x)|apply SFulps_opp].
Qed.

Lemma within_inv (bound : Z) (x : float) :
  within bound x → SFfinite (Prim2SF x) = true ∧ Z.abs (ulps x) ≤ bound.
Proof. intros [? ?%Z.leb_le]%andb_true_iff. done. Qed.

Lemma within_number (bound : Z) (x : float) : within bound x → b64_number x.
Proof.
  intros [H _]%within_inv. unfold b64_number, is_number. by destruct (Prim2SF x).
Qed.

Lemma within_le (b1 b2 : Z) (x : float) : b1 ≤ b2 → within b1 x → within b2 x.
Proof.
  intros Hle [Hf Hb]%within_inv. apply andb_true_iff. split; [done|].
  apply Z.leb_le. lia.
Qed.

Lemma finite_of_bound (x : float) (bound : Z) :
  Prim2SF x ≠ S754_nan → bound < 2 ^ 2098 → Z.abs (ulps x) ≤ bound →
  within bound x.
Proof.
  intros Hn Hb Hle. apply andb_true_iff. split; [|by apply Z.leb_le].
  pose proof (Prim2SF_valid x) as Hv. unfold ulps in Hle.
  destruct (Prim2SF x) as [s|s| |s m e]; try done.
  exfalso. destruct s; cbn [SFulps cond_Zopp] in Hle; lia.
Qed.

Lemma b64_add (bound step : Z) (x c : float) :
  0 ≤ step → 0 ≤ bound < 2 ^ 2098 → nearest (bound + step) = bound →
  within bound x → within step c →
  within bound (x + c)%float ∧ ulps (x + c)%float = round_ulps (ulps x + ulps c).
Proof.
  intros Hs Hb Hfix [Hx Hbx]%within_inv [Hc Hbc]%within_inv.
  destruct (SFadd_spec _ _ Hx Hc) as [Hn Hu].
  rewrite <- FloatAxioms.add_spec in Hn, Hu. split; [|done].
  apply finite_of_bound; [done|lia|]. unfold ulps at 1. rewrite Hu.
  apply (round_ulps_within bound step); (done || lia).
Qed.

Lemma b64_sub (bound step : Z) (x c : float) :
  0 ≤ step → 0 ≤ bound < 2 ^ 2098 → nearest (bound + step) = bound →
  within bound x → within step c →
  within bound (x - c)%float ∧ ulps (x - c)%float = round_ulps (ulps x - ulps c).
Proof.
  intros Hs Hb Hfix [Hx Hbx]%within_inv [Hc Hbc]%within_inv.
  destruct (SFsub_spec _ _ Hx Hc) as [Hn Hu].
  rewrite <- FloatAxioms.sub_spec in Hn, Hu. split; [|done].
  apply finite_of_bound; [done|lia|]. unfold ulps at 1. rewrite Hu.
  replace (ulps x - ulps c) with (ulps x + - ulps c) by lia.
  assert (Z.abs (- ulps c) ≤ step) as Hbc' by lia.
  apply (round_ulps_within bound step (ulps x) (- ulps c)); (done || lia).
Qed.

Lemma absorbs_term : nearest (2 ^ 1140 + 2 ^ 1080) = 2 ^ 1140.
Proof. vm_compute. reflexivity. Qed.

Lemma absorbs_score : nearest (2 ^ 1210 + 2 ^ 1140) = 2 ^ 1210.
Proof. vm_compute. reflexivity. Qed.

End Binary64.

(** ** The float instance is ordered *)

Section Binary64Order.

#[local] Open Scope Z_scope.

Lemma b64_flt_irrefl (a : float) : b64_number a → PrimFloat.ltb a a = false.
Proof. intros Ha. rewrite b64_ltb by done. apply Z.ltb_irrefl. Qed.

Lemma b64_flt_trans (a b c : float) :
  b64_number a → b64_number b → b64_number c →
  PrimFloat.ltb a b = true → PrimFloat.ltb b c = true → PrimFloat.ltb a c = true.
Proof. intros Ha Hb Hc. rewrite !b64_ltb by done. lia. Qed.

Lemma b64_flt_incomparable (a b c : float) :
  b64_number a → b64_number b → b64_number c →
  PrimFloat.ltb a b = false → PrimFloat.ltb b c = false → PrimFloat.ltb a c = false.
Proof. intros Ha Hb Hc. rewrite !b64_ltb by done. lia. Qed.

Lemma b64_fge_flt (a b : float) :
  b64_number a → b64_number b → PrimFloat.leb b a = negb (PrimFloat.ltb a b).
Proof. intros Ha Hb. rewrite b64_ltb, b64_leb by done. apply Z.leb_antisym. Qed.

Lemma b64_flt_fneg (a b : float) :
  b64_number a → b64_number b →
  PrimFloat.ltb (- a) (- b) = PrimFloat.ltb b a.
Proof.
  intros Ha Hb.
  destruct (b64_opp a Ha) as [Ha' Hua], (b64_opp b Hb) as [Hb' Hub].
  rewrite !b64_ltb, Hua, Hub by done.
  destruct (Z.ltb_spec (- ulps a) (- ulps b)), (Z.ltb_spec (ulps b) (ulps a)); lia.
Qed.

Lemma b64_weight_literal (q : Q) : In q literals → b64_weight (flit (Arith:=binary64) q).
Proof.
  unfold literals. cbn [In]. intros H.
  repeat (destruct H as [<-|H]; [vm_compute; reflexivity|]). done.
Qed.

Lemma b64_weight_term (a : float) : b64_weight a → b64_term a.
Proof. apply within_le. vm_compute. discriminate. Qed.

Lemma b64_term_score (a : float) : b64_term a → b64_score a.
Proof. apply within_le. vm_compute. discriminate. Qed.

Lemma b64_term_fadd (a c : float) : b64_term a → b64_weight c → b64_term (a + c).
Proof.
  intros Ha Hc.
  by apply (b64_add (2 ^ 1140) (2 ^ 1080) a c); [done|done|apply absorbs_term|..].
Qed.

Lemma b64_term_fsub (a c : float) : b64_term a → b64_weight c → b64_term (a - c).
Proof.
  intros Ha Hc.
  by apply (b64_sub (2 ^ 1140) (2 ^ 1080) a c); [done|done|apply absorbs_term|..].
Qed.

Lemma b64_score_fadd (a c : float) : b64_score a → b64_term c → b64_score (a + c).
Proof.
  intros Ha Hc.
  by apply (b64_add (2 ^ 1210) (2 ^ 1140) a c); [done|done|apply absorbs_score|..].
Qed.

Lemma b64_score_fsub (a c : float) : b64_score a → b64_term c → b64_score (a - c).
Proof.
  intros Ha Hc.
  by apply (b64_sub (2 ^ 1210) (2 ^ 1140) a c); [done|done|apply absorbs_score|..].
Qed.

Lemma b64_fadd_mono (a b c : float) :
  b64_score a → b64_score b → b64_term c →
  PrimFloat.leb b a = true → PrimFloat.leb (b + c) (a + c) = true.
Proof.
  intros Ha Hb Hc.
  destruct (b64_add (2 ^ 1210) (2 ^ 1140) a c) as [Ha' Hua];
    [done|done|apply absorbs_score|done|done|].
  destruct (b64_add (2 ^ 1210) (2 ^ 1140) b c) as [Hb' Hub];
    [done|done|apply absorbs_score|done|done|].
  rewrite !b64_leb, Hua, Hub by (by eapply within_number).
  rewrite !Z.leb_le. intros Hle. apply round_ulps_mono. lia.
Qed.

Lemma b64_fsub_mono (a b c : float) :
  b64_score a → b64_score b → b64_term c →
  PrimFloat.leb b a = true → PrimFloat.leb (b - c) (a - c) = true.
Proof.
  intros Ha Hb Hc.
  destruct (b64_sub (2 ^ 1210) (2 ^ 1140) a c) as [Ha' Hua];
    [done|done|apply absorbs_score|done|done|].
  destruct (b64_sub (2 ^ 1210) (2 ^ 1140) b c) as [Hb' Hub];
    [done|done|apply absorbs_score|done|done|].
  rewrite !b64_leb, Hua, Hub by (by eapply within_number).
  rewrite !Z.leb_le. intros Hle. apply round_ulps_mono. lia.
Qed.

End Binary64Order.

(** binary64 satisfies what the ordering arguments need: the numbers are the
    floats that are not a NaN, and the ranges are those of [b64_weight],
    [b64_term] and [b64_score]. *)
Lemma binary64_order : ArithOrder binary64.
Proof.
  refine (Build_ArithOrder binary64 b64_number b64_weight b64_term b64_score
            _ _ _ _ _ _ _ _ _ _ _ _ _ _ _ _).
  - exact b64_flt_irrefl.
  - exact b64_flt_trans.
  - exact b64_flt_incomparable.
  - exact b64_fge_flt.
  - exact b64_flt_fneg.
  - exact (fun a Ha => proj1 (b64_opp a Ha)).
  - exact (within_number _).
  - exact b64_weight_literal.
  - exact b64_weight_term.
  - exact b64_term_score.
  - exact b64_term_fadd.
  - exact b64_term_fsub.
  - exact b64_score_fadd.
  - exact b64_score_fsub.
  - exact b64_fadd_mono.
  - exact b64_fsub_mono.
Defined.

(** ** The rational instance is ordered *)

Section ExactOrder.

Lemma exact_flt_irrefl (a : Q) : negb (Qle_bool a a) = false.
Proof. rewrite negb_false_iff. apply Qle_bool_iff. apply Qle_refl. Qed.

Lemma exact_flt_trans (a b c : Q) :
  negb (Qle_bool b a) = true → negb (Qle_bool c b) = true →
  negb (Qle_bool c a) = true.
Proof.
  rewrite !negb_true_iff. intros Hab Hbc.
  destruct (Qle_bool c a) eqn:E; [|done].
  apply Qle_bool_iff in E.
  assert (~ (b <= a)%Q) as Hn by (rewrite <- Qle_bool_iff; congruence).
  assert (~ (c <= b)%Q) as Hm by (rewrite <- Qle_bool_iff; congruence).
  apply Qnot_le_lt in Hn, Hm.
  exfalso. apply (Qlt_irrefl a).
  eapply Qlt_le_trans; [apply Hn|].
  eapply Qle_trans; [apply Qlt_le_weak, Hm|done].
Qed.

Lemma exact_flt_incomparable (a b c : Q) :
  negb (Qle_bool b a) = false → negb (Qle_bool c b) = false →
  negb (Qle_bool c a) = false.
Proof.
  rewrite !negb_false_iff, !Qle_bool_iff.
  intros Hba Hcb. eapply Qle_trans; eauto.
Qed.

Lemma exact_flt_fneg (a b : Q) :
  negb (Qle_bool (- b) (- a)) = negb (Qle_bool a b).
Proof.
  f_equal.
  destruct (Qle_bool a b) eqn:E.
  - apply Qle_bool_iff. apply Qle_bool_iff in E. by apply Qopp_le_compat.
  - destruct (Qle_bool (- b) (- a)) eqn:E'; [|done].
    apply Qle_bool_iff, Qopp_le_compat in E'.
    rewrite !Qopp_involutive in E'. apply Qle_bool_iff in E'. congruence.
Qed.

Lemma exact_fadd_mono (a b c : Q) :
  Qle_bool b a = true → Qle_bool (b + c) (a + c) = true.
Proof.
  rewrite !Qle_bool_iff. intros H. apply Qplus_le_compat; [done|apply Qle_refl].
Qed.

Lemma exact_fsub_mono (a b c : Q) :
  Qle_bool b a = true → Qle_bool (b - c) (a - c) = true.
Proof.
  rewrite !Qle_bool_iff. intros H. apply Qplus_le_compat; [done|apply Qle_refl].
Qed.

End ExactOrder.

(** The rationals satisfy it with every value in every range. *)
Lemma exact_order : ArithOrder exact.
Proof.
  refine (Build_ArithOrder exact (fun _ => True) (fun _ => True) (fun _ => True)
            (fun _ => True) _ _ _ _ _ _ _ _ _ _ _ _ _ _ _ _);
    try done.
  - intros a _. apply exact_flt_irrefl.
  - intros a b c _ _ _. apply exact_flt_trans.
  - intros a b c _ _ _. apply exact_flt_incomparable.
  - intros a b _ _. simpl. by rewrite negb_involutive.
  - intros a b _ _. apply exact_flt_fneg.
  - intros a b c _ _ _. apply exact_fadd_mono.
  - intros a b c _ _ _. apply exact_fsub_mono.
Defined.

(** ** Sorting *)

Section Sorting.

Context {A : Arith}.

#[local] Open Scope score_scope.

Lemma insert_by_perm {X : Type} (key : X → num) (x : X) (l : list X) :
  insert_by key x l ≡ₚ x :: l.
Proof.
  induction l as [|y l IH]; simpl; [done|].
  destruct (key y <? key x); [|done].
  rewrite IH. apply Permutation_swap.
Qed.

Lemma sorted_perm {X : Type} (key : X → num) (l : list X) :
  sorted key l ≡ₚ l.
Proof.
  induction l as [|x l IH]; simpl; [done|].
  by rewrite insert_by_perm, IH.
Qed.

Lemma sorted_length {X : Type} (key : X → num) (l : list X) :
  length (sorted key l) = length l.
Proof. by rewrite sorted_perm. Qed.

Lemma sorted_elem {X : Type} (key : X → num) (l : list X) (x : X) :
  x ∈ sorted key l ↔ x ∈ l.
Proof. by rewrite sorted_perm. Qed.

Lemma StronglySorted_take {X : Type} (R : X → X → Prop) (k : nat) (l : list X) :
  StronglySorted R l → StronglySorted R (take k l).
Proof.
  intros H. revert k.
  induction H as [|x l Hl IH Hx]; intros [|k]; simpl; try constructor; auto.
  eapply Forall_forall. intros y Hy.
  rewrite Forall_forall in Hx. apply Hx.
  eapply subseteq_take. apply Hy.
Qed.

Lemma StronglySorted_weaken {X : Type} (R S : X → X → Prop) (l : list X) :
  (∀ a b, R a b → S a b) → StronglySorted R l → StronglySorted S l.
Proof.
  intros HRS. induction 1 as [|x l Hl IH Hx]; constructor; [done|].
  eapply Forall_impl; [apply Hx|]. auto.
Qed.

Lemma StronglySorted_weaken_on {X : Type} (R S : X → X → Prop) (l : list X) :
  (∀ a b, a ∈ l → b ∈ l → R a b → S a b) → StronglySorted R l → StronglySorted S l.
Proof.
  intros HRS Hs. induction Hs as [|x l Hl IH Hx]; constructor.
  - apply IH. intros a b Ha Hb. apply HRS; by right.
  - apply Forall_forall. intros y Hy. rewrite Forall_forall in Hx.
    apply HRS; [left|by right|auto].
Qed.

Context {O : ArithOrder A}.

Lemma flt_asym (a b : num) :
  number a → number b → (a <? b) = true → (b <? a) = false.
Proof.
  intros Ha Hb H. destruct (b <? a) eqn:E; [|done].
  pose proof (flt_trans _ _ _ Ha Hb Ha H E) as Haa.
  by rewrite flt_irrefl in Haa.
Qed.

Lemma fge_refl (a : num) : number a → (a >=? a) = true.
Proof. intros Ha. by rewrite fge_flt, flt_irrefl. Qed.

Lemma fge_trans (a b c : num) :
  number a → number b → number c →
  (a >=? b) = true → (b >=? c) = true → (a >=? c) = true.
Proof.
  intros Ha Hb Hc. rewrite !fge_flt, !negb_true_iff by done.
  by apply flt_incomparable.
Qed.

Lemma fge_total (a b : num) :
  number a → number b → (a >=? b) = true ∨ (b >=? a) = true.
Proof.
  intros Ha Hb. rewrite !fge_flt by done. destruct (a <? b) eqn:E; [|by left].
  right. by rewrite (flt_asym _ _ Ha Hb E).
Qed.

(** The sort orders by key: nothing is followed by an element with a smaller
    key. *)
Lemma insert_by_sorted {X : Type} (key : X → num) (x : X) (l : list X) :
  number (key x) → Forall (fun y => number (key y)) l →
  StronglySorted (fun a b => (key b <? key a) = false) l →
  StronglySorted (fun a b => (key b <? key a) = false) (insert_by key x l).
Proof.
  intros Hx Hl Hs. induction Hs as [|y l Hs IH Hy]; simpl.
  - repeat constructor.
  - apply Forall_cons in Hl as [Hy' Hl].
    destruct (key y <? key x) eqn:E.
    + constructor; [by apply IH|].
      rewrite insert_by_perm. constructor; [by apply flt_asym|done].
    + constructor; [by constructor|].
      constructor; [done|].
      apply Forall_forall. intros z Hz. rewrite Forall_forall in Hy, Hl.
      apply (flt_incomparable _ (key y)); auto.
Qed.

Lemma sorted_sorted {X : Type} (key : X → num) (l : list X) :
  Forall (fun y => number (key y)) l →
  StronglySorted (fun a b => (key b <? key a) = false) (sorted key l).
Proof.
  induction l as [|x l IH]; simpl; [constructor|].
  intros [Hx Hl]%Forall_cons. apply insert_by_sorted; [done| |by apply IH].
  apply Forall_forall. intros y Hy. apply sorted_elem in Hy.
  rewrite Forall_forall in Hl. auto.
Qed.

(** Sorting on the negated score puts the numbers in descending order. *)
Lemma sorted_by_score {X : Type} (sc : X → num) (l : list X) :
  Forall (fun y => number (sc y)) l →
  StronglySorted (fun a b => (sc a >=? sc b) = true) (sorted (fun x => - sc x) l).
Proof.
  intros Hl.
  eapply StronglySorted_weaken_on; [|apply sorted_sorted].
  - intros a b Ha%sorted_elem Hb%sorted_elem. rewrite Forall_forall in Hl.
    rewrite flt_fneg, fge_flt, negb_true_iff by auto. done.
  - eapply Forall_impl; [apply Hl|]. intros y. apply number_fneg.
Qed.

Lemma sorted_descending (rs : list result) :
  Forall (fun r => number (result_score r)) rs →
  descending (sorted (fun x => - result_score x) rs).
Proof. apply (sorted_by_score result_score). Qed.

End Sorting.

(** ** The Morse trie *)

Lemma MORSE_TRIE_built : build_morse_trie MORSE = Ok MORSE_TRIE.
Proof. vm_compute. reflexivity. Qed.

Lemma MORSE_TRIE_wf : wf_node MORSE_TRIE = true.
Proof. vm_compute. reflexivity. Qed.

Lemma wf_node_child (items : list (ascii * pyobj)) (k : ascii) (child : pyobj) :
  wf_node (PyDict items) = true → assoc k items = Some child →
  if is_edge k then wf_node child = true else ∃ s, child = PyStr s.
Proof.
  intros Hwf Hk. apply assoc_Some_elem in Hk.
  simpl in Hwf. pose proof (forallb_elem _ _ _ Hwf Hk) as H. simpl in H.
  destruct (is_edge k); [done|].
  destruct child; [done|eauto].
Qed.

(** Every terminal node a path leads to is listed by [terminals]. *)
Lemma follow_terminals (path : list ascii) (node : pyobj)
    (items : list (ascii * pyobj)) (l : pyobj) :
  wf_node node = true →
  follow path node = Some (PyDict items) →
  assoc "$"%char items = Some l →
  (path, l) ∈ terminals node.
Proof.
  revert node. induction path as [|k path IH]; intros node Hwf Hf Hl.
  - simpl in Hf. injection Hf as ->. simpl. rewrite Hl. left.
  - destruct node as [its|]; [|done]. simpl in Hf.
    destruct (assoc k its) as [child|] eqn:Hk; [|done]. simpl in Hf.
    pose proof (wf_node_child _ _ _ Hwf Hk) as Hc.
    destruct (is_edge k) eqn:Ek.
    + simpl. apply elem_of_app. right.
      apply list_elem_of_In, in_flat_map.
      exists (k, child). split; [by apply list_elem_of_In, assoc_Some_elem|].
      simpl. rewrite Ek. apply list_elem_of_In.
      apply (list_elem_of_fmap_2 (fun pl => (k :: pl.1, pl.2)) _ (path, l)).
      by apply IH.
    + destruct Hc as [s ->]. by destruct path.
Qed.

Lemma terminals_are_codes : forallb is_morse_code (terminals MORSE_TRIE) = true.
Proof. vm_compute. reflexivity. Qed.

Lemma codes_reach_letters : forallb reaches_letter MORSE = true.
Proof. vm_compute. reflexivity. Qed.

Lemma codes_are_symbols : forallb (fun e => only_symbols (fst e)) MORSE = true.
Proof. vm_compute. reflexivity. Qed.

(** C7. The trie built from the 26 entries of [MORSE] has exactly 26 terminal
    nodes, at 26 different paths; following the characters of a letter's code
    from the root, all of them dots and dashes, leads to a node that carries
    that letter; and a node of the trie that carries the sentinel key is at the
    code of an entry of [MORSE] and carries its letter. *)
Theorem morse_trie_terminals :
  build_morse_trie MORSE = Ok MORSE_TRIE ∧
  length MORSE = 26 ∧
  length (terminals MORSE_TRIE) = 26 ∧
  NoDup (fst <$> terminals MORSE_TRIE) ∧
  (∀ code letter, (code, letter) ∈ MORSE →
     symbol_sequence code ∧
     ∃ node, follow (list_ascii_of_string code) MORSE_TRIE = Some node ∧
             is_terminal node = true ∧ terminal_letter node = Some letter) ∧
  (∀ path items, follow path MORSE_TRIE = Some (PyDict items) →
     is_terminal (PyDict items) = true →
     ∃ letter, (string_of_list_ascii path, letter) ∈ MORSE ∧
               terminal_letter (PyDict items) = Some letter).
Proof.
  split; [apply MORSE_TRIE_built|].
  split; [reflexivity|].
  split; [reflexivity|].
  split; [apply (bool_decide_unpack _); by vm_compute|].
  split.
  - intros code letter Hin. split.
    + pose proof (forallb_elem _ _ _ codes_are_symbols Hin) as Hs.
      apply Hs.
    + pose proof (forallb_elem _ _ _ codes_reach_letters Hin) as H.
      apply bool_decide_eq_true in H. simpl in H.
      destruct (follow (list_ascii_of_string code) MORSE_TRIE) as [node|]; [|done].
      simpl in H. exists node. split; [done|]. split; [|done].
      destruct node as [items|]; [|done]. simpl in *.
      destruct (assoc "$"%char items); [|done].
      apply bool_decide_eq_true. eauto.
  - intros path items Hf Ht. simpl in Ht. apply bool_decide_eq_true in Ht.
    destruct Ht as [l Hl].
    pose proof (follow_terminals _ _ _ _ MORSE_TRIE_wf Hf Hl) as Hin.
    pose proof (forallb_elem _ _ _ terminals_are_codes Hin) as Hc.
    unfold is_morse_code in Hc. simpl in Hc.
    destruct l as [|letter]; [done|].
    apply bool_decide_eq_true in Hc.
    exists letter. split; [done|]. simpl. by rewrite Hl.
Qed.

(** ** The letter-extension walk *)

Section Walk.

Context {A : Arith} (cfg : config).

Lemma walked_weaken sentence i k s : walked sentence (S i) k s → walked sentence i (S k) s.
Proof. unfold walked. intros [? ?]. split; [lia|done]. Qed.

(** What a walk does: it appends states further on in the stream, with the
    sentence it was given; it raises only off a well-formed trie or on a
    sentinel character; it always ends. *)
Lemma trie_walk_outcome (cur_word : string) (sentence : list string) (score : num)
    (rest : list ascii) :
  ∀ (node : pyobj) (i : nat) (next_states : list state),
    match trie_walk cfg cur_word sentence score node i rest next_states with
    | Ok next_states' =>
        ∃ new, next_states' = next_states ++ new ∧
               Forall (walked sentence i (length rest)) new
    | Raise _ => ¬ (wf_node node = true ∧ forallb is_edge rest = true)
    | NoFuel => False
    end.
Proof.
  induction rest as [|b rest IH]; intros node i next_states; simpl.
  { exists []. by rewrite app_nil_r. }
  destruct (py_contains b node) eqn:Hb; simpl;
    [|exists []; by rewrite app_nil_r].
  destruct node as [items|s]; simpl; [|intros [? _]; done].
  simpl in Hb. apply bool_decide_eq_true in Hb. destruct Hb as [child Hchild].
  rewrite Hchild. simpl.
  assert (wf_node (PyDict items) = true ∧ forallb is_edge (b :: rest) = true →
          wf_node child = true ∧ forallb is_edge rest = true) as Hstep.
  { intros [Hwf Hedges]. simpl in Hedges. apply andb_true_iff in Hedges as [Hb Hr].
    pose proof (wf_node_child _ _ _ Hwf Hchild) as Hc. rewrite Hb in Hc. done. }
  destruct (py_contains "$" child && (String.length cur_word <? MAX_WORD_LEN cfg)%nat)
    eqn:Hemit.
  - apply andb_true_iff in Hemit as [Hd _].
    destruct child as [citems|cs]; simpl.
    2:{ intros H. apply Hstep in H as [? _]. done. }
    simpl in Hd. apply bool_decide_eq_true in Hd. destruct Hd as [l Hl].
    rewrite Hl. simpl.
    destruct l as [litems|letter]; simpl.
    { intros H. apply Hstep in H as [Hwf _].
      pose proof (wf_node_child _ _ _ Hwf Hl) as Hc. simpl in Hc.
      destruct Hc as [? ?]. done. }
    specialize (IH (PyDict citems) (S i)
                  (next_states ++ [(S i, cur_word +:+ letter, sentence,
                                    (score + score_letter letter)%score)])).
    destruct (trie_walk _ _ _ _ _ _ _ _) as [ns'|e|]; [|tauto|done].
    destruct IH as (new & -> & Hnew).
    eexists (_ :: new). rewrite <- app_assoc. split; [done|].
    constructor.
    + unfold walked. simpl. split; [lia|done].
    + eapply Forall_impl; [apply Hnew|]. intros s. apply walked_weaken.
  - specialize (IH child (S i) next_states).
    destruct (trie_walk _ _ _ _ _ _ _ _) as [ns'|e|]; [|tauto|done].
    destruct IH as (new & -> & Hnew).
    exists new. split; [done|].
    eapply Forall_impl; [apply Hnew|]. intros s. apply walked_weaken.
Qed.

End Walk.

(** ** One state, one generation, the whole search *)

Section Search.

Context {A : Arith} (cfg : config) (dictionary : gset string) (bits : list ascii).

#[local] Open Scope score_scope.

Let n : nat := length bits.

Lemma forallb_drop {X : Type} (f : X → bool) (k : nat) (l : list X) :
  forallb f l = true → forallb f (drop k l) = true.
Proof.
  revert k. induction l as [|x l IH]; intros [|k] H; simpl in *; try done.
  apply andb_true_iff in H as [_ H]. auto.
Qed.

Lemma commit_word (w : string) :
  nonempty w && bool_decide (w ∈ dictionary) = true → committable dictionary w.
Proof.
  intros H. apply andb_true_iff in H as [Hne Hin].
  apply bool_decide_eq_true in Hin. split; [|done].
  intros ->. done.
Qed.

Lemma walked_successor (pos : nat) (cur_word : string) (sentence : list string)
    (score : num) (s' : state) :
  walked sentence pos (length (drop pos bits)) s' →
  successor dictionary n (pos, cur_word, sentence, score) s'.
Proof.
  destruct s' as [[[pos' w'] sentence'] score']. unfold walked, successor. simpl.
  rewrite length_drop. fold n. intros [Hpos ->]. split; [|done].
  destruct (nonempty w'), (nonempty cur_word); lia.
Qed.

Lemma process_state_outcome (s : state) (visited : gmap (nat * string) num)
    (results : list result) (next_states : list state) :
  match process_state cfg dictionary bits s (visited, results, next_states) with
  | Ok (_, results', next_states') =>
      ∃ new_results new_states,
        results' = results ++ new_results ∧
        next_states' = next_states ++ new_states ∧
        Forall (result_from dictionary s) new_results ∧
        Forall (successor dictionary n s) new_states
  | Raise _ => forallb is_edge bits ≠ true
  | NoFuel => False
  end.
Proof.
  destruct s as [[[pos cur_word] sentence] score]. unfold process_state.
  destruct (dominated _ _ _).
  { exists [], []. by rewrite !app_nil_r. }
  fold n. destruct (pos =? n)%nat eqn:Hpos.
  - destruct (nonempty cur_word && bool_decide (cur_word ∈ dictionary)) eqn:Hw.
    + eexists [_], []. rewrite app_nil_r. repeat split; [|constructor].
      constructor; [|constructor]. intros Hs. simpl in *.
      exists (sentence ++ [cur_word]). split; [by destruct sentence|].
      split; [|done]. apply Forall_app. split; [done|].
      constructor; [by apply commit_word|constructor].
    + exists [], []. by rewrite !app_nil_r.
  - pose proof (trie_walk_outcome cfg cur_word sentence score (drop pos bits)
                  MORSE_TRIE pos next_states) as Hwalk.
    destruct (trie_walk _ _ _ _ _ _ _ _) as [ns'|e|]; simpl; [| |done].
    2:{ intros Hedges. apply Hwalk. split; [apply MORSE_TRIE_wf|].
        by apply forallb_drop. }
    destruct Hwalk as (new & -> & Hnew).
    assert (Forall (successor dictionary n (pos, cur_word, sentence, score)) new) as Hsucc.
    { eapply Forall_impl; [apply Hnew|]. intros s'. apply walked_successor. }
    destruct (nonempty cur_word && bool_decide (cur_word ∈ dictionary)) eqn:Hw.
    + exists [], (new ++ [(pos, "", sentence ++ [cur_word],
                            score + score_word cur_word dictionary - flit 0.2)]).
      rewrite app_nil_r, app_assoc. repeat split; [constructor|].
      apply Forall_app. split; [done|].
      constructor; [|constructor]. split; simpl.
      * apply andb_true_iff in Hw as [-> _]. lia.
      * intros Hs. apply Forall_app. split; [done|].
        constructor; [by apply commit_word|constructor].
    + exists [], new. rewrite app_nil_r. repeat split; [constructor|done].
Qed.

Lemma generation_outcome (k : nat) (states : list state) :
  ∀ (visited : gmap (nat * string) num) (results : list result)
    (next_states : list state),
    Forall (state_inv dictionary n (S k)) states →
    match for_each (process_state cfg dictionary bits) states
                   (visited, results, next_states) with
    | Ok (_, results', next_states') =>
        ∃ new_results new_states,
          results' = results ++ new_results ∧
          next_states' = next_states ++ new_states ∧
          Forall (fun r => sentence_of dictionary (fst r)) new_results ∧
          Forall (state_inv dictionary n k) new_states
    | Raise _ => forallb is_edge bits ≠ true
    | NoFuel => False
    end.
Proof.
  induction states as [|s states IH]; intros visited results next_states Hinv; simpl.
  { exists [], []. by rewrite !app_nil_r. }
  apply Forall_cons in Hinv as [[Hrank Hsent] Hinv].
  pose proof (process_state_outcome s visited results next_states) as Hs.
  destruct (process_state _ _ _ _ _) as [[[v1 r1] n1]|e|]; simpl; [|done|done].
  destruct Hs as (nr & ns & -> & -> & Hnr & Hns).
  specialize (IH v1 (results ++ nr) (next_states ++ ns) Hinv).
  destruct (for_each _ _ _) as [[[v2 r2] n2]|e|]; [|done|done].
  destruct IH as (nr' & ns' & -> & -> & Hnr' & Hns').
  exists (nr ++ nr'), (ns ++ ns'). rewrite !app_assoc.
  repeat split; apply Forall_app; split; try done.
  - eapply Forall_impl; [apply Hnr|]. intros r Hr. by apply Hr.
  - eapply Forall_impl; [apply Hns|]. intros s' [Hlt Hs']. split; [lia|auto].
Qed.

Lemma prune_subseteq (next_states : list state) :
  prune cfg next_states ⊆ next_states.
Proof.
  unfold prune. intros s Hs. apply subseteq_take in Hs.
  by apply sorted_elem in Hs.
Qed.

Lemma while_states_outcome (fuel : nat) :
  ∀ (states : list state) (visited : gmap (nat * string) num)
    (results : list result) (peak : nat),
    Forall (state_inv dictionary n fuel) states →
    match while_states cfg dictionary bits fuel states visited results peak with
    | Ok (results', peak') =>
        (peak ≤ peak')%nat ∧
        ∃ new_results,
          results' = results ++ new_results ∧
          Forall (fun r => sentence_of dictionary (fst r)) new_results
    | Raise _ => forallb is_edge bits ≠ true
    | NoFuel => False
    end.
Proof.
  induction fuel as [|fuel IH]; intros states visited results peak Hinv.
  - destruct states as [|s states]; simpl.
    + split; [done|]. exists []. by rewrite app_nil_r.
    + apply Forall_cons in Hinv as [[Hrank _] _]. lia.
  - destruct states as [|s states]; simpl.
    { split; [done|]. exists []. by rewrite app_nil_r. }
    pose proof (generation_outcome fuel (s :: states) visited results [] Hinv) as Hg.
    simpl in Hg.
    destruct (process_state _ _ _ _ _ ≫= _) as [[[v1 r1] n1]|e|]; simpl;
      [|done|done].
    destruct Hg as (nr & ns & -> & -> & Hnr & Hns). simpl.
    assert (Forall (state_inv dictionary n fuel) (prune cfg ns)) as Hp.
    { apply Forall_forall. intros s' Hs'. apply prune_subseteq in Hs'.
      rewrite Forall_forall in Hns. auto. }
    specialize (IH (prune cfg ns) v1 (results ++ nr)
                  (Nat.max peak (length ns)) Hp).
    destruct (while_states _ _ _ _ _ _ _ _) as [[r2 p2]|e|]; [|done|done].
    destruct IH as (Hpeak & nr' & -> & Hnr').
    split; [lia|]. exists (nr ++ nr'). rewrite app_assoc. split; [done|].
    by apply Forall_app.
Qed.

(** Fuel beyond what a run uses changes nothing. *)
Lemma while_states_more_fuel (extra fuel : nat) :
  ∀ (states : list state) (visited : gmap (nat * string) num)
    (results : list result) (peak : nat),
    while_states cfg dictionary bits fuel states visited results peak ≠ NoFuel →
    while_states cfg dictionary bits (fuel + extra) states visited results peak
    = while_states cfg dictionary bits fuel states visited results peak.
Proof.
  induction fuel as [|fuel IH]; intros states visited results peak Hrun.
  - destruct states; [|done]. by destruct extra.
  - destruct states as [|s states]; [done|].
    simpl in *.
    destruct (process_state _ _ _ _ _ ≫= _) as [[[v1 r1] n1]|e|]; simpl in *;
      [|done|done].
    by apply IH.
Qed.

Lemma initial_state_inv :
  Forall (state_inv dictionary n (generations bits)) [(0, "", [], flit 0.0)].
Proof.
  constructor; [|constructor]. split; [|constructor].
  unfold generations. simpl. fold n. lia.
Qed.

Lemma search_outcome (extra : nat) :
  match search cfg dictionary bits (generations bits) with
  | Ok (results, _) => Forall (fun r => sentence_of dictionary (fst r)) results
  | Raise _ => forallb is_edge bits ≠ true
  | NoFuel => False
  end ∧
  search cfg dictionary bits (generations bits + extra)
  = search cfg dictionary bits (generations bits).
Proof.
  unfold search.
  pose proof (while_states_outcome (generations bits) _ ∅ [] 0 initial_state_inv)
    as Hrun.
  split.
  - destruct (while_states _ _ _ _ _ _ _ _) as [[rs p]|e|]; [|done|done].
    by destruct Hrun as (_ & new_results & -> & Hnew).
  - apply while_states_more_fuel. intros Hno. by rewrite Hno in Hrun.
Qed.

End Search.

(** ** The decoder *)

Section Decode.

Context {A : Arith}.

#[local] Open Scope score_scope.

Lemma length_list_ascii_of_string (s : string) :
  length (list_ascii_of_string s) = String.length s.
Proof. induction s as [|c s IH]; simpl; [done|]. by rewrite IH. Qed.

Lemma symbol_sequence_sentinel_free (bits : string) :
  symbol_sequence bits → sentinel_free bits.
Proof.
  unfold symbol_sequence, only_symbols, sentinel_free.
  induction (list_ascii_of_string bits) as [|c l IH]; simpl; [done|].
  intros H. apply andb_true_iff in H as [Hc Hl].
  rewrite IH by done. rewrite andb_true_r.
  apply orb_true_iff in Hc as [Hc|Hc]; apply Ascii.eqb_eq in Hc; by subst.
Qed.

Lemma brute_force_decode_outcome (cfg : config) (bits : string)
    (dictionary : gset string) :
  match brute_force_decode cfg bits dictionary with
  | Ok ranked =>
      length ranked ≤ MAX_RESULTS cfg ∧
      Forall (fun r => sentence_of dictionary (fst r)) ranked ∧
      ∃ results, ranked = take (MAX_RESULTS cfg)
                               (sorted (fun x => - result_score x) results)
  | Raise _ => ¬ sentinel_free bits
  | NoFuel => False
  end.
Proof.
  unfold brute_force_decode, brute_force_decode_fuel.
  destruct (search_outcome cfg dictionary (list_ascii_of_string bits) 0) as [Hrun _].
  destruct (search _ _ _ _) as [[results peak]|e|]; simpl; [|done|done].
  split; [rewrite length_take; lia|].
  split; [|eauto].
  apply Forall_forall. intros r Hr. apply subseteq_take, sorted_elem in Hr.
  rewrite Forall_forall in Hrun. auto.
Qed.

Lemma join_nonempty (words : list string) :
  words ≠ [] → Forall (fun w => w ≠ "") words → join words ≠ "".
Proof.
  destruct words as [|w words]; [done|]. intros _ Hw.
  apply Forall_cons in Hw as [Hw _]. unfold join. simpl.
  destruct words; [done|]. by destruct w.
Qed.

(** C9. The generational loop ends: a run that is given [2 * n + 1]
    generations for [n] symbols never runs out of them, whatever characters the
    stream holds, and more generations change nothing; on a stream without the
    sentinel character, so on every symbol sequence, the decoder returns a
    list.  (Each successor of a state is nearer to the end: see
    [process_state_outcome].) *)
Theorem brute_force_decode_terminates (cfg : config) (bits : string)
    (dictionary : gset string) (extra : nat) :
  brute_force_decode cfg bits dictionary ≠ NoFuel ∧
  brute_force_decode_fuel cfg dictionary (list_ascii_of_string bits)
    (generations (list_ascii_of_string bits) + extra)
  = brute_force_decode cfg bits dictionary ∧
  (sentinel_free bits → ∃ ranked, brute_force_decode cfg bits dictionary = Ok ranked) ∧
  (symbol_sequence bits → ∃ ranked, brute_force_decode cfg bits dictionary = Ok ranked) ∧
  (∀ s visited results next_states visited' results' next_states',
     process_state cfg dictionary (list_ascii_of_string bits) s
                   (visited, results, next_states)
     = Ok (visited', results', next_states') →
     ∃ new_states,
       next_states' = next_states ++ new_states ∧
       Forall (fun s' => state_rank (String.length bits) s'
                         < state_rank (String.length bits) s) new_states).
Proof.
  rewrite <- (length_list_ascii_of_string bits).
  pose proof (brute_force_decode_outcome cfg bits dictionary) as Hout.
  assert (sentinel_free bits →
          ∃ ranked, brute_force_decode cfg bits dictionary = Ok ranked) as Hfree.
  { intros Hfree. destruct (brute_force_decode _ _ _) as [ranked|e|]; [eauto| |done].
    by destruct Hout. }
  split; [intros Hno; by rewrite Hno in Hout|].
  split.
  - unfold brute_force_decode, brute_force_decode_fuel.
    by destruct (search_outcome cfg dictionary (list_ascii_of_string bits) extra)
      as [_ ->].
  - split; [done|]. split; [intros Hs; by apply Hfree, symbol_sequence_sentinel_free|].
    intros s visited results next_states visited' results' next_states' Hstep.
    pose proof (process_state_outcome cfg dictionary (list_ascii_of_string bits)
                  s visited results next_states) as Hs.
    rewrite Hstep in Hs. destruct Hs as (_ & new_states & _ & -> & _ & Hsucc).
    exists new_states. split; [done|].
    eapply Forall_impl; [apply Hsucc|]. by intros s' [? _].
Qed.

(** C10. On a stream without the sentinel character, so on every symbol
    sequence, the decoder returns a list, every text of which is the
    space-joined sequence of one or more words, each of them non-empty and in
    the dictionary; no text is empty; and with an empty dictionary the list is
    empty. *)
Theorem brute_force_decode_sentences (cfg : config) (bits : string)
    (dictionary : gset string) :
  sentinel_free bits →
  ∃ ranked,
    brute_force_decode cfg bits dictionary = Ok ranked ∧
    Forall (fun r => sentence_of dictionary (fst r)) ranked ∧
    Forall (fun r => fst r ≠ "") ranked ∧
    (dictionary = ∅ → ranked = []).
Proof.
  intros Hfree.
  pose proof (brute_force_decode_outcome cfg bits dictionary) as Hout.
  destruct (brute_force_decode _ _ _) as [ranked|e|]; [| |done].
  2:{ by destruct Hout. }
  destruct Hout as (_ & Hsent & _).
  exists ranked. split; [done|]. split; [done|]. split.
  - eapply Forall_impl; [apply Hsent|]. intros r (words & Hne & Hw & ->).
    apply join_nonempty; [done|].
    eapply Forall_impl; [apply Hw|]. by intros w [? _].
  - intros ->. destruct ranked as [|r ranked]; [done|].
    apply Forall_cons in Hsent as [(words & Hne & Hw & _) _].
    destruct words as [|w words]; [done|].
    apply Forall_cons in Hw as [[_ Hin] _]. set_solver.
Qed.

End Decode.

(** ** Polarity *)





(** ** Finalisation *)

(** C1, as the program has it.  A state at the end of the sequence that the
    memo table dominates is dropped; otherwise it is recorded in the memo table
    and yields a result exactly when its partial word is non-empty and in the
    dictionary, the result being [(join(sentence + partial_word), score +
    score_word(partial_word))], which is what the specification asks for a
    non-empty word; with an empty partial word nothing is added.  In no case
    does the state get a successor. *)
Theorem process_state_at_end {A : Arith} (cfg : config) (dictionary : gset string)
    (bits : list ascii) (cur_word : string) (sentence : list string) (score : num)
    (visited : gmap (nat * string) num) (results : list result)
    (next_states : list state) :
  let s : state := (length bits, cur_word, sentence, score) in
  let results' :=
    if nonempty cur_word && bool_decide (cur_word ∈ dictionary)
    then results ++ [(join (sentence ++ [cur_word]),
                      fadd score (score_word cur_word dictionary))]
    else results in
  process_state cfg dictionary bits s (visited, results, next_states)
  = (if dominated visited (length bits, cur_word) score
     then Ok (visited, results, next_states)
     else Ok (<[(length bits, cur_word) := score]> visited, results', next_states)) ∧
  (cur_word ≠ "" → results' = finalize_as_specified dictionary s results) ∧
  (cur_word = "" → results' = results).
Proof.
  simpl. split; [|split].
  - destruct (dominated _ _ _); [done|].
    rewrite Nat.eqb_refl.
    by destruct (nonempty cur_word && bool_decide (cur_word ∈ dictionary)).
  - intros Hne. assert (nonempty cur_word = true) as ->.
    { unfold nonempty. apply negb_true_iff, String.eqb_neq. done. }
    simpl. by destruct (bool_decide (cur_word ∈ dictionary)).
  - intros ->. done.
Qed.

(** C1, as the claim has it, fails on the empty stream: the initial state is at
    the end of the sequence with an empty partial word; the specification would
    have it yield the result [("", 0.0)], the program yields none, and the
    decoder returns the empty list. *)
Lemma empty_partial_word_not_finalized :
  let s : state := (0, "", [], flit 0.0) in
  (∃ visited results,
     process_state (A:=binary64) source_config {["E"]} [] s (∅, [], [])
     = Ok (visited, results, []) ∧
     results = [] ∧
     results ≠ finalize_as_specified (A:=binary64) {["E"]} s []) ∧
  finalize_as_specified (A:=binary64) {["E"]} s [] = [("", flit 0.0)] ∧
  brute_force_decode (A:=binary64) source_config "" {["E"]} = Ok [].
Proof.
  simpl. split; [|split; reflexivity].
  eexists _, _. split; [reflexivity|]. split; [reflexivity|discriminate].
Qed.

(** ** The scenario with the dictionary [{"HI"}] *)

(** C2. With binary64 scores, as in CPython: the normal-polarity decode of
    ["111111"] returns the one entry [("HI", s)], where [s] is
    [score_letter('H') + score_letter('I') + score_word("HI", dictionary)],
    that is [0.7 + 0.75 + (0.7 + 0.75 + 5.0)]; the inverted-polarity decode
    returns the empty list.  With exact scores the same holds. *)
Theorem hi_scenario :
  let dictionary : gset string := {["HI"]} in
  decode_with_polarity (A:=binary64) source_config "111111" dictionary false
  = Ok [("HI", fadd (fadd (score_letter "H") (score_letter "I"))
                    (score_word "HI" dictionary))] ∧
  fadd (Arith:=binary64) (fadd (score_letter "H") (score_letter "I"))
       (score_word "HI" dictionary)
  = (0.7 + 0.75 + (0.7 + 0.75 + 5.0))%float ∧
  decode_with_polarity (A:=binary64) source_config "111111" dictionary true = Ok [] ∧
  (∃ s : Q,
     decode_with_polarity (A:=exact) source_config "111111" dictionary false
     = Ok [("HI", s)] ∧
     (s == fadd (Arith:=exact) (fadd (score_letter "H") (score_letter "I"))
                (score_word "HI" dictionary))%Q ∧
     (s == 0.7 + 0.75 + (0.7 + 0.75 + 5.0))%Q) ∧
  decode_with_polarity (A:=exact) source_config "111111" dictionary true = Ok [].
Proof.
  split; [vm_compute; reflexivity|].
  split; [vm_compute; reflexivity|].
  split; [vm_compute; reflexivity|].
  split; [|vm_compute; reflexivity].
  eexists. split; [vm_compute; reflexivity|]. split; vm_compute; reflexivity.
Qed.

(** ** Characters that are not bits *)

(** C8 fails on the bitstream ["1$E"] read with normal polarity (and on
    ["0$E"] read with inverted polarity), whatever the dictionary and the
    configuration: the walk takes the sentinel entry of the node of [E] for an
    edge, steps onto the str ["E"], finds the next character in it and
    subscripts it. *)
Theorem sentinel_character_raises {A : Arith} (cfg : config)
    (dictionary : gset string) :
  decode_with_polarity cfg "1$E" dictionary false = Raise TypeError ∧
  decode_with_polarity cfg "0$E" dictionary true = Raise TypeError.
Proof.
  unfold decode_with_polarity, brute_force_decode, brute_force_decode_fuel, search.
  simpl. unfold dominated. rewrite lookup_empty. simpl.
  by destruct (0 <? MAX_WORD_LEN cfg).
Qed.

(** ** Beam width *)

Section Beam.

Context {A : Arith} (cfg : config) (dictionary : gset string) (bits : list ascii).

(** The peak only grows. *)
Lemma while_states_peak (c : config) (fuel : nat) :
  ∀ (states : list state) (visited : gmap (nat * string) num)
    (results results' : list result) (peak peak' : nat),
    while_states c dictionary bits fuel states visited results peak
    = Ok (results', peak') →
    peak ≤ peak'.
Proof.
  induction fuel as [|fuel IH]; intros states visited results results' peak peak';
    (destruct states as [|s states]; simpl; [intros [= _ <-]; done|]); [done|].
  destruct (process_state _ _ _ _ _ ≫= _) as [[[v1 r1] n1]|e|]; simpl; [|done|done].
  intros H. apply IH in H. lia.
Qed.

End Beam.

(** ** Language scoring *)

(** The decimal literals of the source, read as binary64 numbers. *)
Lemma binary64_literals :
  flit (Arith:=binary64) <$>
    [0.0; 0.2; 0.25; 0.65; 0.7; 0.75; 0.8; 0.85; 0.9; 1.0; 2.0; 5.0]%Q
  = [0.0; 0.2; 0.25; 0.65; 0.7; 0.75; 0.8; 0.85; 0.9; 1.0; 2.0; 5.0]%float.
Proof. vm_compute. reflexivity. Qed.

Lemma fold_left_scores {A : Arith} (l : list string) (z : num) :
  fold_left (fun score c => fadd score (score_letter c)) l z
  = fold_left fadd (score_letter <$> l) z.
Proof. revert z. induction l as [|c l IH]; intros z; simpl; [done|]. apply IH. Qed.

(** C6. [score_letter] gives each of the eleven tabulated letters its weight
    and every other character [0.25]; [score_word] is the sum of the letter
    scores of the word, taken from the left starting at [0.0], plus [5.0]
    exactly when the word is in the dictionary, minus [2.0] exactly when the
    word is longer than twelve characters. *)
Theorem score_word_spec {A : Arith} :
  length tabulated = 11 ∧
  (∀ c w, (c, w) ∈ tabulated → score_letter c = flit w) ∧
  (∀ c, c ∉ fst <$> tabulated → score_letter c = flit 0.25) ∧
  (∀ word dictionary,
     score_word word dictionary = score_word_as_specified word dictionary).
Proof.
  split; [done|]. split; [|split].
  - intros c w H. unfold tabulated in H.
    repeat (apply elem_of_cons in H as [[= -> ->]|H]; [reflexivity|]).
    by apply elem_of_nil in H.
  - intros c H. unfold tabulated in H. simpl in H.
    repeat (apply not_elem_of_cons in H as [?%not_eq_sym%String.eqb_neq H]).
    unfold score_letter, LETTER_FREQ. cbn [dict_get].
    repeat match goal with
           | E : String.eqb _ _ = false |- _ => rewrite E; clear E
           end.
    done.
  - intros word dictionary. unfold score_word, score_word_as_specified, fsum.
    rewrite fold_left_scores.
    destruct (12 <? String.length word) eqn:E.
    + apply Nat.ltb_lt in E. rewrite (bool_decide_eq_true_2 (12 < _)); done.
    + apply Nat.ltb_ge in E. rewrite (bool_decide_eq_false_2 (12 < _)); [done|lia].
Qed.

(** ** The de-duplication of [main] *)

Section Aggregate.

Context {A : Arith}.

#[local] Open Scope score_scope.

Lemma text_score_None (text : string) (best : list result) :
  text_score text best = None ↔ text ∉ fst <$> best.
Proof.
  induction best as [|[t s] best IH]; simpl.
  - split; [intros _; apply not_elem_of_nil|done].
  - rewrite not_elem_of_cons. destruct (String.eqb t text) eqn:E.
    + apply String.eqb_eq in E. split; [done|]. intros [? _]. by subst.
    + apply String.eqb_neq in E. rewrite IH. split; [|tauto].
      intros ?. split; [congruence|done].
Qed.

Lemma text_score_elem (text : string) (s : num) (best : list result) :
  NoDup (fst <$> best) → (text, s) ∈ best ↔ text_score text best = Some s.
Proof.
  induction best as [|[t s0] best IH]; simpl; intros Hnd.
  - split; [intros H; by apply elem_of_nil in H|done].
  - apply NoDup_cons in Hnd as [Hnot Hnd]. rewrite elem_of_cons.
    destruct (String.eqb t text) eqn:E.
    + apply String.eqb_eq in E. subst t. split.
      * intros [[= ->]|Hin]; [done|].
        exfalso. apply Hnot. by apply (list_elem_of_fmap_2 fst _ (text, s)).
      * intros [= ->]. by left.
    + apply String.eqb_neq in E. rewrite <- IH by done. split; [|tauto].
      intros [[= -> ->]|?]; done.
Qed.

Lemma keep_best_lookup (text : string) (score : num) (best : list result)
    (t : string) :
  text_score t (keep_best text score best)
  = if String.eqb text t
    then Some (match text_score text best with
               | Some s => if s <? score then score else s
               | None => score
               end)
    else text_score t best.
Proof.
  induction best as [|[t0 s0] best IH]; simpl.
  - done.
  - destruct (String.eqb t0 text) eqn:E0.
    + apply String.eqb_eq in E0. subst t0.
      destruct (s0 <? score); simpl; by destruct (String.eqb text t).
    + simpl. rewrite IH. destruct (String.eqb text t) eqn:E.
      * apply String.eqb_eq in E. subst t. by rewrite E0.
      * done.
Qed.

Lemma keep_best_keys (text : string) (score : num) (best : list result) :
  fst <$> keep_best text score best
  = match text_score text best with
    | Some _ => fst <$> best
    | None => (fst <$> best) ++ [text]
    end.
Proof.
  induction best as [|[t0 s0] best IH]; [done|].
  cbn [keep_best text_score].
  destruct (String.eqb t0 text) eqn:E0.
  - apply String.eqb_eq in E0. subst. by destruct (s0 <? score).
  - rewrite !fmap_cons, IH. by destruct (text_score text best).
Qed.

Lemma best_score_other (t text : string) (s score : num) (seen : list result) :
  t ≠ text → best_score t s seen → best_score t s (seen ++ [(text, score)]).
Proof.
  intros Hne [Hin Hmax]. split; [apply elem_of_app; by left|].
  intros s' Hs'. apply elem_of_app in Hs' as [Hs'|Hs']; [auto|].
  apply list_elem_of_singleton in Hs'. congruence.
Qed.

Context {O : ArithOrder A}.

Lemma keep_best_inv (text : string) (score : num) (seen best : list result) :
  Forall (fun r => number (result_score r)) seen → number score →
  best_inv seen best → best_inv (seen ++ [(text, score)]) (keep_best text score best).
Proof.
  intros Hseen Hscore [Hnd Hbest].
  assert (∀ t s, (t, s) ∈ seen → number s) as Hnum.
  { intros t s Hin. rewrite Forall_forall in Hseen. apply (Hseen _ Hin). }
  split.
  - rewrite keep_best_keys.
    destruct (text_score text best) eqn:E; [done|].
    apply NoDup_app. split; [done|]. split; [|apply NoDup_singleton].
    intros t Ht ->%list_elem_of_singleton. by apply text_score_None in E.
  - intros t. rewrite keep_best_lookup.
    destruct (String.eqb text t) eqn:Et.
    + apply String.eqb_eq in Et. subst t. specialize (Hbest text).
      destruct (text_score text best) as [s|].
      * destruct Hbest as [Hin Hmax]. pose proof (Hnum _ _ Hin) as Hs.
        destruct (s <? score) eqn:Es.
        -- split; [apply elem_of_app; right; by apply list_elem_of_singleton|].
           intros s' Hs'. apply elem_of_app in Hs' as [Hs'|Hs'].
           ++ pose proof (Hnum _ _ Hs') as Hn'. apply Hmax in Hs'.
              rewrite fge_flt, negb_true_iff in * by done.
              destruct (score <? s') eqn:E'; [|done].
              by rewrite (flt_trans _ _ _ Hs Hscore Hn' Es E') in Hs'.
           ++ apply list_elem_of_singleton in Hs'. injection Hs' as ->.
              by apply fge_refl.
        -- split; [apply elem_of_app; by left|].
           intros s' Hs'. apply elem_of_app in Hs' as [Hs'|Hs']; [auto|].
           apply list_elem_of_singleton in Hs'. injection Hs' as ->.
           by rewrite fge_flt, Es.
      * split; [apply elem_of_app; right; by apply list_elem_of_singleton|].
        intros s' Hs'. apply elem_of_app in Hs' as [Hs'|Hs'].
        -- exfalso. apply Hbest. by apply (list_elem_of_fmap_2 fst _ (text, s')).
        -- apply list_elem_of_singleton in Hs'. injection Hs' as ->.
           by apply fge_refl.
    + apply String.eqb_neq in Et. specialize (Hbest t).
      destruct (text_score t best) as [s|].
      * apply best_score_other; [congruence|done].
      * rewrite fmap_app, not_elem_of_app. split; [done|].
        simpl. rewrite list_elem_of_singleton. congruence.
Qed.

Lemma fold_keep_best_inv (l seen best : list result) :
  Forall (fun r => number (result_score r)) (seen ++ l) →
  best_inv seen best →
  best_inv (seen ++ l)
           (fold_left (fun best '(text, score) => keep_best text score best) l best).
Proof.
  revert seen best. induction l as [|[text score] l IH]; intros seen best Hnum Hinv;
    simpl.
  - by rewrite app_nil_r.
  - rewrite (cons_middle _ seen l), app_assoc in Hnum |- *.
    apply IH; [done|].
    apply Forall_app in Hnum as [[Hseen Hscore]%Forall_app _].
    apply Forall_cons in Hscore as [Hscore _].
    by apply keep_best_inv.
Qed.

Lemma best_of_inv (all_results : list result) :
  Forall (fun r => number (result_score r)) all_results →
  best_inv all_results (best_of all_results).
Proof.
  intros Hnum. apply (fold_keep_best_inv all_results [] []); [done|].
  split; [constructor|]. intros t. simpl. apply not_elem_of_nil.
Qed.

End Aggregate.

(** C5, as the program has it, on lists whose scores are numbers (no NaN), as
    those of the polarity runs are ([decode_with_polarity_numbers]).  Before the truncation the merged list
    [best] has exactly one entry for each text of the two lists, with the best
    score the text has in them; the output is that list sorted in descending
    order of score and truncated to [MAX_RESULTS].  So the output is
    descending, has at most [MAX_RESULTS] entries and at most one for a text,
    each with the best score of its text; it has an entry for every text when
    there are at most [MAX_RESULTS] different texts.  In particular a text that
    is in both lists has at most one entry in the output, whose score is not
    below either of its scores, and has one when there are at most
    [MAX_RESULTS] different texts. *)
Theorem aggregate_spec {A : Arith} (O : ArithOrder A) (cfg : config)
    (normal inverted : list result) :
  Forall (fun r => number (result_score r)) (normal ++ inverted) →
  let all_results := normal ++ inverted in
  let merged := best_of all_results in
  let ranked := aggregate cfg normal inverted in
  (NoDup (fst <$> merged) ∧
   (∀ t, t ∈ fst <$> merged ↔ t ∈ fst <$> all_results) ∧
   (∀ t s, (t, s) ∈ merged → best_score t s all_results)) ∧
  ranked = take (MAX_RESULTS cfg) (sorted (fun x => fneg (result_score x)) merged) ∧
  descending ranked ∧
  length ranked ≤ MAX_RESULTS cfg ∧
  NoDup (fst <$> ranked) ∧
  (∀ t s, (t, s) ∈ ranked → best_score t s all_results) ∧
  (length merged ≤ MAX_RESULTS cfg →
   ∀ t, t ∈ fst <$> all_results → t ∈ fst <$> ranked) ∧
  (∀ t a b, (t, a) ∈ normal → (t, b) ∈ inverted →
     (∀ s, (t, s) ∈ ranked →
           fge s a = true ∧ fge s b = true ∧ ((t, s) ∈ normal ∨ (t, s) ∈ inverted)) ∧
     (length merged ≤ MAX_RESULTS cfg → ∃ s, (t, s) ∈ ranked)).
Proof.
  intros Hnum all_results merged ranked.
  destruct (best_of_inv all_results Hnum) as [Hnd Hbest]. fold merged in Hnd, Hbest.
  assert (∀ t s, (t, s) ∈ merged → best_score t s all_results) as Hmax.
  { intros t s Hin. apply text_score_elem in Hin; [|done].
    specialize (Hbest t). by rewrite Hin in Hbest. }
  assert (∀ t, t ∈ fst <$> merged ↔ t ∈ fst <$> all_results) as Hkeys.
  { intros t. specialize (Hbest t).
    destruct (text_score t merged) as [s|] eqn:E.
    - apply text_score_elem in E; [|done]. destruct Hbest as [Hin _]. split; intros _.
      + by apply (list_elem_of_fmap_2 fst _ (t, s)).
      + by apply (list_elem_of_fmap_2 fst _ (t, s)).
    - apply text_score_None in E. tauto. }
  assert (Forall (fun r => number (result_score r)) merged) as Hmerged.
  { apply Forall_forall. intros [t s] Hin. apply Hmax in Hin as [Hin _].
    rewrite Forall_forall in Hnum. apply (Hnum _ Hin). }
  assert (ranked ⊆ merged) as Hsub.
  { intros r Hr. apply subseteq_take in Hr. by apply sorted_elem in Hr. }
  assert (length merged ≤ MAX_RESULTS cfg →
          ∀ t, t ∈ fst <$> all_results → t ∈ fst <$> ranked) as Hall.
  { intros Hlen t Ht. apply Hkeys in Ht.
    unfold ranked, aggregate, rank. fold all_results merged.
    rewrite take_ge by (rewrite sorted_length; lia). by rewrite sorted_perm. }
  split; [done|]. split; [done|].
  split; [by apply StronglySorted_take, sorted_descending|].
  split; [unfold ranked, aggregate, rank; rewrite length_take; lia|].
  split.
  { unfold ranked, aggregate, rank. fold all_results merged.
    rewrite fmap_take. eapply sublist_NoDup; [|apply sublist_take].
    by rewrite sorted_perm. }
  split; [intros t s Hin; auto|].
  split; [done|].
  intros t a b Ha Hb. split.
  - intros s Hs. apply Hsub, Hmax in Hs as [Hin Hge].
    split; [apply Hge, elem_of_app; by left|].
    split; [apply Hge, elem_of_app; by right|].
    by apply elem_of_app in Hin.
  - intros Hlen.
    assert (t ∈ fst <$> ranked) as Ht.
    { apply Hall; [done|]. apply (list_elem_of_fmap_2 fst _ (t, a)).
      apply elem_of_app. by left. }
    apply list_elem_of_fmap in Ht as ([t' s] & -> & Hin). eauto.
Qed.

(** Two instances in binary64: the lists the two polarity runs return on the
    bitstream ["10"] with the words A, N, ET and TE, which share no text, and
    two lists that share the text ["HI"], with the scores [1.0] and [2.0]. *)
Lemma aggregate_spec_witness :
  (∃ normal inverted,
     decode_with_polarity (A:=binary64) source_config "10" {["A"; "N"; "ET"; "TE"]}
                          false = Ok normal ∧
     decode_with_polarity (A:=binary64) source_config "10" {["A"; "N"; "ET"; "TE"]}
                          true = Ok inverted ∧
     length normal = 2 ∧ length inverted = 2 ∧
     Forall (fun r => number (ArithOrder:=binary64_order) (result_score r))
            (normal ++ inverted) ∧
     descending (aggregate source_config normal inverted) ∧
     length (aggregate source_config normal inverted) = 4 ∧
     ∀ t s, (t, s) ∈ aggregate source_config normal inverted →
            best_score t s (normal ++ inverted)) ∧
  Forall (fun r => number (ArithOrder:=binary64_order) (result_score r))
         ([("HI", 1.0%float)] ++ [("HI", 2.0%float)]) ∧
  aggregate (A:=binary64) source_config [("HI", 1.0%float)] [("HI", 2.0%float)]
  = [("HI", 2.0%float)] ∧
  ∀ s, ("HI", s) ∈ aggregate (A:=binary64) source_config
                     [("HI", 1.0%float)] [("HI", 2.0%float)] →
       fge (Arith:=binary64) s 1.0%float = true ∧
       fge (Arith:=binary64) s 2.0%float = true ∧
       (("HI", s) ∈ [("HI", 1.0%float)] ∨ ("HI", s) ∈ [("HI", 2.0%float)]).
Proof.
  split.
  - eexists. eexists.
    split; [vm_compute; reflexivity|]. split; [vm_compute; reflexivity|].
    split; [reflexivity|]. split; [reflexivity|].
    match goal with
    | |- Forall ?P ?l ∧ _ =>
        assert (Forall P l) as Hnum by (repeat constructor; vm_compute; reflexivity)
    end.
    split; [exact Hnum|].
    pose proof (aggregate_spec binary64_order source_config _ _ Hnum) as H.
    cbv zeta in H. destruct H as (_ & _ & Hdesc & _ & _ & Hbest & _).
    split; [exact Hdesc|]. split; [vm_compute; reflexivity|]. exact Hbest.
  - assert (Forall (fun r => number (ArithOrder:=binary64_order) (result_score r))
                   ([("HI", 1.0%float)] ++ [("HI", 2.0%float)])) as Hnum
      by (repeat constructor; vm_compute; reflexivity).
    split; [exact Hnum|]. split; [vm_compute; reflexivity|].
    pose proof (aggregate_spec binary64_order source_config _ _ Hnum) as H.
    cbv zeta in H. destruct H as (_ & _ & _ & _ & _ & _ & _ & Hhi).
    apply (Hhi "HI" 1.0%float 2.0%float); apply list_elem_of_singleton; reflexivity.
Defined.

(** C5, as the claim has it, fails on the lists of two polarity runs once they
    hold more than [MAX_RESULTS] different texts: on the bitstream ["1111111"]
    with the words E, I, S, H, T, M and O the normal run returns sixteen
    entries and the inverted run twelve, all with different texts; the twenty
    entries [main] keeps of the twenty-eight do not include the text ["S H"] of
    the normal run. *)
Lemma aggregate_drops_text_of_run :
  ∃ normal inverted ranked,
    decode_with_polarity (A:=binary64) source_config "1111111"
                         {["E"; "I"; "S"; "H"; "T"; "M"; "O"]} false = Ok normal ∧
    decode_with_polarity (A:=binary64) source_config "1111111"
                         {["E"; "I"; "S"; "H"; "T"; "M"; "O"]} true = Ok inverted ∧
    main_ranked (A:=binary64) source_config ENABLE_REVERSE_POLARITY "1111111"
                {["E"; "I"; "S"; "H"; "T"; "M"; "O"]} = Ok ranked ∧
    ranked = aggregate source_config normal inverted ∧
    length normal = 16 ∧ length inverted = 12 ∧ length ranked = 20 ∧
    "S H" ∈ fst <$> normal ∧ "S H" ∉ fst <$> ranked.
Proof.
  eexists. eexists. eexists.
  split; [vm_compute; reflexivity|]. split; [vm_compute; reflexivity|].
  split; [vm_compute; reflexivity|]. split; [vm_compute; reflexivity|].
  split; [reflexivity|]. split; [reflexivity|]. split; [reflexivity|].
  split; apply (bool_decide_unpack _); by vm_compute.
Qed.

(** ** Instances of the theorems that have hypotheses *)

Lemma brute_force_decode_sentences_witness :
  sentinel_free "......" ∧
  ∃ ranked,
    brute_force_decode (A:=binary64) source_config "......" {["HI"]} = Ok ranked ∧
    Forall (fun r => sentence_of {["HI"]} (fst r)) ranked ∧
    Forall (fun r => fst r ≠ "") ranked ∧
    (({["HI"]} : gset string) = ∅ → ranked = []).
Proof.
  split; [reflexivity|].
  apply (brute_force_decode_sentences (A:=binary64) source_config "......" {["HI"]}).
  reflexivity.
Defined.

(** * Further properties *)

(** ** Exceptions *)

Section Exceptions.

Context {A : Arith} (cfg : config) (dictionary : gset string).

Lemma trie_walk_raises (cur_word : string) (sentence : list string) (score : num)
    (rest : list ascii) :
  ∀ (node : pyobj) (i : nat) (next_states : list state) (e : exn),
    trie_walk cfg cur_word sentence score node i rest next_states = Raise e →
    e = TypeError.
Proof.
  induction rest as [|b rest IH]; intros node i next_states e; simpl; [done|].
  destruct (py_contains b node) eqn:Hb; [|done].
  destruct node as [items|s]; simpl; [|by intros [= <-]].
  simpl in Hb. apply bool_decide_eq_true in Hb as [child Hchild].
  rewrite Hchild. simpl.
  destruct (py_contains "$" child && _) eqn:Hemit; [|apply IH].
  apply andb_true_iff in Hemit as [Hd _].
  destruct child as [citems|cs]; simpl; [|by intros [= <-]].
  simpl in Hd. apply bool_decide_eq_true in Hd as [l Hl]. rewrite Hl. simpl.
  destruct l as [litems|letter]; simpl; [by intros [= <-]|apply IH].
Qed.

Lemma process_state_raises (bits : list ascii) (s : state) (fr : frame) (e : exn) :
  process_state cfg dictionary bits s fr = Raise e → e = TypeError.
Proof.
  destruct s as [[[pos cur_word] sentence] score], fr as [[visited results] ns].
  unfold process_state.
  destruct (dominated _ _ _); [done|].
  destruct (pos =? length bits).
  { by destruct (nonempty cur_word && bool_decide (cur_word ∈ dictionary)). }
  destruct (trie_walk _ _ _ _ _ _ _ _) as [ns'|e'|] eqn:Hwalk; simpl; [|intros [= <-]|done].
  - by destruct (nonempty cur_word && bool_decide (cur_word ∈ dictionary)).
  - by apply trie_walk_raises in Hwalk.
Qed.

Lemma for_each_raises {X S : Type} (body : X → S → outcome S) (P : exn → Prop)
    (l : list X) :
  (∀ x acc e, body x acc = Raise e → P e) →
  ∀ acc e, for_each body l acc = Raise e → P e.
Proof.
  intros Hbody. induction l as [|x l IH]; intros acc e; simpl; [done|].
  destruct (body x acc) as [acc'|e'|] eqn:Hx; simpl; [apply IH| |done].
  intros [= <-]. eauto.
Qed.

Lemma while_states_raises (bits : list ascii) (fuel : nat) :
  ∀ (states : list state) (visited : gmap (nat * string) num)
    (results : list result) (peak : nat) (e : exn),
    while_states cfg dictionary bits fuel states visited results peak = Raise e →
    e = TypeError.
Proof.
  induction fuel as [|fuel IH]; intros states visited results peak e;
    (destruct states as [|s states]; [done|]); [done|].
  cbn [while_states].
  destruct (for_each _ (s :: states) _) as [[[v1 r1] n1]|e'|] eqn:Hgen; simpl;
    [apply IH| |done].
  intros [= <-].
  eapply (for_each_raises _ (fun e => e = TypeError)); [|apply Hgen].
  intros x acc e. apply process_state_raises.
Qed.

Lemma brute_force_decode_raises (bits : string) (e : exn) :
  brute_force_decode cfg bits dictionary = Raise e → e = TypeError.
Proof.
  unfold brute_force_decode, brute_force_decode_fuel, search.
  destruct (while_states _ _ _ _ _ _ _ _) as [[rs p]|e'|] eqn:Hrun; simpl;
    [done| |done].
  intros [= <-]. by apply while_states_raises in Hrun.
Qed.

End Exceptions.

Lemma polarity_sentinel_free (bitstream : string) (invert : bool) :
  sentinel_free
    (replace "0" "-"
       (replace "1" "." (if invert then swap_bits bitstream else bitstream)))
  ↔ sentinel_free bitstream.
Proof.
  assert (∀ f : ascii → ascii,
            (∀ c, is_edge (f c) = is_edge c) →
            ∀ l, forallb is_edge (map f l) = forallb is_edge l) as Hmap.
  { intros f Hf l. induction l as [|c l IH]; simpl; [done|]. by rewrite Hf, IH. }
  unfold sentinel_free, replace.
  rewrite !list_ascii_of_string_of_list_ascii, !Hmap.
  - destruct invert; [|done]. unfold swap_bits.
    rewrite list_ascii_of_string_of_list_ascii, Hmap; [done|].
    intros c. destruct (Ascii.eqb c "1") eqn:E1.
    + apply Ascii.eqb_eq in E1. by subst.
    + destruct (Ascii.eqb c "0") eqn:E0; [|done].
      apply Ascii.eqb_eq in E0. by subst.
  - intros c. destruct (Ascii.eqb c "1") eqn:E1; [|done].
    apply Ascii.eqb_eq in E1. by subst.
  - intros c. destruct (Ascii.eqb c "0") eqn:E0; [|done].
    apply Ascii.eqb_eq in E0. by subst.
Qed.

(** X1. Decoding a bitstream under either polarity ends, and returns a list
    whenever the bitstream does not hold the character ["$"], whatever other
    characters it holds; the only exception it can raise is [TypeError], and
    only on a bitstream that holds ["$"]. *)
Theorem decode_with_polarity_exceptions {A : Arith} (cfg : config)
    (bitstream : string) (dictionary : gset string) (invert : bool) :
  decode_with_polarity cfg bitstream dictionary invert ≠ NoFuel ∧
  (sentinel_free bitstream →
   ∃ ranked, decode_with_polarity cfg bitstream dictionary invert = Ok ranked) ∧
  (∀ e, decode_with_polarity cfg bitstream dictionary invert = Raise e →
        e = TypeError ∧ ¬ sentinel_free bitstream).
Proof.
  unfold decode_with_polarity.
  set (bits := replace "0" "-" (replace "1" "." _)).
  pose proof (brute_force_decode_outcome cfg bits dictionary) as Hout.
  pose proof (polarity_sentinel_free bitstream invert) as Hfree. fold bits in Hfree.
  split; [intros Hno; by rewrite Hno in Hout|]. split.
  - intros Hb. apply Hfree in Hb.
    destruct (brute_force_decode _ _ _) as [ranked|e|]; [eauto|done|done].
  - intros e He. split; [by apply brute_force_decode_raises in He|].
    rewrite He in Hout. by rewrite <- Hfree.
Qed.

(** ** Polarity *)

Lemma swap_bits_involutive (s : string) : swap_bits (swap_bits s) = s.
Proof.
  unfold swap_bits. rewrite list_ascii_of_string_of_list_ascii, map_map.
  rewrite <- (string_of_list_ascii_of_string s) at 2. f_equal.
  rewrite <- (map_id (list_ascii_of_string s)) at 2.
  apply map_ext. intros c.
  destruct (Ascii.eqb c "1") eqn:E1.
  - apply Ascii.eqb_eq in E1. by subst.
  - destruct (Ascii.eqb c "0") eqn:E0.
    + apply Ascii.eqb_eq in E0. by subst.
    + by rewrite E1, E0.
Qed.

(** X2. Swapping the bits of a bitstream is an involution, and it exchanges
    the two polarities: decoding the swapped bitstream under one polarity is
    decoding the bitstream under the other. *)
Theorem decode_with_polarity_swap {A : Arith} (cfg : config) (bitstream : string)
    (dictionary : gset string) (invert : bool) :
  swap_bits (swap_bits bitstream) = bitstream ∧
  decode_with_polarity cfg (swap_bits bitstream) dictionary (negb invert)
  = decode_with_polarity cfg bitstream dictionary invert.
Proof.
  split; [apply swap_bits_involutive|].
  unfold decode_with_polarity. destruct invert; simpl; [done|].
  by rewrite swap_bits_involutive.
Qed.

(** ** What the walk emits *)

Section Emits.

Context {A : Arith} (cfg : config).

#[local] Open Scope score_scope.

Lemma emitted_step (cur_word : string) (sentence : list string) (score : num)
    (items : list (ascii * pyobj)) (child : pyobj) (b : ascii) (i : nat)
    (rest : list ascii) (s : state) :
  assoc b items = Some child →
  emitted cfg cur_word sentence score child (S i) rest s →
  emitted cfg cur_word sentence score (PyDict items) i (b :: rest) s.
Proof.
  intros Hb (consumed & its & letter & Hne & Hpre & Hfollow & Hl & Hlen & ->).
  exists (b :: consumed), its, letter.
  split; [done|]. split; [by apply prefix_cons|].
  split; [simpl; by rewrite Hb|]. split; [done|]. split; [done|].
  simpl. do 3 f_equal. lia.
Qed.

Lemma trie_walk_emits (cur_word : string) (sentence : list string) (score : num)
    (rest : list ascii) :
  ∀ (node : pyobj) (i : nat) (next_states next_states' : list state),
    trie_walk cfg cur_word sentence score node i rest next_states
    = Ok next_states' →
    ∃ new, next_states' = next_states ++ new ∧
           Forall (emitted cfg cur_word sentence score node i rest) new.
Proof.
  induction rest as [|b rest IH]; intros node i next_states next_states'; simpl.
  { intros [= <-]. exists []. by rewrite app_nil_r. }
  destruct (py_contains b node) eqn:Hb;
    [|intros [= <-]; exists []; by rewrite app_nil_r].
  destruct node as [items|s]; simpl; [|done].
  simpl in Hb. apply bool_decide_eq_true in Hb as [child Hchild].
  rewrite Hchild. simpl.
  destruct (py_contains "$" child && (String.length cur_word <? MAX_WORD_LEN cfg)%nat)
    eqn:Hemit.
  - apply andb_true_iff in Hemit as [Hd Hlen]. apply Nat.ltb_lt in Hlen.
    destruct child as [citems|cs]; simpl; [|done].
    simpl in Hd. apply bool_decide_eq_true in Hd as [l Hl]. rewrite Hl. simpl.
    destruct l as [litems|letter]; simpl; [done|].
    intros Hwalk. apply IH in Hwalk as (new & -> & Hnew).
    eexists (_ :: new). rewrite <- app_assoc. split; [done|].
    constructor.
    + exists [b], citems, letter.
      split; [done|]. split; [apply prefix_cons, prefix_nil|].
      split; [simpl; by rewrite Hchild|]. split; [done|]. split; [done|].
      simpl. do 3 f_equal. lia.
    + eapply Forall_impl; [apply Hnew|]. intros s. by apply emitted_step.
  - intros Hwalk. apply IH in Hwalk as (new & -> & Hnew).
    exists new. split; [done|].
    eapply Forall_impl; [apply Hnew|]. intros s. by apply emitted_step.
Qed.

End Emits.

(** ** Invariants of the search *)

Section Invariant.

Context {A : Arith} (cfg : config) (dictionary : gset string) (bits : list ascii).

Variable I : state → Prop.
Variable R : result → Prop.

Hypothesis step :
  ∀ s visited results next_states visited' results' next_states',
    I s →
    process_state cfg dictionary bits s (visited, results, next_states)
    = Ok (visited', results', next_states') →
    ∃ new_results new_states,
      results' = results ++ new_results ∧
      next_states' = next_states ++ new_states ∧
      Forall R new_results ∧ Forall I new_states.

Lemma generation_invariant (states : list state) :
  ∀ visited results next_states visited' results' next_states',
    Forall I states → Forall R results → Forall I next_states →
    for_each (process_state cfg dictionary bits) states
             (visited, results, next_states)
    = Ok (visited', results', next_states') →
    Forall R results' ∧ Forall I next_states'.
Proof.
  induction states as [|s states IH];
    intros visited results next_states visited' results' next_states' Hs Hr Hn;
    simpl.
  { by intros [= <- <- <-]. }
  apply Forall_cons in Hs as [Hs Hstates].
  destruct (process_state _ _ _ _ _) as [[[v1 r1] n1]|e|] eqn:Hp; simpl;
    [|done|done].
  destruct (step _ _ _ _ _ _ _ Hs Hp) as (nr & nn & -> & -> & Hnr & Hnn).
  apply IH; [done| |]; by apply Forall_app.
Qed.

Lemma while_states_invariant (fuel : nat) :
  ∀ states visited results peak results' peak',
    Forall I states → Forall R results →
    while_states cfg dictionary bits fuel states visited results peak
    = Ok (results', peak') →
    Forall R results'.
Proof.
  induction fuel as [|fuel IH]; intros states visited results peak results' peak';
    (destruct states as [|s states]; [by intros _ ? [= <- _]|]); [done|].
  intros Hs Hr. cbn [while_states].
  destruct (for_each _ (s :: states) _) as [[[v1 r1] n1]|e|] eqn:Hgen; simpl;
    [|done|done].
  apply generation_invariant in Hgen as [Hr1 Hn1]; [|done|done|constructor].
  apply IH; [|done].
  apply Forall_forall. intros s' Hs'. apply prune_subseteq in Hs'.
  rewrite Forall_forall in Hn1. auto.
Qed.

Lemma brute_force_decode_invariant (fuel : nat) (ranked : list result) :
  I (0, "", [], flit 0.0) →
  brute_force_decode_fuel cfg dictionary bits fuel = Ok ranked →
  Forall R ranked.
Proof.
  intros Hinit. unfold brute_force_decode_fuel, search.
  destruct (while_states _ _ _ _ _ _ _ _) as [[rs p]|e|] eqn:Hrun; simpl;
    [|done|done].
  intros [= <-].
  apply while_states_invariant in Hrun; [|by constructor|constructor].
  apply Forall_forall. intros r Hr. apply subseteq_take, sorted_elem in Hr.
  rewrite Forall_forall in Hrun. auto.
Qed.

End Invariant.

(** ** The results spell the stream *)

Lemma terminal_is_entry (consumed : list ascii) (items : list (ascii * pyobj))
    (letter : string) :
  follow consumed MORSE_TRIE = Some (PyDict items) →
  assoc "$"%char items = Some (PyStr letter) →
  (string_of_list_ascii consumed, letter) ∈ MORSE.
Proof.
  intros Hf Hl.
  pose proof (follow_terminals _ _ _ _ MORSE_TRIE_wf Hf Hl) as Hin.
  pose proof (forallb_elem _ _ _ terminals_are_codes Hin) as Hc.
  unfold is_morse_code in Hc. simpl in Hc. by apply bool_decide_eq_true in Hc.
Qed.

Lemma morse_letters :
  forallb (fun e => bool_decide (letter_code (snd e) = Some (fst e))
                    && bool_decide (chars (snd e) = [snd e]))
          MORSE = true.
Proof. vm_compute. reflexivity. Qed.

Lemma morse_entry (code letter : string) :
  (code, letter) ∈ MORSE →
  letter_code letter = Some code ∧ chars letter = [letter] ∧ String.length letter = 1.
Proof.
  intros Hin. pose proof (forallb_elem _ _ _ morse_letters Hin) as H. simpl in H.
  apply andb_true_iff in H as [Hc Hl].
  apply bool_decide_eq_true in Hc, Hl. split; [done|]. split; [done|].
  destruct letter as [|a [|b letter]]; done.
Qed.

Lemma list_ascii_of_string_append (a b : string) :
  list_ascii_of_string (a +:+ b) = list_ascii_of_string a ++ list_ascii_of_string b.
Proof. induction a as [|c a IH]; simpl; [done|]. by rewrite IH. Qed.

Lemma chars_append (a b : string) : chars (a +:+ b) = chars a ++ chars b.
Proof. unfold chars. by rewrite list_ascii_of_string_append, map_app. Qed.

Lemma length_append (a b : string) :
  String.length (a +:+ b) = String.length a + String.length b.
Proof. induction a as [|c a IH]; simpl; [done|]. by rewrite IH. Qed.

Lemma spell_letters_app (a b : list string) :
  spell_letters (a ++ b)
  = sa ← spell_letters a; sb ← spell_letters b; Some (sa ++ sb).
Proof.
  induction a as [|l a IH]; simpl.
  - by destruct (spell_letters b).
  - destruct (letter_code l) as [code|]; simpl; [|done].
    rewrite IH. destruct (spell_letters a) as [sa|]; simpl; [|done].
    destruct (spell_letters b) as [sb|]; simpl; [|done].
    by rewrite app_assoc.
Qed.

Lemma spell_letter (sentence : list string) (word letter code : string)
    (symbols : list ascii) :
  spell (sentence ++ [word]) = Some symbols →
  letter_code letter = Some code → chars letter = [letter] →
  spell (sentence ++ [word +:+ letter])
  = Some (symbols ++ list_ascii_of_string code).
Proof.
  unfold spell. rewrite !fmap_app, !concat_app. simpl. rewrite !app_nil_r.
  intros Hs Hcode Hchars. rewrite chars_append, Hchars, app_assoc.
  rewrite spell_letters_app, Hs. simpl. rewrite Hcode. simpl.
  by rewrite app_nil_r.
Qed.

Lemma spell_boundary (words : list string) : spell (words ++ [""]) = spell words.
Proof. unfold spell. rewrite fmap_app, concat_app. simpl. by rewrite app_nil_r. Qed.

Section Spells.

Context {A : Arith} (cfg : config) (dictionary : gset string) (bits : list ascii).

#[local] Open Scope score_scope.

Lemma typed_letter (score : num) (word letter : string) :
  chars letter = [letter] →
  typed score (word +:+ letter) = typed score word + score_letter letter.
Proof.
  intros Hl. unfold typed. by rewrite chars_append, fold_left_app, Hl.
Qed.

Lemma path_score_boundary (sentence : list string) (word : string) :
  path_score dictionary (sentence ++ [word]) ""
  = path_score dictionary sentence word + score_word word dictionary - flit 0.2.
Proof. unfold path_score. by rewrite fold_left_app. Qed.

Lemma emitted_reads (pos : nat) (cur_word : string) (sentence : list string)
    (score : num) (s' : state) :
  reads cfg dictionary bits (pos, cur_word, sentence, score) →
  emitted cfg cur_word sentence score MORSE_TRIE pos (drop pos bits) s' →
  reads cfg dictionary bits s'.
Proof.
  intros (Hspell & Hpos & Hsent & Hlen & ->)
         (consumed & items & letter & Hne & Hpre & Hf & Hl & Hlt & ->).
  destruct (morse_entry _ _ (terminal_is_entry _ _ _ Hf Hl)) as (Hcode & Hch & Hone).
  pose proof (prefix_length _ _ Hpre) as Hcl. rewrite length_drop in Hcl.
  split.
  - rewrite (spell_letter _ _ _ _ _ Hspell Hcode Hch).
    rewrite list_ascii_of_string_of_list_ascii, <- take_take_drop.
    do 2 f_equal. destruct Hpre as [k Hk]. by rewrite Hk, take_app_length.
  - split; [lia|]. split; [done|]. split; [rewrite length_append; lia|].
    unfold path_score. by rewrite typed_letter.
Qed.

Lemma process_state_reads (s : state) (visited : gmap (nat * string) num)
    (results : list result) (next_states : list state)
    (visited' : gmap (nat * string) num) (results' : list result)
    (next_states' : list state) :
  reads cfg dictionary bits s →
  process_state cfg dictionary bits s (visited, results, next_states)
  = Ok (visited', results', next_states') →
  ∃ new_results new_states,
    results' = results ++ new_results ∧
    next_states' = next_states ++ new_states ∧
    Forall (decodes cfg dictionary bits) new_results ∧
    Forall (reads cfg dictionary bits) new_states.
Proof.
  destruct s as [[[pos cur_word] sentence] score]. intros Hreads.
  pose proof Hreads as (Hspell & Hpos & Hsent & Hlen & Hscore).
  unfold process_state.
  destruct (dominated _ _ _).
  { intros [= <- <- <-]. exists [], []. by rewrite !app_nil_r. }
  destruct (pos =? length bits) eqn:Hend.
  - apply Nat.eqb_eq in Hend.
    destruct (nonempty cur_word && bool_decide (cur_word ∈ dictionary)) eqn:Hw;
      intros [= <- <- <-].
    + eexists [_], []. rewrite app_nil_r. repeat split; [|constructor].
      constructor; [|constructor].
      exists sentence, cur_word. split; [done|]. split.
      * apply Forall_app. split; [done|].
        constructor; [|constructor]. split; [by apply commit_word|done].
      * split; [|simpl; by rewrite Hscore].
        rewrite Hspell. f_equal. apply take_ge. lia.
    + exists [], []. by rewrite !app_nil_r.
  - destruct (trie_walk _ _ _ _ _ _ _ _) as [ns'|e|] eqn:Hwalk; simpl; [|done|done].
    apply trie_walk_emits in Hwalk as (new & -> & Hnew).
    assert (Forall (reads cfg dictionary bits) new) as Hnew'.
    { eapply Forall_impl; [apply Hnew|]. intros s'. by apply emitted_reads. }
    destruct (nonempty cur_word && bool_decide (cur_word ∈ dictionary)) eqn:Hw;
      intros [= <- <- <-].
    + eexists [], (new ++ [_]). rewrite app_nil_r, app_assoc.
      repeat split; [constructor|].
      apply Forall_app. split; [done|]. constructor; [|constructor].
      split; [by rewrite spell_boundary|]. split; [done|]. split.
      * apply Forall_app. split; [done|].
        constructor; [|constructor]. split; [by apply commit_word|done].
      * split; [simpl; lia|]. by rewrite path_score_boundary, Hscore.
    + exists [], new. rewrite app_nil_r. repeat split; [constructor|done].
Qed.

Lemma initial_state_reads : reads cfg dictionary bits (0, "", [], flit 0.0).
Proof.
  split; [by rewrite take_0|]. split; [lia|]. split; [constructor|].
  split; [simpl; lia|done].
Qed.

End Spells.

(** X3. Every result of the decoder is a decoding of the stream: its text is
    the space-joined sequence of one or more non-empty dictionary words of at
    most [MAX_WORD_LEN] letters; the Morse codes of its letters, put end to
    end, are exactly the symbols of the stream; and its score is the score the
    path accumulates, letter by letter and at each word boundary, plus the
    score of the last word.  On a stream without ["$"] the decoder returns such
    a list. *)
Theorem brute_force_decode_spells {A : Arith} (cfg : config) (bits : string)
    (dictionary : gset string) :
  (∀ ranked, brute_force_decode cfg bits dictionary = Ok ranked →
             Forall (decodes cfg dictionary (list_ascii_of_string bits)) ranked) ∧
  (sentinel_free bits → ∃ ranked, brute_force_decode cfg bits dictionary = Ok ranked).
Proof.
  split.
  - intros ranked. unfold brute_force_decode.
    apply (brute_force_decode_invariant cfg dictionary _
             (reads cfg dictionary (list_ascii_of_string bits))).
    + intros s visited results next_states visited' results' next_states'.
      apply process_state_reads.
    + apply initial_state_reads.
  - intros Hfree.
    pose proof (brute_force_decode_outcome cfg bits dictionary) as Hout.
    destruct (brute_force_decode _ _ _) as [ranked|e|]; [eauto|done|done].
Qed.

(** ** Degenerate inputs and caps *)

(** X4. The empty stream has no decoding: whatever the dictionary, the
    configuration and the polarity, the decoder returns the empty list on it
    (the initial state is already at the end, with no word to finalize). *)
Theorem decode_empty_stream {A : Arith} (cfg : config) (dictionary : gset string)
    (invert : bool) :
  brute_force_decode cfg "" dictionary = Ok [] ∧
  decode_with_polarity cfg "" dictionary invert = Ok [].
Proof.
  assert (brute_force_decode cfg "" dictionary = Ok []) as H.
  { unfold brute_force_decode, brute_force_decode_fuel, search. simpl.
    unfold dominated. rewrite lookup_empty. simpl.
    unfold prune. simpl. rewrite take_nil. simpl. by rewrite take_nil. }
  split; [done|]. unfold decode_with_polarity. by destruct invert.
Qed.

Section Caps.

Context {A : Arith} (cfg : config) (dictionary : gset string).

Lemma first_generation (c : config) (bits : list ascii) :
  forallb is_edge bits = true →
  ∃ visited next_states,
    for_each (process_state c dictionary bits) [(0, "", [], flit 0.0)] (∅, [], [])
    = Ok (visited, [], next_states).
Proof.
  intros Hfree. cbn [for_each]. unfold process_state, dominated.
  rewrite lookup_empty.
  destruct (0 =? length bits); [by eexists _, _|].
  pose proof (trie_walk_outcome c "" [] (flit 0.0) (drop 0 bits) MORSE_TRIE 0 [])
    as Hwalk.
  destruct (trie_walk _ _ _ _ _ _ _ _) as [ns|e|]; [by eexists _, _| |done].
  exfalso. apply Hwalk. split; [apply MORSE_TRIE_wf|done].
Qed.

Lemma while_states_nil (c : config) (bits : list ascii) (fuel : nat)
    (visited : gmap (nat * string) num) (results : list result) (peak : nat) :
  while_states c dictionary bits fuel [] visited results peak = Ok (results, peak).
Proof. by destruct fuel. Qed.

End Caps.

(** X5. Caps of zero give the empty list and no exception: on a stream without
    ["$"], a beam of width zero drops every successor of the initial state, so
    nothing is ever finalized, and a result cap of zero cuts every result. *)
Theorem zero_caps_return_nothing {A : Arith} (cfg : config) (bits : string)
    (dictionary : gset string) :
  sentinel_free bits →
  brute_force_decode (with_beam 0 cfg) bits dictionary = Ok [] ∧
  brute_force_decode
    {| BEAM_WIDTH := BEAM_WIDTH cfg; MAX_WORD_LEN := MAX_WORD_LEN cfg;
       MAX_RESULTS := 0 |} bits dictionary = Ok [].
Proof.
  intros Hfree. split.
  - unfold brute_force_decode, brute_force_decode_fuel, search, generations.
    rewrite Nat.add_1_r. cbn [while_states].
    destruct (first_generation dictionary (with_beam 0 cfg) _ Hfree)
      as (visited & ns & ->).
    simpl. unfold prune. simpl. rewrite take_0, while_states_nil. simpl.
    by rewrite take_nil.
  - pose proof (brute_force_decode_outcome
                  {| BEAM_WIDTH := BEAM_WIDTH cfg; MAX_WORD_LEN := MAX_WORD_LEN cfg;
                     MAX_RESULTS := 0 |} bits dictionary) as Hout.
    destruct (brute_force_decode _ _ _) as [ranked|e|]; [|done|done].
    destruct Hout as (Hlen & _). simpl in Hlen.
    destruct ranked; [done|simpl in Hlen; lia].
Qed.

Lemma zero_caps_return_nothing_witness :
  sentinel_free "...---..." ∧
  brute_force_decode (A:=binary64) (with_beam 0 source_config) "...---..." {["SOS"]}
  = Ok [] ∧
  brute_force_decode (A:=binary64)
    {| BEAM_WIDTH := BEAM_WIDTH source_config;
       MAX_WORD_LEN := MAX_WORD_LEN source_config; MAX_RESULTS := 0 |}
    "...---..." {["SOS"]} = Ok [].
Proof.
  split; [reflexivity|].
  apply (zero_caps_return_nothing (A:=binary64) source_config "...---..." {["SOS"]}).
  reflexivity.
Defined.

(** ** Beam pruning *)

Lemma StronglySorted_app_inv {X : Type} (R : X → X → Prop) (l1 l2 : list X) :
  StronglySorted R (l1 ++ l2) → ∀ x y, x ∈ l1 → y ∈ l2 → R x y.
Proof.
  induction l1 as [|a l1 IH]; simpl; intros Hs x y Hx Hy.
  - by apply elem_of_nil in Hx.
  - apply StronglySorted_inv in Hs as [Hs Ha].
    apply elem_of_cons in Hx as [->|Hx]; [|by apply IH].
    rewrite Forall_forall in Ha. apply Ha. apply elem_of_app. by right.
Qed.

(** X6. Beam pruning keeps the best states: when the scores of the successors
    are numbers (no NaN), the states kept are
    [min(BEAM_WIDTH, len(next_states))] of the successors, in descending order
    of score; together with the states dropped they are the successors, each as
    often as it occurred; and no state dropped has a score above that of a
    state kept. *)
Theorem prune_keeps_best {A : Arith} (O : ArithOrder A) (cfg : config)
    (next_states : list state) :
  Forall (fun s => number (state_score s)) next_states →
  length (prune cfg next_states) = Nat.min (BEAM_WIDTH cfg) (length next_states) ∧
  StronglySorted (fun a b => fge (state_score a) (state_score b) = true)
                 (prune cfg next_states) ∧
  ∃ dropped,
    prune cfg next_states ++ dropped ≡ₚ next_states ∧
    ∀ kept_state dropped_state,
      kept_state ∈ prune cfg next_states → dropped_state ∈ dropped →
      fge (state_score kept_state) (state_score dropped_state) = true.
Proof.
  intros Hnum.
  pose proof (sorted_by_score state_score next_states Hnum) as Hsorted.
  unfold prune. split; [by rewrite length_take, sorted_length|].
  split; [by apply StronglySorted_take|].
  exists (drop (BEAM_WIDTH cfg) (sorted (fun x => fneg (state_score x)) next_states)).
  split; [by rewrite take_drop, sorted_perm|].
  rewrite <- (take_drop (BEAM_WIDTH cfg)) in Hsorted.
  intros k d Hk Hd. by apply (StronglySorted_app_inv _ _ _ Hsorted).
Qed.

Lemma prune_keeps_best_witness :
  Forall (fun s => number (ArithOrder:=binary64_order) (state_score s))
         [(1, "E", [], 1.0%float); (2, "A", [], 0.85%float); (1, "T", [], 0.9%float)] ∧
  prune (A:=binary64) (with_beam 2 source_config)
        [(1, "E", [], 1.0%float); (2, "A", [], 0.85%float); (1, "T", [], 0.9%float)]
  = [(1, "E", [], 1.0%float); (1, "T", [], 0.9%float)] ∧
  ∃ dropped,
    prune (A:=binary64) (with_beam 2 source_config)
          [(1, "E", [], 1.0%float); (2, "A", [], 0.85%float); (1, "T", [], 0.9%float)]
    ++ dropped
    ≡ₚ [(1, "E", [], 1.0%float); (2, "A", [], 0.85%float); (1, "T", [], 0.9%float)] ∧
    ∀ kept_state dropped_state,
      kept_state ∈ prune (A:=binary64) (with_beam 2 source_config)
                     [(1, "E", [], 1.0%float); (2, "A", [], 0.85%float);
                      (1, "T", [], 0.9%float)] →
      dropped_state ∈ dropped →
      fge (state_score kept_state) (state_score dropped_state) = true.
Proof.
  assert (Forall (fun s => number (ArithOrder:=binary64_order) (state_score s))
                 [(1, "E", [], 1.0%float); (2, "A", [], 0.85%float);
                  (1, "T", [], 0.9%float)]) as Hnum
    by (repeat constructor; vm_compute; reflexivity).
  split; [exact Hnum|]. split; [vm_compute; reflexivity|].
  apply (prune_keeps_best binary64_order (with_beam 2 source_config) _ Hnum).
Defined.

(** ** Main *)

Section Main.

Context {A : Arith}.




End Main.



(** ** Building a trie from any code table *)

Lemma assoc_set_eq {V : Type} (k : ascii) (v : V) (items : list (ascii * V)) :
  assoc k (assoc_set k v items) = Some v.
Proof.
  induction items as [|[k' v'] items IH]; simpl.
  - by rewrite Ascii.eqb_refl.
  - destruct (Ascii.eqb k' k) eqn:E; simpl; [by rewrite Ascii.eqb_refl|].
    by rewrite E.
Qed.

Lemma assoc_set_ne {V : Type} (k k' : ascii) (v : V) (items : list (ascii * V)) :
  k' ≠ k → assoc k' (assoc_set k v items) = assoc k' items.
Proof.
  intros Hne. induction items as [|[k0 v0] items IH]; simpl.
  - destruct (Ascii.eqb k k') eqn:E; [|done].
    apply Ascii.eqb_eq in E. congruence.
  - destruct (Ascii.eqb k0 k) eqn:E; simpl.
    + apply Ascii.eqb_eq in E. subst k0.
      destruct (Ascii.eqb k k') eqn:E'; [|done].
      apply Ascii.eqb_eq in E'. congruence.
    + by rewrite IH.
Qed.

Lemma wf_assoc_set (items : list (ascii * pyobj)) (k : ascii) (v : pyobj) :
  wf_node (PyDict items) = true →
  (if is_edge k then wf_node v = true else ∃ s, v = PyStr s) →
  wf_node (PyDict (assoc_set k v items)) = true.
Proof.
  intros Hwf Hv.
  assert ((if is_edge k then wf_node v
           else match v with PyStr _ => true | PyDict _ => false end) = true) as Hk.
  { destruct (is_edge k); [done|]. by destruct Hv as [s ->]. }
  cbn [wf_node] in *. induction items as [|[k' v'] items IH]; simpl in *.
  - by rewrite Hk.
  - apply andb_true_iff in Hwf as [H1 H2].
    destruct (Ascii.eqb k' k); simpl; [by rewrite Hk, H2|].
    by rewrite H1, IH.
Qed.

Lemma reach_str (path : list ascii) (s : string) :
  follow path (PyStr s) ≫= terminal_letter = None.
Proof. by destruct path. Qed.

Lemma reach_empty (path : list ascii) :
  follow path (PyDict []) ≫= terminal_letter = None.
Proof. by destruct path. Qed.

Lemma is_edge_ne (k : ascii) : is_edge k = true → k ≠ "$"%char.
Proof. by intros H ->. Qed.

Lemma insert_code_spec (letter : string) (code : list ascii) :
  ∀ node,
    wf_node node = true → forallb is_edge code = true →
    ∃ node',
      insert_code code letter node = Ok node' ∧
      wf_node node' = true ∧
      ∀ path, follow path node' ≫= terminal_letter
              = if decide (path = code) then Some letter
                else follow path node ≫= terminal_letter.
Proof.
  induction code as [|s code IH]; intros node Hwf Hedges.
  - destruct node as [items|]; [|done]. simpl.
    eexists. split; [done|].
    split; [apply wf_assoc_set; [done|simpl; eauto]|].
    intros [|k path]; simpl.
    + by rewrite assoc_set_eq.
    + destruct (decide (k = "$"%char)) as [->|Hk].
      * rewrite assoc_set_eq. simpl. rewrite reach_str.
        destruct (assoc "$"%char items) as [v|] eqn:Hv; [|done]. simpl.
        destruct (wf_node_child _ _ _ Hwf Hv) as [s' ->]. by rewrite reach_str.
      * by rewrite assoc_set_ne.
  - destruct node as [items|]; [|done].
    simpl in Hedges. apply andb_true_iff in Hedges as [Hs Hedges].
    set (child := default (PyDict []) (assoc s items)).
    assert (wf_node child = true) as Hchild.
    { unfold child. destruct (assoc s items) as [v|] eqn:Hv; [|done].
      pose proof (wf_node_child _ _ _ Hwf Hv) as H. by rewrite Hs in H. }
    destruct (IH child Hchild Hedges) as (child' & Hins & Hwf' & Hreach).
    cbn [insert_code]. fold child. rewrite Hins. simpl.
    eexists. split; [done|].
    split; [apply wf_assoc_set; [done|by rewrite Hs]|].
    intros [|k path].
    + cbn [follow]. simpl. rewrite assoc_set_ne; [done|].
      intros H. by apply (is_edge_ne s).
    + destruct (decide (k = s)) as [->|Hk].
      * cbn [follow]. rewrite assoc_set_eq. simpl. rewrite Hreach.
        destruct (decide (path = code)) as [->|Hp].
        -- by rewrite decide_True.
        -- rewrite decide_False by congruence. unfold child.
           destruct (assoc s items); [done|]. simpl. apply reach_empty.
      * cbn [follow]. rewrite assoc_set_ne by done.
        by rewrite decide_False by congruence.
Qed.

Lemma list_ascii_of_string_inj (a b : string) :
  list_ascii_of_string a = list_ascii_of_string b → a = b.
Proof.
  intros H. rewrite <- (string_of_list_ascii_of_string a),
              <- (string_of_list_ascii_of_string b). by rewrite H.
Qed.

Lemma build_from (morse_map : list (string * string)) :
  ∀ trie,
    wf_node trie = true →
    Forall (fun entry => sentinel_free (fst entry)) morse_map →
    ∃ trie',
      for_each (fun '(code, letter) trie =>
                  insert_code (list_ascii_of_string code) letter trie)
               morse_map trie = Ok trie' ∧
      wf_node trie' = true ∧
      ∀ code, lookup_code trie' code
              = match last_binding code morse_map with
                | Some letter => Some letter
                | None => lookup_code trie code
                end.
Proof.
  induction morse_map as [|[c l] rest IH]; intros trie Hwf Hfree; simpl.
  - eexists. split; [done|]. split; [done|]. done.
  - apply Forall_cons in Hfree as [Hc Hfree].
    destruct (insert_code_spec l (list_ascii_of_string c) trie Hwf Hc)
      as (trie1 & -> & Hwf1 & Hreach). simpl.
    destruct (IH trie1 Hwf1 Hfree) as (trie' & -> & Hwf' & Hlookup).
    eexists. split; [done|]. split; [done|].
    intros code. rewrite Hlookup.
    destruct (last_binding code rest); [done|].
    unfold lookup_code. rewrite Hreach.
    destruct (String.eqb c code) eqn:E.
    + apply String.eqb_eq in E. subst. by rewrite decide_True.
    + apply String.eqb_neq in E. rewrite decide_False; [done|].
      intros H. apply list_ascii_of_string_inj in H. congruence.
Qed.

(** X8. [build_morse_trie] on any code table whose codes do not hold the
    character ["$"] returns a trie, without an exception, in which looking a
    code up gives exactly what the table binds it to: the letter of the last
    entry for that code, and nothing for a code the table does not have.  The
    trie is one the letter-extension walk cannot fail on. *)
Theorem build_morse_trie_lookup (morse_map : list (string * string)) :
  Forall (fun entry => sentinel_free (fst entry)) morse_map →
  ∃ trie,
    build_morse_trie morse_map = Ok trie ∧
    wf_node trie = true ∧
    ∀ code, lookup_code trie code = last_binding code morse_map.
Proof.
  intros Hfree. unfold build_morse_trie.
  destruct (build_from morse_map (PyDict []) eq_refl Hfree)
    as (trie & Hbuild & Hwf & Hlookup).
  exists trie. split; [done|]. split; [done|].
  intros code. rewrite Hlookup.
  destruct (last_binding code morse_map); [done|].
  unfold lookup_code. apply reach_empty.
Qed.

Lemma build_morse_trie_lookup_witness :
  Forall (fun entry => sentinel_free (fst entry)) MORSE ∧
  ∃ trie,
    build_morse_trie MORSE = Ok trie ∧
    wf_node trie = true ∧
    ∀ code, lookup_code trie code = last_binding code MORSE.
Proof.
  assert (Forall (fun entry => sentinel_free (fst entry)) MORSE) as H.
  { repeat constructor. }
  split; [exact H|]. apply (build_morse_trie_lookup MORSE H).
Defined.

(** ** The two polarities never decode to the same text *)

Lemma spell_letters_no_space (letters : list string) (symbols : list ascii) :
  spell_letters letters = Some symbols → Forall (fun c => c ≠ " ") letters.
Proof.
  revert symbols. induction letters as [|l letters IH]; intros symbols; simpl.
  - constructor.
  - destruct (letter_code l) as [code|] eqn:Hl; simpl; [|done].
    destruct (spell_letters letters) as [syms|]; simpl; [|done].
    intros _. constructor; [|by eapply IH].
    intros ->. vm_compute in Hl. done.
Qed.

Lemma filter_no_space (letters : list string) :
  Forall (fun c => c ≠ " ") letters →
  filter (fun c => c ≠ " ") letters = letters.
Proof.
  induction 1 as [|c l Hc Hl IH]; [done|].
  rewrite filter_cons, decide_True by done. by rewrite IH.
Qed.

Lemma chars_join (words : list string) :
  filter (fun c => c ≠ " ") (chars (join words))
  = filter (fun c => c ≠ " ") (concat (chars <$> words)).
Proof.
  unfold join. induction words as [|w words IH]; [done|].
  destruct words as [|w' words].
  - simpl. by rewrite app_nil_r.
  - change (String.concat " " (w :: w' :: words))
      with (w +:+ " " +:+ String.concat " " (w' :: words)).
    rewrite !chars_append, !filter_app, IH.
    change (filter (fun c => c ≠ " ") (chars " ")) with (@nil string).
    simpl. by rewrite !filter_app.
Qed.

Lemma spell_spell_text (words : list string) (symbols : list ascii) :
  spell words = Some symbols → spell_text (join words) = Some symbols.
Proof.
  unfold spell, spell_text. intros Hs.
  rewrite chars_join, filter_no_space; [done|].
  by eapply spell_letters_no_space.
Qed.

Lemma decodes_spell_text {A : Arith} (cfg : config) (dictionary : gset string)
    (bits : list ascii) (r : result) :
  decodes cfg dictionary bits r → spell_text (fst r) = Some bits.
Proof.
  intros (sentence & word & -> & _ & Hs & _). by apply spell_spell_text.
Qed.

Lemma symbols_of_differ (bitstream : string) (c : ascii) :
  c ∈ list_ascii_of_string bitstream → c = "0"%char ∨ c = "1"%char →
  list_ascii_of_string (symbols_of bitstream false)
  ≠ list_ascii_of_string (symbols_of bitstream true).
Proof.
  unfold symbols_of, replace, swap_bits.
  rewrite !list_ascii_of_string_of_list_ascii.
  induction (list_ascii_of_string bitstream) as [|b l IH]; intros Hin Hc.
  - by apply elem_of_nil in Hin.
  - simpl. intros [= Hb Hl].
    apply elem_of_cons in Hin as [->|Hin]; [|by apply IH].
    destruct Hc as [-> | ->]; done.
Qed.

(** X9. On a bitstream that holds a ['0'] or a ['1'], no text is returned by
    both polarity runs: a text fixes the symbols that spell it, and the two
    runs decode different symbols.  (So the de-duplication of [main] never
    merges an entry of the normal run with one of the inverted run.) *)
Theorem polarity_runs_share_no_text {A : Arith} (cfg : config) (bitstream : string)
    (dictionary : gset string) (c : ascii) (normal inverted : list result) :
  c ∈ list_ascii_of_string bitstream → c = "0"%char ∨ c = "1"%char →
  decode_with_polarity cfg bitstream dictionary false = Ok normal →
  decode_with_polarity cfg bitstream dictionary true = Ok inverted →
  ∀ text s1 s2, (text, s1) ∈ normal → (text, s2) ∈ inverted → False.
Proof.
  intros Hin Hc Hn Hi text s1 s2 H1 H2.
  apply (symbols_of_differ bitstream c Hin Hc).
  assert (∀ invert run s,
            decode_with_polarity cfg bitstream dictionary invert = Ok run →
            (text, s) ∈ run →
            spell_text text
            = Some (list_ascii_of_string (symbols_of bitstream invert))) as Hspell.
  { intros invert run s Hrun Hs. unfold decode_with_polarity in Hrun.
    fold (symbols_of bitstream invert) in Hrun. unfold brute_force_decode in Hrun.
    apply (brute_force_decode_invariant cfg dictionary _
             (reads cfg dictionary (list_ascii_of_string (symbols_of bitstream invert)))
             (decodes cfg dictionary
                (list_ascii_of_string (symbols_of bitstream invert)))) in Hrun.
    - rewrite Forall_forall in Hrun.
      by apply (decodes_spell_text cfg dictionary _ (text, s)), Hrun.
    - intros s0 visited results next_states visited' results' next_states'.
      apply process_state_reads.
    - apply initial_state_reads. }
  pose proof (Hspell false normal s1 Hn H1) as E1.
  pose proof (Hspell true inverted s2 Hi H2) as E2.
  congruence.
Qed.

(** On the bitstream ["10"] with the words A, N, ET and TE the normal run
    returns the texts ["ET"] and ["A"], the inverted run ["TE"] and ["N"]. *)
Lemma polarity_runs_share_no_text_witness :
  "1"%char ∈ list_ascii_of_string "10" ∧
  ∃ normal inverted,
    decode_with_polarity (A:=binary64) source_config "10" {["A"; "N"; "ET"; "TE"]}
                         false = Ok normal ∧
    decode_with_polarity (A:=binary64) source_config "10" {["A"; "N"; "ET"; "TE"]}
                         true = Ok inverted ∧
    fst <$> normal = ["ET"; "A"] ∧ fst <$> inverted = ["TE"; "N"] ∧
    ∀ text s1 s2, (text, s1) ∈ normal → (text, s2) ∈ inverted → False.
Proof.
  assert ("1"%char ∈ list_ascii_of_string "10") as Hin
    by (apply (bool_decide_unpack _); by vm_compute).
  split; [exact Hin|].
  eexists. eexists.
  match goal with
  | |- ?n ∧ ?i ∧ _ =>
      assert n as Hn by (vm_compute; reflexivity);
      assert i as Hi by (vm_compute; reflexivity)
  end.
  split; [exact Hn|]. split; [exact Hi|].
  split; [reflexivity|]. split; [reflexivity|].
  apply (polarity_runs_share_no_text (A:=binary64) source_config "10"
           {["A"; "N"; "ET"; "TE"]} "1"%char _ _ Hin (or_intror eq_refl) Hn Hi).
Defined.

(** ** A dictionary word that spells the stream is found *)

Lemma trie_walk_complete {A : Arith} (cfg : config) (cur_word : string)
    (sentence : list string) (score : num) (letter : string)
    (items : list (ascii * pyobj)) (consumed : list ascii) :
  ∀ (node : pyobj) (i : nat) (rest : list ascii) (next_states next_states' : list state),
    consumed ≠ [] →
    follow consumed node = Some (PyDict items) →
    assoc "$"%char items = Some (PyStr letter) →
    String.length cur_word < MAX_WORD_LEN cfg →
    trie_walk cfg cur_word sentence score node i (consumed ++ rest) next_states
    = Ok next_states' →
    (i + length consumed, cur_word +:+ letter, sentence,
     fadd score (score_letter letter)) ∈ next_states'.
Proof.
  induction consumed as [|b consumed IH];
    intros node i rest next_states next_states' Hne Hf Hl Hlen; [done|].
  destruct node as [its|]; [|done]. cbn [follow] in Hf.
  destruct (assoc b its) as [child|] eqn:Hb; [|done]. simpl in Hf.
  cbn [app trie_walk]. unfold py_contains at 1.
  rewrite bool_decide_eq_true_2 by (rewrite Hb; eauto).
  cbn [py_getitem]. rewrite Hb. cbn [mbind outcome_bind].
  apply Nat.ltb_lt in Hlen. rewrite Hlen, andb_true_r.
  destruct consumed as [|b' consumed].
  - simpl in Hf. injection Hf as ->. cbn [py_contains].
    rewrite bool_decide_eq_true_2 by (rewrite Hl; eauto).
    cbn [py_getitem]. rewrite Hl. simpl.
    intros Hwalk. apply trie_walk_emits in Hwalk as (new & -> & _).
    apply elem_of_app. left. apply elem_of_app. right.
    apply list_elem_of_singleton. do 3 f_equal. lia.
  - apply Nat.ltb_lt in Hlen.
    destruct (py_contains "$" child) eqn:Hd.
    + destruct (py_getitem child "$") as [l|e|]; cbn [mbind outcome_bind]; [|done|done].
      destruct (py_str l) as [l'|e|]; cbn [mbind outcome_bind]; [|done|done].
      intros Hwalk.
      replace (i + length (b :: b' :: consumed))
        with (S i + length (b' :: consumed)) by (simpl; lia).
      by eapply (IH child (S i) rest).
    + intros Hwalk.
      replace (i + length (b :: b' :: consumed))
        with (S i + length (b' :: consumed)) by (simpl; lia).
      by eapply (IH child (S i) rest).
Qed.

Lemma letter_code_in_elem (table : list (string * string)) (letter code : string) :
  letter_code_in table letter = Some code → (code, letter) ∈ table.
Proof.
  induction table as [|[c l] table IH]; simpl; [done|].
  destruct (String.eqb l letter) eqn:E.
  - apply String.eqb_eq in E. intros [= ->]. subst. left.
  - intros H. right. auto.
Qed.

Lemma letter_code_follow (letter code : string) :
  letter_code letter = Some code →
  code ≠ "" ∧ chars letter = [letter] ∧ String.length letter = 1 ∧
  ∃ items, follow (list_ascii_of_string code) MORSE_TRIE = Some (PyDict items) ∧
           assoc "$"%char items = Some (PyStr letter).
Proof.
  intros Hc. apply letter_code_in_elem in Hc.
  destruct (morse_entry _ _ Hc) as (_ & Hch & Hone).
  assert (forallb (fun e => negb (String.eqb (fst e) "")) MORSE = true) as Hne
    by (vm_compute; reflexivity).
  apply (forallb_elem _ _ _ Hne) in Hc as Hcode. simpl in Hcode.
  apply negb_true_iff, String.eqb_neq in Hcode.
  split; [done|]. split; [done|]. split; [done|].
  pose proof (forallb_elem _ _ _ codes_reach_letters Hc) as H.
  apply bool_decide_eq_true in H. simpl in H.
  destruct (follow (list_ascii_of_string code) MORSE_TRIE) as [[items|]|]; [|done|done].
  exists items. split; [done|]. simpl in H.
  destruct (assoc "$"%char items) as [[|l]|]; [done| |done].
  by injection H as ->.
Qed.

Lemma concat_chars (w : string) : String.concat "" (chars w) = w.
Proof.
  induction w as [|a w IH]; [done|].
  change (chars (String a w)) with (String a "" :: chars w).
  destruct (chars w) as [|x l] eqn:E.
  - destruct w; [done|discriminate].
  - change (String.concat "" (String a "" :: x :: l))
      with (String a "" +:+ "" +:+ String.concat "" (x :: l)).
    rewrite IH. done.
Qed.

Lemma length_chars (w : string) : length (chars w) = String.length w.
Proof. unfold chars. by rewrite length_map, length_list_ascii_of_string. Qed.

Lemma chars_single (l : string) (w : string) : l ∈ chars w → chars l = [l].
Proof.
  unfold chars. intros Hl. apply list_elem_of_fmap in Hl as (a & -> & _). done.
Qed.

Lemma append_empty_r (s : string) : s +:+ "" = s.
Proof.
  induction s as [|a s IH]; [done|].
  change (String a (s +:+ "") = String a s). by f_equal.
Qed.

Lemma append_append (a b c : string) : (a +:+ b) +:+ c = a +:+ (b +:+ c).
Proof.
  induction a as [|x a IH]; [done|].
  change (String x ((a +:+ b) +:+ c) = String x (a +:+ (b +:+ c))). by f_equal.
Qed.

Lemma concat_cons_empty (x : string) (ls : list string) :
  String.concat "" (x :: ls) = x +:+ String.concat "" ls.
Proof.
  destruct ls as [|y ls]; [symmetry; apply append_empty_r|done].
Qed.

Lemma concat_snoc (ls : list string) (l : string) :
  String.concat "" (ls ++ [l]) = String.concat "" ls +:+ l.
Proof.
  induction ls as [|x ls IH]; [done|].
  change ((x :: ls) ++ [l]) with (x :: (ls ++ [l])).
  by rewrite !concat_cons_empty, IH, append_append.
Qed.

Lemma chars_concat (ls : list string) :
  Forall (fun l => chars l = [l]) ls → chars (String.concat "" ls) = ls.
Proof.
  induction ls as [|l ls IH] using rev_ind; [done|].
  intros [Hls Hl]%Forall_app. apply Forall_cons in Hl as [Hl _].
  by rewrite concat_snoc, chars_append, IH, Hl.
Qed.

Lemma spell_letters_split (k : nat) (letters : list string) (symbols : list ascii) :
  spell_letters letters = Some symbols →
  ∃ x y, spell_letters (take k letters) = Some x ∧
         spell_letters (drop k letters) = Some y ∧ symbols = x ++ y.
Proof.
  rewrite <- (take_drop k letters) at 1. rewrite spell_letters_app.
  destruct (spell_letters (take k letters)) as [x|]; [|done]. simpl.
  destruct (spell_letters (drop k letters)) as [y|]; [|done]. simpl.
  intros [= <-]. eauto.
Qed.

Lemma spell_letters_nil (letters : list string) :
  spell_letters letters = Some [] → letters = [].
Proof.
  destruct letters as [|l letters]; [done|]. simpl.
  destruct (letter_code l) as [code|] eqn:Hl; [|done]. simpl.
  destruct (spell_letters letters) as [syms|]; [|done]. simpl.
  destruct (letter_code_follow _ _ Hl) as (Hne & _).
  intros [= H]. apply app_eq_nil in H as [H _].
  by destruct code.
Qed.

Section Cases.

Context {A : Arith} (cfg : config) (dictionary : gset string) (bits : list ascii).

#[local] Open Scope score_scope.

(** The ways the body of the loop over the states can end without an
    exception. *)
Lemma process_state_cases (pos : nat) (cur_word : string) (sentence : list string)
    (score : num) (visited : gmap (nat * string) num) (results : list result)
    (next_states : list state) (visited' : gmap (nat * string) num)
    (results' : list result) (next_states' : list state) :
  process_state cfg dictionary bits (pos, cur_word, sentence, score)
                (visited, results, next_states)
  = Ok (visited', results', next_states') →
  let commit := nonempty cur_word && bool_decide (cur_word ∈ dictionary) in
  (dominated visited (pos, cur_word) score = true ∧
   visited' = visited ∧ results' = results ∧ next_states' = next_states) ∨
  (dominated visited (pos, cur_word) score = false ∧
   visited' = <[(pos, cur_word) := score]> visited ∧
   ((pos = length bits ∧ next_states' = next_states ∧
     results' = if commit
                then results ++ [(join (sentence ++ [cur_word]),
                                  score + score_word cur_word dictionary)]
                else results) ∨
    (pos ≠ length bits ∧ results' = results ∧
     ∃ walk,
       trie_walk cfg cur_word sentence score MORSE_TRIE pos (drop pos bits)
                 next_states = Ok walk ∧
       next_states' = if commit
                      then walk ++ [(pos, "", sentence ++ [cur_word],
                                     score + score_word cur_word dictionary
                                     - flit 0.2)]
                      else walk))).
Proof.
  unfold process_state. cbn zeta.
  destruct (dominated _ _ _); [intros [= <- <- <-]; by left|].
  intros Hstep. right. split; [done|].
  destruct (pos =? length bits) eqn:Hend.
  - apply Nat.eqb_eq in Hend.
    destruct (nonempty cur_word && bool_decide (cur_word ∈ dictionary));
      injection Hstep as <- <- <-; (split; [done|]); left; done.
  - apply Nat.eqb_neq in Hend.
    destruct (trie_walk _ _ _ _ _ _ _ _) as [walk|e|]; simpl in Hstep; [|done|done].
    destruct (nonempty cur_word && bool_decide (cur_word ∈ dictionary));
      injection Hstep as <- <- <-; (split; [done|]); right; eauto.
Qed.

Lemma emitted_age (k pos : nat) (cur_word : string) (sentence : list string)
    (score : num) (rest : list ascii) (s' : state) :
  state_age (pos, cur_word, sentence, score) = k →
  emitted cfg cur_word sentence score MORSE_TRIE pos rest s' →
  state_age s' = S k.
Proof.
  intros Hage (consumed & items & letter & _ & _ & Hf & Hl & _ & ->).
  destruct (morse_entry _ _ (terminal_is_entry _ _ _ Hf Hl)) as (_ & _ & Hone).
  simpl in *. rewrite length_append. lia.
Qed.

Lemma process_state_generation (k : nat) (s : state)
    (visited : gmap (nat * string) num) (results : list result)
    (next_states : list state) (visited' : gmap (nat * string) num)
    (results' : list result) (next_states' : list state) :
  generation_inv cfg dictionary bits k s →
  Forall (generation_inv cfg dictionary bits (S k)) next_states →
  process_state cfg dictionary bits s (visited, results, next_states)
  = Ok (visited', results', next_states') →
  Forall (generation_inv cfg dictionary bits (S k)) next_states' ∧
  ∀ r, r ∈ results → r ∈ results'.
Proof.
  intros [Hreads Hage] Hnext Hstep.
  destruct (process_state_reads cfg dictionary bits _ _ _ _ _ _ _ Hreads Hstep)
    as (nr & nn & -> & -> & _ & Hnn).
  split; [|intros r Hr; apply elem_of_app; by left].
  destruct s as [[[pos cur_word] sentence] score].
  apply process_state_cases in Hstep as [(_ & _ & _ & Hn)|(_ & _ & [(_ & Hn & _)|(_ & _ & walk & Hwalk & Hn)])].
  - rewrite <- (app_nil_r next_states) in Hn at 2.
    apply app_inv_head in Hn as ->. by rewrite app_nil_r.
  - rewrite <- (app_nil_r next_states) in Hn at 2.
    apply app_inv_head in Hn as ->. by rewrite app_nil_r.
  - apply trie_walk_emits in Hwalk as (new & -> & Hnew).
    assert (Forall (fun s' => state_age s' = S k) new) as Hages.
    { eapply Forall_impl; [apply Hnew|]. intros s'. by apply emitted_age. }
    apply Forall_app. split; [done|].
    apply Forall_forall. intros s' Hs'. split; [by rewrite Forall_forall in Hnn; auto|].
    destruct (nonempty cur_word && bool_decide (cur_word ∈ dictionary)).
    + rewrite <- app_assoc in Hn. apply app_inv_head in Hn as ->.
      apply elem_of_app in Hs' as [Hs'|Hs'].
      * rewrite Forall_forall in Hages. auto.
      * apply list_elem_of_singleton in Hs' as ->. simpl in *.
        rewrite sum_list_with_app. simpl. lia.
    + apply app_inv_head in Hn as ->. rewrite Forall_forall in Hages. auto.
Qed.

End Cases.

Section Found.

Context {A : Arith} (cfg : config) (dictionary : gset string).
Context (word : string) (bits : list ascii).

#[local] Open Scope score_scope.

Hypothesis word_spells : spell [word] = Some bits.
Hypothesis word_known : word ∈ dictionary.
Hypothesis word_fits : String.length word ≤ MAX_WORD_LEN cfg.
Hypothesis word_nonempty : word ≠ "".

Lemma word_letters : spell_letters (chars word) = Some bits.
Proof. unfold spell in word_spells. simpl in word_spells. by rewrite app_nil_r in word_spells. Qed.

Lemma prefix_letters_single (k : nat) :
  Forall (fun l => chars l = [l]) (take k (chars word)).
Proof.
  apply Forall_forall. intros l Hl. apply subseteq_take in Hl.
  by eapply chars_single.
Qed.

Lemma length_prefix_word (k : nat) :
  k ≤ String.length word →
  String.length (String.concat "" (take k (chars word))) = k.
Proof.
  intros Hk. rewrite <- length_chars, chars_concat by apply prefix_letters_single.
  rewrite length_take, length_chars. lia.
Qed.

Lemma prefix_state_reads (k : nat) :
  k ≤ String.length word →
  generation_inv cfg dictionary bits k (prefix_state word k).
Proof.
  intros Hk. unfold generation_inv, prefix_state. cbn zeta.
  destruct (spell_letters_split k _ _ word_letters) as (x & y & Hx & Hy & ->).
  rewrite Hx. simpl. split.
  - split.
    { unfold spell. simpl. rewrite app_nil_r.
      rewrite chars_concat by apply prefix_letters_single.
      by rewrite Hx, take_app_length. }
    split; [rewrite length_app; lia|]. split; [constructor|].
    split; [rewrite length_prefix_word; lia|].
    unfold path_score, typed. simpl.
    by rewrite chars_concat by apply prefix_letters_single.
  - rewrite length_prefix_word by done. lia.
Qed.

(** A state with the key of a prefix state is that prefix state. *)
Lemma prefix_state_unique (k : nat) (sentence : list string) (score : num) :
  k ≤ String.length word →
  reads cfg dictionary bits
        (fst (fst (fst (prefix_state word k))),
         snd (fst (fst (prefix_state word k))), sentence, score) →
  (fst (fst (fst (prefix_state word k))),
   snd (fst (fst (prefix_state word k))), sentence, score) = prefix_state word k.
Proof.
  intros Hk Hreads.
  destruct (prefix_state_reads k Hk) as [Hp _].
  unfold prefix_state in *. cbn zeta in *. simpl in *.
  destruct Hreads as (Hs & _ & Hsent & _ & ->).
  destruct Hp as (Hs0 & _ & _ & _ & Hscore).
  assert (sentence = []) as ->.
  { unfold spell in Hs, Hs0. simpl in Hs0.
    rewrite fmap_app, concat_app, spell_letters_app in Hs. simpl in Hs.
    rewrite Hs0 in Hs. simpl in Hs.
    destruct (spell_letters (concat (chars <$> sentence))) as [x|] eqn:Hx; [|done].
    simpl in Hs. injection Hs as Hs.
    assert (x = []) as ->.
    { apply (f_equal length) in Hs. rewrite length_app in Hs.
      destruct x; [done|simpl in Hs; lia]. }
    apply spell_letters_nil in Hx.
    destruct sentence as [|w sentence]; [done|].
    apply Forall_cons in Hsent as [[[Hw _] _] _].
    simpl in Hx. apply app_eq_nil in Hx as [Hx _].
    destruct w; [done|discriminate]. }
  by rewrite Hscore.
Qed.

Lemma prefix_state_next (k : nat) (l code : string) (x : list ascii) :
  chars word !! k = Some l →
  spell_letters (take k (chars word)) = Some x →
  letter_code l = Some code →
  prefix_state word (S k)
  = ((length x + length (list_ascii_of_string code))%nat,
     String.concat "" (take k (chars word)) +:+ l, [],
     fold_left (fun score c => score + score_letter c) (take k (chars word))
               (flit 0.0) + score_letter l).
Proof.
  intros Hl Hx Hc. unfold prefix_state. cbn zeta.
  rewrite (take_S_r _ _ _ Hl), spell_letters_app, Hx. simpl. rewrite Hc. simpl.
  by rewrite concat_snoc, fold_left_app, app_nil_r, length_app.
Qed.

(** Processing the state of the first [k] letters, when the memo table does
    not dominate it, makes progress on the word. *)
Lemma prefix_state_step (k : nat) (visited : gmap (nat * string) num)
    (results : list result) (next_states : list state)
    (visited' : gmap (nat * string) num) (results' : list result)
    (next_states' : list state) :
  k ≤ String.length word →
  dominated visited (state_key (prefix_state word k)) (snd (prefix_state word k))
  = false →
  process_state cfg dictionary bits (prefix_state word k)
                (visited, results, next_states)
  = Ok (visited', results', next_states') →
  word_progress dictionary word k results' next_states'.
Proof.
  intros Hk Hdom Hstep. unfold word_progress.
  destruct (spell_letters_split k _ _ word_letters) as (x & y & Hx & Hy & ->).
  assert (prefix_state word k
          = (length x, String.concat "" (take k (chars word)), [],
             fold_left (fun score c => score + score_letter c)
                       (take k (chars word)) (flit 0.0))) as Hpk.
  { unfold prefix_state. cbn zeta. by rewrite Hx. }
  rewrite Hpk in Hstep, Hdom. unfold state_key in Hdom. simpl in Hdom.
  apply process_state_cases in Hstep
    as [(Hd & _)|(_ & _ & [(Hend & -> & ->)|(Hend & -> & walk & Hwalk & ->)])];
    [congruence| |].
  - (* at the end of the stream: the whole word has been read *)
    rewrite length_app in Hend.
    assert (y = []) as -> by (destruct y; [done|simpl in Hend; lia]).
    apply spell_letters_nil in Hy.
    assert (String.length word ≤ k) as Hge.
    { rewrite <- length_chars.
      destruct (decide (length (chars word) ≤ k)) as [|Hlt]; [done|].
      apply (f_equal length) in Hy. rewrite length_drop in Hy. simpl in Hy. lia. }
    rewrite (proj2 (Nat.ltb_ge k (String.length word))) by done.
    rewrite take_ge by (rewrite length_chars; lia).
    rewrite concat_chars.
    assert (nonempty word && bool_decide (word ∈ dictionary) = true) as ->.
    { apply andb_true_iff. split; [|by apply bool_decide_eq_true].
      unfold nonempty. by apply negb_true_iff, String.eqb_neq. }
    apply elem_of_app. right. by apply list_elem_of_singleton.
  - (* before the end: the next letter is read *)
    rewrite length_app in Hend.
    destruct (drop k (chars word)) as [|l rest] eqn:Hdrop.
    { simpl in Hy. injection Hy as <-. simpl in Hend. lia. }
    assert (chars word !! k = Some l) as Hl.
    { rewrite <- (Nat.add_0_r k), <- lookup_drop, Hdrop. done. }
    assert (k < String.length word) as Hlt.
    { rewrite <- length_chars. by eapply lookup_lt_Some. }
    rewrite (proj2 (Nat.ltb_lt k (String.length word))) by done.
    simpl in Hy.
    destruct (letter_code l) as [code|] eqn:Hcode; [|done]. simpl in Hy.
    destruct (spell_letters rest) as [y'|]; [|done]. simpl in Hy.
    injection Hy as <-.
    destruct (letter_code_follow _ _ Hcode) as (Hne & _ & _ & items & Hf & Hi).
    rewrite drop_app_length in Hwalk.
    rewrite (prefix_state_next k l code x Hl Hx Hcode).
    assert (((length x + length (list_ascii_of_string code))%nat,
             String.concat "" (take k (chars word)) +:+ l, @nil string,
             fold_left (fun score c => score + score_letter c)
                       (take k (chars word)) (flit 0.0) + score_letter l) ∈ walk)
      as Hin.
    { eapply trie_walk_complete; [| | | |apply Hwalk]; try done.
      - destruct code; [done|discriminate].
      - rewrite length_prefix_word by lia. lia. }
    destruct (nonempty _ && _); [apply elem_of_app; by left|done].
Qed.

Lemma dominated_lookup (visited : gmap (nat * string) num) (key : nat * string)
    (score : num) :
  dominated visited key score = true → visited !! key ≠ None.
Proof. unfold dominated. by destruct (visited !! key). Qed.

Lemma word_progress_mono (k : nat) (results new_results : list result)
    (next_states new_states : list state) :
  word_progress dictionary word k results next_states →
  word_progress dictionary word k (results ++ new_results)
                (next_states ++ new_states).
Proof.
  unfold word_progress. destruct (k <? String.length word)%nat;
    intros H; apply elem_of_app; by left.
Qed.

Lemma found_step (k : nat) (s : state) (visited : gmap (nat * string) num)
    (results : list result) (next_states : list state)
    (visited' : gmap (nat * string) num) (results' : list result)
    (next_states' : list state) :
  k ≤ String.length word →
  generation_inv cfg dictionary bits k s →
  memo_inv cfg dictionary bits (S k) visited →
  (visited !! state_key (prefix_state word k) ≠ None →
   word_progress dictionary word k results next_states) →
  process_state cfg dictionary bits s (visited, results, next_states)
  = Ok (visited', results', next_states') →
  memo_inv cfg dictionary bits (S k) visited' ∧
  (word_progress dictionary word k results next_states →
   word_progress dictionary word k results' next_states') ∧
  (visited' !! state_key (prefix_state word k) ≠ None →
   word_progress dictionary word k results' next_states') ∧
  (s = prefix_state word k → word_progress dictionary word k results' next_states').
Proof.
  intros Hk [Hreads Hage] Hmemo Hflag Hstep.
  destruct (process_state_reads cfg dictionary bits _ _ _ _ _ _ _ Hreads Hstep)
    as (nr & nn & Hr & Hn & _ & _).
  assert (word_progress dictionary word k results next_states →
          word_progress dictionary word k results' next_states') as Hmono.
  { subst results' next_states'. apply word_progress_mono. }
  assert (s = prefix_state word k →
          word_progress dictionary word k results' next_states') as Hself.
  { intros ->.
    destruct (dominated visited (state_key (prefix_state word k))
                (snd (prefix_state word k))) eqn:Hd.
    - apply Hmono, Hflag. by eapply dominated_lookup.
    - by eapply prefix_state_step. }
  destruct s as [[[pos cur_word] sentence] score].
  apply process_state_cases in Hstep as [(_ & -> & _)|(_ & -> & _)].
  - split; [done|]. split; [done|]. split; [|done]. intros H. by apply Hmono, Hflag.
  - split; [|split; [done|split; [|done]]].
    + intros pos' cw' best. rewrite lookup_insert.
      destruct (decide ((pos, cur_word) = (pos', cw'))) as [[= <- <-]|Hne].
      * intros _. exists sentence, score. split; [done|]. rewrite Hage. lia.
      * apply Hmemo.
    + rewrite lookup_insert.
      destruct (decide ((pos, cur_word) = state_key (prefix_state word k)))
        as [Hkey|Hne]; [|by intros H; apply Hmono, Hflag].
      intros _. apply Hself. unfold state_key in Hkey. injection Hkey as -> ->.
      by apply prefix_state_unique.
Qed.

Lemma found_generation (k : nat) (states : list state) :
  k ≤ String.length word →
  ∀ visited results next_states visited' results' next_states',
    Forall (generation_inv cfg dictionary bits k) states →
    memo_inv cfg dictionary bits (S k) visited →
    (visited !! state_key (prefix_state word k) ≠ None →
     word_progress dictionary word k results next_states) →
    (prefix_state word k ∈ states ∨
     word_progress dictionary word k results next_states) →
    Forall (generation_inv cfg dictionary bits (S k)) next_states →
    for_each (process_state cfg dictionary bits) states
             (visited, results, next_states)
    = Ok (visited', results', next_states') →
    word_progress dictionary word k results' next_states' ∧
    memo_inv cfg dictionary bits (S k) visited' ∧
    Forall (generation_inv cfg dictionary bits (S k)) next_states' ∧
    ∀ r, r ∈ results → r ∈ results'.
Proof.
  intros Hk. induction states as [|s states IH];
    intros visited results next_states visited' results' next_states'
           Hstates Hmemo Hflag Hgoal Hnext; simpl.
  - intros [= <- <- <-]. split; [|done].
    destruct Hgoal as [H|H]; [by apply elem_of_nil in H|done].
  - apply Forall_cons in Hstates as [Hs Hstates].
    destruct (process_state _ _ _ _ _) as [[[v1 r1] n1]|e|] eqn:Hstep; simpl;
      [|done|done].
    destruct (found_step k s _ _ _ _ _ _ Hk Hs Hmemo Hflag Hstep)
      as (Hmemo1 & Hmono & Hflag1 & Hself).
    destruct (process_state_generation cfg dictionary bits k s _ _ _ _ _ _
                Hs Hnext Hstep) as (Hnext1 & Hres).
    intros Hrest.
    assert (prefix_state word k ∈ states ∨
            word_progress dictionary word k r1 n1) as Hgoal1.
    { destruct Hgoal as [[Heq|Hin]%elem_of_cons|Hwp];
        [right; by apply Hself|by left|right; by apply Hmono]. }
    destruct (IH v1 r1 n1 _ _ _ Hstates Hmemo1 Hflag1 Hgoal1 Hnext1 Hrest)
      as (Hgoal' & Hmemo' & Hnext' & Hres').
    repeat split; auto.
Qed.

Lemma for_each_results_mono (states : list state) :
  ∀ visited results next_states visited' results' next_states',
    for_each (process_state cfg dictionary bits) states
             (visited, results, next_states)
    = Ok (visited', results', next_states') →
    ∀ r, r ∈ results → r ∈ results'.
Proof.
  induction states as [|s states IH];
    intros visited results next_states visited' results' next_states'; simpl.
  - by intros [= <- <- <-].
  - pose proof (process_state_outcome cfg dictionary bits s visited results
                  next_states) as Hs.
    destruct (process_state _ _ _ _ _) as [[[v1 r1] n1]|e|]; simpl; [|done|done].
    destruct Hs as (nr & nn & -> & _). intros Hrest r Hr.
    eapply IH; [apply Hrest|]. apply elem_of_app. by left.
Qed.

Lemma while_states_results_mono (fuel : nat) :
  ∀ states visited results peak results' peak',
    while_states cfg dictionary bits fuel states visited results peak
    = Ok (results', peak') →
    ∀ r, r ∈ results → r ∈ results'.
Proof.
  induction fuel as [|fuel IH]; intros states visited results peak results' peak';
    (destruct states as [|s states]; [by intros [= <- _]|]); [done|].
  cbn [while_states].
  destruct (for_each _ (s :: states) _) as [[[v1 r1] n1]|e|] eqn:Hgen; simpl;
    [|done|done].
  intros Hrun r Hr. eapply IH; [apply Hrun|].
  by eapply for_each_results_mono.
Qed.

Lemma found_while (fuel : nat) :
  ∀ k states visited results peak results' peak',
    k ≤ String.length word →
    Forall (generation_inv cfg dictionary bits k) states →
    memo_inv cfg dictionary bits k visited →
    prefix_state word k ∈ states →
    while_states cfg dictionary bits fuel states visited results peak
    = Ok (results', peak') →
    peak' ≤ BEAM_WIDTH cfg →
    (word, path_score dictionary [] word + score_word word dictionary) ∈ results'.
Proof.
  induction fuel as [|fuel IH];
    intros k states visited results peak results' peak' Hk Hstates Hmemo Hin;
    (destruct states as [|s states]; [by apply elem_of_nil in Hin|]); [done|].
  cbn [while_states].
  destruct (for_each _ (s :: states) _) as [[[v1 r1] n1]|e|] eqn:Hgen; simpl;
    [|done|done].
  intros Hrun Hpeak.
  assert (memo_inv cfg dictionary bits (S k) visited) as Hmemo'.
  { intros pos cw best Hl. destruct (Hmemo pos cw best Hl) as (sen & sc & ? & ?).
    exists sen, sc. split; [done|lia]. }
  assert (visited !! state_key (prefix_state word k) = None) as Hfresh.
  { destruct (visited !! state_key (prefix_state word k)) as [best|] eqn:Hl; [|done].
    destruct (Hmemo _ _ _ Hl) as (sen & sc & Hreads & Hage).
    rewrite (prefix_state_unique k sen sc Hk Hreads) in Hage.
    destruct (prefix_state_reads k Hk) as [_ Hk']. lia. }
  destruct (found_generation k (s :: states) Hk visited results [] v1 r1 n1)
    as (Hgoal & Hmemo1 & Hnext1 & _); try done.
  { by left. }
  unfold word_progress in Hgoal.
  destruct (k <? String.length word)%nat eqn:Hlt.
  - apply Nat.ltb_lt in Hlt.
    pose proof (while_states_peak _ _ _ _ _ _ _ _ _ _ Hrun) as Hle.
    eapply (IH (S k) (prune cfg n1) v1 r1); [lia| |done| |apply Hrun|done].
    + apply Forall_forall. intros s' Hs'. apply prune_subseteq in Hs'.
      rewrite Forall_forall in Hnext1. auto.
    + unfold prune. rewrite take_ge by (rewrite sorted_length; lia).
      by apply sorted_elem.
  - by eapply while_states_results_mono.
Qed.

Lemma found_search (results : list result) (peak : nat) :
  search cfg dictionary bits (generations bits) = Ok (results, peak) →
  peak ≤ BEAM_WIDTH cfg →
  (word, path_score dictionary [] word + score_word word dictionary) ∈ results.
Proof.
  unfold search. intros Hrun Hpeak.
  eapply (found_while _ 0); [lia| | | |apply Hrun|done].
  - constructor; [|constructor]. apply (prefix_state_reads 0). lia.
  - intros pos cw best Hl. by rewrite lookup_empty in Hl.
  - apply list_elem_of_singleton. unfold prefix_state. by rewrite take_0.
Qed.

End Found.

(** ** The scores stay in range *)

Section Ranges.

Context {A : Arith} {O : ArithOrder A}.

#[local] Open Scope score_scope.

Lemma score_letter_weight (c : string) : is_weight (score_letter c).
Proof.
  unfold score_letter, LETTER_FREQ. cbn [dict_get].
  repeat match goal with
         | |- context [String.eqb ?a c] => destruct (String.eqb a c)
         end;
    apply weight_literal; unfold literals; cbn [In];
    repeat (try (left; reflexivity); right).
Qed.

Lemma literal_term (q : Q) : In q literals → is_term (flit q).
Proof. intros Hq. by apply weight_term, weight_literal. Qed.

Lemma typed_term (t : num) (word : string) : is_term t → is_term (typed t word).
Proof.
  unfold typed. revert t. induction (chars word) as [|c l IH]; intros t Ht; [done|].
  simpl. apply IH. apply term_fadd; [done|apply score_letter_weight].
Qed.

Lemma score_word_term (word : string) (dictionary : gset string) :
  is_term (score_word word dictionary).
Proof.
  unfold score_word. cbn zeta.
  assert (is_term (typed (flit 0.0) word)) as Ht.
  { apply typed_term, literal_term. unfold literals. cbn [In]. tauto. }
  unfold typed in Ht.
  assert (∀ t, is_term t →
               is_term (if bool_decide (word ∈ dictionary) then t + flit 5.0 else t))
    as Hbonus.
  { intros t Hterm. destruct (bool_decide _); [|done].
    apply term_fadd; [done|]. apply weight_literal. unfold literals. cbn [In].
    repeat (try (left; reflexivity); right). }
  destruct (12 <? String.length word)%nat; [|by apply Hbonus].
  apply term_fsub; [by apply Hbonus|].
  apply weight_literal. unfold literals. cbn [In].
  repeat (try (left; reflexivity); right).
Qed.

Lemma typed_score (s : num) (word : string) : is_score s → is_score (typed s word).
Proof.
  unfold typed. revert s. induction (chars word) as [|c l IH]; intros s Hs; [done|].
  simpl. apply IH. apply score_fadd; [done|apply weight_term, score_letter_weight].
Qed.

Lemma committed_score (dictionary : gset string) (s : num) (word : string) :
  is_score s → is_score (committed dictionary s word).
Proof.
  intros Hs. unfold committed.
  apply score_fsub; [apply score_fadd; [by apply typed_score|apply score_word_term]|].
  apply literal_term. unfold literals. cbn [In].
  repeat (try (left; reflexivity); right).
Qed.

Lemma path_score_score (dictionary : gset string) (sentence : list string)
    (word : string) :
  is_score (path_score dictionary sentence word).
Proof.
  unfold path_score. apply typed_score.
  assert (is_score (flit 0.0)) as H0.
  { apply term_score, literal_term. unfold literals. cbn [In]. tauto. }
  revert H0. generalize (flit 0.0).
  induction sentence as [|w sentence IH]; intros s Hs; [done|].
  simpl. apply IH. by apply committed_score.
Qed.

Lemma reads_score (cfg : config) (dictionary : gset string) (bits : list ascii)
    (s : state) :
  reads cfg dictionary bits s → is_score (state_score s).
Proof.
  destruct s as [[[pos cur_word] sentence] score].
  intros (_ & _ & _ & _ & ->). apply path_score_score.
Qed.

Lemma decodes_score (cfg : config) (dictionary : gset string) (bits : list ascii)
    (r : result) :
  decodes cfg dictionary bits r → is_score (result_score r).
Proof.
  intros (sentence & word & _ & _ & _ & Hs). unfold result_score. rewrite Hs.
  apply score_fadd; [apply path_score_score|apply score_word_term].
Qed.

(** The scores of the results of a search are numbers. *)
Lemma search_numbers (cfg : config) (dictionary : gset string) (bits : list ascii)
    (fuel : nat) (results : list result) (peak : nat) :
  search cfg dictionary bits fuel = Ok (results, peak) →
  Forall (fun r => number (result_score r)) results.
Proof.
  unfold search. intros Hrun.
  apply (while_states_invariant cfg dictionary bits
           (reads cfg dictionary bits) (decodes cfg dictionary bits)) in Hrun.
  - eapply Forall_impl; [apply Hrun|].
    intros r Hr. by eapply score_number, decodes_score.
  - intros s visited rs next_states visited' rs' next_states'.
    apply process_state_reads.
  - constructor; [apply initial_state_reads|constructor].
  - constructor.
Qed.

(** So are those of the list a polarity run returns. *)
Lemma decode_with_polarity_numbers (cfg : config) (bitstream : string)
    (dictionary : gset string) (invert : bool) (run : list result) :
  decode_with_polarity cfg bitstream dictionary invert = Ok run →
  Forall (fun r => number (result_score r)) run.
Proof.
  unfold decode_with_polarity, brute_force_decode, brute_force_decode_fuel.
  destruct (search _ _ _ _) as [[results peak]|e|] eqn:Hrun; simpl; [|done|done].
  intros [= <-]. apply search_numbers in Hrun.
  apply Forall_forall. intros r Hr. apply subseteq_take, sorted_elem in Hr.
  rewrite Forall_forall in Hrun. auto.
Qed.

End Ranges.

(** C4. On a stream without the sentinel character, so on every symbol
    sequence, the decoder returns a list of at most [MAX_RESULTS] pairs, which
    is the first [MAX_RESULTS] entries of the results sorted on the negated
    score; in an ordered arithmetic, which binary64 is ([binary64_order]) since
    no score the program computes is a NaN, the list is in descending order of
    score. *)
Theorem brute_force_decode_ranked {A : Arith} (cfg : config) (bits : string)
    (dictionary : gset string) :
  sentinel_free bits →
  ∃ ranked,
    brute_force_decode cfg bits dictionary = Ok ranked ∧
    length ranked ≤ MAX_RESULTS cfg ∧
    (∃ results, ranked = take (MAX_RESULTS cfg)
                              (sorted (fun x => fneg (result_score x)) results)) ∧
    (ArithOrder A → descending ranked).
Proof.
  intros Hfree.
  pose proof (brute_force_decode_outcome cfg bits dictionary) as Hout.
  unfold brute_force_decode, brute_force_decode_fuel in *.
  destruct (search _ _ _ _) as [[results peak]|e|] eqn:Hrun; simpl in *;
    [| |done].
  2:{ by destruct Hout. }
  destruct Hout as (Hlen & _ & _).
  eexists. split; [done|]. split; [done|]. split; [eauto|].
  intros O. apply StronglySorted_take, sorted_descending.
  by eapply search_numbers.
Qed.

(** The run on [".-"] with the words A, E and T returns two entries, and they
    are in descending order in binary64. *)
Lemma brute_force_decode_ranked_witness :
  sentinel_free ".-" ∧
  ∃ ranked,
    brute_force_decode (A:=binary64) source_config ".-" {["A"; "E"; "T"]} = Ok ranked ∧
    length ranked = 2 ∧
    length ranked ≤ MAX_RESULTS source_config ∧
    descending ranked.
Proof.
  split; [reflexivity|].
  destruct (brute_force_decode_ranked (A:=binary64) source_config ".-"
              {["A"; "E"; "T"]})
    as (ranked & Hrun & Hlen & _ & Hdesc); [reflexivity|].
  exists ranked. split; [exact Hrun|]. split.
  - assert (length <$> (match brute_force_decode (A:=binary64) source_config ".-"
                                {["A"; "E"; "T"]} with
                        | Ok l => Some l | _ => None end) = Some 2) as H
      by (vm_compute; reflexivity).
    rewrite Hrun in H. by injection H.
  - split; [exact Hlen|]. apply Hdesc, binary64_order.
Defined.

(** X10. A dictionary word that spells the stream is found when the beam never
    prunes: if the Morse codes of the letters of a non-empty dictionary word of
    at most [MAX_WORD_LEN] letters are the symbols of the stream, and no
    generation of the run has more successors than [BEAM_WIDTH], then the
    decoder returns a list that has the word, with the score of its path plus
    its word score, unless the list is full with [MAX_RESULTS] entries, none
    of which, when [<] orders the scores, has a score below that of the
    word. *)
Theorem dictionary_word_found {A : Arith} (cfg : config) (bits : string)
    (dictionary : gset string) (word : string) (peak : nat) :
  spell [word] = Some (list_ascii_of_string bits) →
  word ≠ "" → word ∈ dictionary → String.length word ≤ MAX_WORD_LEN cfg →
  peak_frontier cfg bits dictionary = Ok peak → peak ≤ BEAM_WIDTH cfg →
  ∃ ranked,
    brute_force_decode cfg bits dictionary = Ok ranked ∧
    let entry := (word, fadd (path_score dictionary [] word)
                             (score_word word dictionary)) in
    entry ∈ ranked ∨
    (length ranked = MAX_RESULTS cfg ∧
     (ArithOrder A → ∀ r, r ∈ ranked → fge (snd r) (snd entry) = true)).
Proof.
  intros Hspell Hne Hin Hfits Hpeak Hle.
  unfold peak_frontier, brute_force_decode, brute_force_decode_fuel in *.
  destruct (search _ _ _ _) as [[results p]|e|] eqn:Hrun; simpl in Hpeak;
    [|done|done].
  injection Hpeak as ->. simpl. eexists. split; [done|].
  pose proof (found_search cfg dictionary word _ Hspell Hin Hfits Hne _ _ Hrun Hle)
    as Hfound.
  apply (sorted_elem (fun x => fneg (result_score x))) in Hfound.
  rewrite <- (take_drop (MAX_RESULTS cfg)) in Hfound.
  apply elem_of_app in Hfound as [Hfound|Hfound]; [by left|right].
  split.
  - rewrite length_take. apply Nat.min_l.
    destruct (decide (MAX_RESULTS cfg ≤
                      length (sorted (fun x => fneg (result_score x)) results)))
      as [|Hlt]; [done|].
    rewrite drop_ge in Hfound by lia. by apply elem_of_nil in Hfound.
  - intros O r Hr.
    pose proof (sorted_descending results (search_numbers _ _ _ _ _ _ Hrun))
      as Hsorted.
    unfold descending in Hsorted.
    rewrite <- (take_drop (MAX_RESULTS cfg)) in Hsorted.
    by apply (StronglySorted_app_inv _ _ _ Hsorted r _ Hr Hfound).
Qed.

Lemma dictionary_word_found_witness :
  ∃ ranked,
    brute_force_decode (A:=binary64) source_config "......" {["HI"]} = Ok ranked ∧
    let entry := ("HI", fadd (Arith:=binary64) (path_score {["HI"]} [] "HI")
                             (score_word "HI" {["HI"]})) in
    entry ∈ ranked ∨
    (length ranked = MAX_RESULTS source_config ∧
     (ArithOrder binary64 → ∀ r, r ∈ ranked → fge (snd r) (snd entry) = true)).
Proof.
  apply (dictionary_word_found (A:=binary64) source_config "......" {["HI"]}
           "HI" 20).
  - reflexivity.
  - discriminate.
  - apply (bool_decide_unpack _). by vm_compute.
  - apply Nat.leb_le. reflexivity.
  - vm_compute. reflexivity.
  - apply Nat.leb_le. vm_compute. reflexivity.
Defined.

(** ** A search that never prunes finds the best score *)

Section Dominance.

Context {A : Arith} {O : ArithOrder A}.
Context (cfg : config) (dictionary : gset string) (bits : list ascii).

#[local] Open Scope score_scope.

Lemma commit_committable (w : string) :
  committable dictionary w → nonempty w && bool_decide (w ∈ dictionary) = true.
Proof.
  intros [Hne Hin]. apply andb_true_iff. split.
  - unfold nonempty. by apply negb_true_iff, String.eqb_neq.
  - by apply bool_decide_eq_true.
Qed.

Lemma covers_weaken (visited : gmap (nat * string) num) (key : nat * string)
    (v w : num) :
  (∀ best, visited !! key = Some best → number best) → number v → number w →
  (v >=? w) = true → covers visited key v → covers visited key w.
Proof.
  intros Hnum Hv Hw Hvw (best & Hl & Hge). exists best. split; [done|].
  apply (fge_trans _ v); [by apply Hnum|done|done|done|done].
Qed.

Lemma covers_insert (visited : gmap (nat * string) num) (key k : nat * string)
    (score v : num) :
  (∀ best, visited !! key = Some best → number best) → number score → number v →
  dominated visited key score = false →
  covers visited k v → covers (<[key := score]> visited) k v.
Proof.
  intros Hnum Hscore Hv Hdom (best & Hl & Hge).
  destruct (decide (k = key)) as [->|Hne].
  - exists score. rewrite lookup_insert_eq. split; [done|].
    unfold dominated in Hdom. rewrite Hl in Hdom.
    destruct (fge_total best score) as [H|H]; [by apply Hnum|done|congruence|].
    apply (fge_trans _ best); [done|by apply Hnum|done|done|done].
  - exists best. by rewrite lookup_insert_ne.
Qed.

(** What was reached is still reached after a state has been processed. *)
Lemma process_state_reached (s : state) (rest : list state)
    (visited : gmap (nat * string) num) (results : list result)
    (next_states : list state) (visited' : gmap (nat * string) num)
    (results' : list result) (next_states' : list state) (k : nat * string) (v : num) :
  (∀ key best, visited !! key = Some best → is_score best) →
  is_score (state_score s) → number v →
  process_state cfg dictionary bits s (visited, results, next_states)
  = Ok (visited', results', next_states') →
  reached visited (s :: rest ++ next_states) k v →
  reached visited' (rest ++ next_states') k v.
Proof.
  intros Hvis Hs Hv Hstep.
  assert (∀ key best, visited !! key = Some best → number best) as Hnum.
  { intros key best Hl. by eapply score_number, Hvis. }
  assert (∀ t, t ∈ next_states → t ∈ next_states') as Hnext.
  { intros t Ht.
    pose proof (process_state_outcome cfg dictionary bits s visited results
                  next_states) as Hout.
    rewrite Hstep in Hout.
    destruct Hout as (nr & nn & _ & -> & _). apply elem_of_app. by left. }
  destruct s as [[[pos cur_word] sentence] score]. simpl in Hs.
  pose proof (score_number _ Hs) as Hscore.
  apply process_state_cases in Hstep
    as [(Hdom & -> & _ & ->)|(Hdom & -> & _)].
  - intros [Hc|(t & Ht & Hkey & Hge)]; [by left|].
    apply elem_of_cons in Ht as [->|Ht].
    + left. unfold dominated in Hdom.
      destruct (visited !! (pos, cur_word)) as [best|] eqn:Hl; [|done].
      exists best. simpl in Hkey, Hge. subst k. split; [done|].
      apply (fge_trans _ score); [by apply (Hnum _ _ Hl)|done|done|done|done].
    + right. by exists t.
  - intros [Hc|(t & Ht & Hkey & Hge)].
    + left. apply covers_insert; [apply Hnum|done|done|done|done].
    + apply elem_of_cons in Ht as [->|Ht].
      * left. exists score. simpl in Hkey, Hge. subst k.
        by rewrite lookup_insert_eq.
      * right. exists t. split; [|done].
        apply elem_of_app in Ht as [Ht|Ht]; apply elem_of_app; auto.
Qed.

Lemma step_scores (best : num) (letter cur_word : string) :
  is_score best →
  is_score (best + score_letter letter) ∧
  is_score (best + score_word cur_word dictionary) ∧
  is_score (best + score_word cur_word dictionary - flit 0.2).
Proof.
  intros Hbest.
  assert (is_score (best + score_word cur_word dictionary)) as Hw
    by (apply score_fadd; [done|apply score_word_term]).
  split; [apply score_fadd; [done|apply weight_term, score_letter_weight]|].
  split; [done|].
  apply score_fsub; [done|]. apply literal_term. unfold literals. cbn [In].
  repeat (try (left; reflexivity); right).
Qed.

Lemma emitted_score (cur_word : string) (sentence : list string) (score : num)
    (node : pyobj) (i : nat) (rest : list ascii) (s' : state) :
  is_score score → emitted cfg cur_word sentence score node i rest s' →
  is_score (state_score s').
Proof.
  intros Hs (consumed & items & letter & _ & _ & _ & _ & _ & ->). simpl.
  by apply step_scores.
Qed.

(** Processing a state keeps the memo table closed. *)
Lemma process_state_closed (s : state) (rest : list state)
    (visited : gmap (nat * string) num) (results : list result)
    (next_states : list state) (visited' : gmap (nat * string) num)
    (results' : list result) (next_states' : list state) :
  closed cfg dictionary bits visited results (s :: rest ++ next_states) →
  process_state cfg dictionary bits s (visited, results, next_states)
  = Ok (visited', results', next_states') →
  closed cfg dictionary bits visited' results' (rest ++ next_states').
Proof.
  intros (Hvis & Hpend & Hclosed) Hstep.
  apply Forall_cons in Hpend as [Hs Hrest].
  assert (∀ k v, number v → reached visited (s :: rest ++ next_states) k v →
                 reached visited' (rest ++ next_states') k v) as Hreach.
  { intros k v Hv. by eapply process_state_reached. }
  assert (∀ r, r ∈ results → r ∈ results') as Hres.
  { intros r Hr.
    pose proof (process_state_outcome cfg dictionary bits s visited results
                  next_states) as Hout.
    rewrite Hstep in Hout.
    destruct Hout as (nr & nn & -> & _). apply elem_of_app. by left. }
  assert (∀ pos0 cw0 best,
            visited !! (pos0, cw0) = Some best →
            (∀ letter code,
               letter_code letter = Some code →
               list_ascii_of_string code `prefix_of` drop pos0 bits →
               String.length cw0 < MAX_WORD_LEN cfg →
               reached visited' (rest ++ next_states')
                       ((pos0 + String.length code)%nat, cw0 +:+ letter)
                       (best + score_letter letter)) ∧
            (pos0 ≠ length bits → committable dictionary cw0 →
             reached visited' (rest ++ next_states') (pos0, "")
                     (best + score_word cw0 dictionary - flit 0.2)) ∧
            (pos0 = length bits → committable dictionary cw0 →
             ∃ r, r ∈ results' ∧ number (result_score r) ∧
                  (result_score r >=? best + score_word cw0 dictionary) = true))
    as Hold.
  { intros pos0 cw0 best Hl. destruct (Hclosed pos0 cw0 best Hl) as (Ha & Hb & Hc).
    pose proof (Hvis _ _ Hl) as Hbest.
    split; [|split].
    - intros letter code Hcode Hpre Hlen. apply Hreach; [|by eapply Ha].
      by apply score_number, step_scores.
    - intros Hpos Hcw. apply Hreach; [|by apply Hb].
      by apply score_number, (step_scores best "").
    - intros Hpos Hcw. destruct (Hc Hpos Hcw) as (r & Hr & Hn & Hge).
      exists r. auto. }
  destruct s as [[[pos cur_word] sentence] score]. simpl in Hs.
  pose proof (score_number _ Hs) as Hscore.
  pose proof Hstep as Hcases.
  apply process_state_cases in Hcases
    as [(Hdom & -> & -> & ->)|(Hdom & Hv' & Hcases)].
  { split; [done|]. split; [done|]. done. }
  assert (Forall (fun s => is_score (state_score s)) next_states') as Hnext.
  { apply Forall_app in Hrest as [_ Hnext0].
    destruct Hcases as [(_ & -> & _)|(_ & _ & walk & Hwalk & ->)]; [done|].
    apply trie_walk_emits in Hwalk as (new & -> & Hnew).
    assert (Forall (fun s => is_score (state_score s)) (next_states ++ new)) as Hw.
    { apply Forall_app. split; [done|].
      eapply Forall_impl; [apply Hnew|]. intros s'. by apply emitted_score. }
    destruct (nonempty cur_word && bool_decide (cur_word ∈ dictionary)); [|done].
    apply Forall_app. split; [done|].
    constructor; [|constructor]. simpl. by apply step_scores. }
  subst visited'.
  split; [|split].
  - intros key best [[<- <-]|[_ Hl]]%lookup_insert_Some; [done|by eapply Hvis].
  - apply Forall_app. split; [|done]. by apply Forall_app in Hrest as [? _].
  - intros pos0 cw0 best [[Hk <-]|[_ Hl]]%lookup_insert_Some; [|by apply Hold].
    injection Hk as <- <-.
    destruct Hcases as [(Hend & -> & ->)|(Hend & -> & walk & Hwalk & ->)].
    + split; [|split].
      * intros letter code Hcode [k Hk] Hlen.
        rewrite Hend, drop_all in Hk.
        destruct (letter_code_follow _ _ Hcode) as (Hne & _).
        symmetry in Hk. apply app_eq_nil in Hk as [Hk _].
        by destruct code.
      * done.
      * intros _ Hcw. rewrite (commit_committable _ Hcw).
        eexists. split; [apply elem_of_app; right; by apply list_elem_of_singleton|].
        simpl. pose proof (step_scores score "" cur_word Hs) as (_ & Hw & _).
        split; [by apply score_number|]. by apply fge_refl, score_number.
    + split; [|split].
      * intros letter code Hcode [k Hk] Hlen.
        destruct (letter_code_follow _ _ Hcode) as (Hne & _ & _ & items & Hf & Hl).
        rewrite Hk in Hwalk.
        assert (((pos + length (list_ascii_of_string code))%nat,
                 cur_word +:+ letter, sentence, score + score_letter letter) ∈ walk)
          as Hin.
        { eapply trie_walk_complete; [|apply Hf|apply Hl|apply Hlen|apply Hwalk].
          by destruct code. }
        rewrite length_list_ascii_of_string in Hin.
        right. eexists. split.
        { apply elem_of_app. right.
          destruct (nonempty cur_word && bool_decide (cur_word ∈ dictionary));
            [apply elem_of_app; left|]; apply Hin. }
        split; [done|]. simpl.
        by apply fge_refl, score_number, step_scores.
      * intros _ Hcw. rewrite (commit_committable _ Hcw).
        right. eexists. split.
        { apply elem_of_app. right. apply elem_of_app. right.
          by apply list_elem_of_singleton. }
        split; [done|]. simpl.
        by apply fge_refl, score_number, (step_scores score "").
      * done.
Qed.

Lemma process_state_numbers (s : state) (visited : gmap (nat * string) num)
    (results : list result) (next_states : list state)
    (visited' : gmap (nat * string) num) (results' : list result)
    (next_states' : list state) :
  (∀ key best, visited !! key = Some best → is_score best) →
  is_score (state_score s) →
  process_state cfg dictionary bits s (visited, results, next_states)
  = Ok (visited', results', next_states') →
  ∀ key best, visited' !! key = Some best → is_score best.
Proof.
  intros Hvis Hs Hstep. destruct s as [[[pos cur_word] sentence] score].
  apply process_state_cases in Hstep as [(_ & -> & _)|(_ & -> & _)]; [done|].
  intros key best [[<- <-]|[_ Hl]]%lookup_insert_Some; [done|by eapply Hvis].
Qed.

(** A generation keeps the memo table closed, and what was reached before it
    is reached after it. *)
Lemma generation_closed (states : list state) :
  ∀ visited results next_states visited' results' next_states',
    closed cfg dictionary bits visited results (states ++ next_states) →
    for_each (process_state cfg dictionary bits) states
             (visited, results, next_states)
    = Ok (visited', results', next_states') →
    closed cfg dictionary bits visited' results' next_states' ∧
    ∀ k v, number v → reached visited (states ++ next_states) k v →
           reached visited' next_states' k v.
Proof.
  induction states as [|s states IH];
    intros visited results next_states visited' results' next_states' Hclosed; simpl.
  { intros [= <- <- <-]. by split. }
  destruct (process_state _ _ _ _ _) as [[[v1 r1] n1]|e|] eqn:Hstep; simpl;
    [|done|done].
  intros Hrest.
  pose proof (process_state_closed _ _ _ _ _ _ _ _ Hclosed Hstep) as Hclosed1.
  destruct (IH _ _ _ _ _ _ Hclosed1 Hrest) as [Hfinal Hreach].
  split; [done|].
  intros k v Hv Hr. apply Hreach; [done|].
  destruct Hclosed as (Hvis & [Hs _]%Forall_cons & _).
  by eapply process_state_reached.
Qed.

Lemma closed_pending (visited : gmap (nat * string) num) (results : list result)
    (pending pending' : list state) :
  (∀ s, s ∈ pending → s ∈ pending') → (∀ s, s ∈ pending' → s ∈ pending) →
  closed cfg dictionary bits visited results pending →
  closed cfg dictionary bits visited results pending'.
Proof.
  intros Hto Hfrom (Hvis & Hpend & Hclosed).
  assert (∀ k v, reached visited pending k v → reached visited pending' k v) as Hr.
  { intros k v [Hc|(s & Hs & Hk)]; [by left|right]. exists s. auto. }
  split; [done|]. split.
  - apply Forall_forall. intros s Hs. rewrite Forall_forall in Hpend. auto.
  - intros pos cw best Hl. destruct (Hclosed pos cw best Hl) as (Ha & Hb & Hc).
    split; [|split]; [|auto|done].
    intros letter code Hcode Hpre Hlen. by eapply Hr, Ha.
Qed.

(** A run that never prunes ends with a closed memo table that has no state
    left to process. *)
Lemma while_states_closed (fuel : nat) :
  ∀ states visited results peak results' peak',
    closed cfg dictionary bits visited results states →
    while_states cfg dictionary bits fuel states visited results peak
    = Ok (results', peak') →
    peak' ≤ BEAM_WIDTH cfg →
    ∃ visited',
      closed cfg dictionary bits visited' results' [] ∧
      ∀ k v, number v → reached visited states k v → covers visited' k v.
Proof.
  induction fuel as [|fuel IH]; intros states visited results peak results' peak' Hclosed;
    (destruct states as [|s states];
     [intros [= <- _] _; exists visited; split; [done|];
      intros k v _ [Hc|(s & Hs & _)]; [done|by apply elem_of_nil in Hs]|]);
    [done|].
  cbn [while_states].
  destruct (for_each _ (s :: states) _) as [[[v1 r1] n1]|e|] eqn:Hgen; simpl;
    [|done|done].
  intros Hrun Hpeak.
  rewrite <- (app_nil_r (s :: states)) in Hclosed.
  destruct (generation_closed _ _ _ _ _ _ _ Hclosed Hgen) as [Hclosed1 Hreach].
  pose proof (while_states_peak _ _ _ _ _ _ _ _ _ _ Hrun) as Hle.
  assert (∀ t, t ∈ prune cfg n1 ↔ t ∈ n1) as Hprune.
  { intros t. unfold prune. rewrite take_ge by (rewrite sorted_length; lia).
    apply sorted_elem. }
  assert (closed cfg dictionary bits v1 r1 (prune cfg n1)) as Hclosed2.
  { eapply closed_pending; [| |apply Hclosed1]; intros t; apply Hprune. }
  destruct (IH _ _ _ _ _ _ Hclosed2 Hrun Hpeak) as (visited' & Hfinal & Hcov).
  exists visited'. split; [done|].
  intros k v Hv Hr. apply Hcov; [done|].
  rewrite app_nil_r in Hreach.
  destruct (Hreach k v Hv Hr) as [Hc|(t & Ht & Hk)]; [by left|right].
  exists t. split; [by apply Hprune|done].
Qed.

End Dominance.

(** *** Along a decoding, in a closed memo table *)

Section Paths.

Context {A : Arith} {O : ArithOrder A}.
Context (cfg : config) (dictionary : gset string) (bits : list ascii).
Context (visited : gmap (nat * string) num) (results : list result).

#[local] Open Scope score_scope.

Hypothesis memo_closed : closed cfg dictionary bits visited results [].

Lemma reached_covers (k : nat * string) (v : num) :
  reached visited [] k v → covers visited k v.
Proof. intros [Hc|(s & Hs & _)]; [done|by apply elem_of_nil in Hs]. Qed.

Lemma covers_score (k : nat * string) (v : num) :
  covers visited k v → ∃ best, visited !! k = Some best ∧ is_score best ∧
                                (best >=? v) = true.
Proof.
  intros (best & Hl & Hge). exists best. split; [done|]. split; [|done].
  destruct memo_closed as (Hvis & _). by eapply Hvis.
Qed.

Lemma covers_letter (pos : nat) (cur_word letter code : string) (v : num) :
  is_score v → covers visited (pos, cur_word) v →
  letter_code letter = Some code →
  list_ascii_of_string code `prefix_of` drop pos bits →
  String.length cur_word < MAX_WORD_LEN cfg →
  covers visited ((pos + String.length code)%nat, cur_word +:+ letter)
         (v + score_letter letter).
Proof.
  intros Hv (best & Hl & Hbest & Hge)%covers_score Hcode Hpre Hlen.
  destruct memo_closed as (_ & _ & Hclosed).
  destruct (Hclosed pos cur_word best Hl) as (Ha & _).
  destruct (covers_score _ _ (reached_covers _ _ (Ha letter code Hcode Hpre Hlen)))
    as (best' & Hl' & Hbest' & Hge').
  exists best'. split; [done|].
  apply (fge_trans _ (best + score_letter letter));
    try (apply score_number; (done || by apply (step_scores dictionary))); [done|].
  apply fadd_mono; [done|done|apply weight_term, score_letter_weight|done].
Qed.

Lemma covers_commit (pos : nat) (word : string) (v : num) :
  is_score v → covers visited (pos, word) v →
  pos ≠ length bits → committable dictionary word →
  covers visited (pos, "") (v + score_word word dictionary - flit 0.2).
Proof.
  intros Hv (best & Hl & Hbest & Hge)%covers_score Hpos Hword.
  destruct memo_closed as (_ & _ & Hclosed).
  destruct (Hclosed pos word best Hl) as (_ & Hb & _).
  destruct (covers_score _ _ (reached_covers _ _ (Hb Hpos Hword)))
    as (best' & Hl' & Hbest' & Hge').
  exists best'. split; [done|].
  pose proof (step_scores dictionary best "" word Hbest) as (_ & Hb1 & Hb2).
  pose proof (step_scores dictionary v "" word Hv) as (_ & Hv1 & Hv2).
  apply (fge_trans _ (best + score_word word dictionary - flit 0.2));
    try (by apply score_number); [done|].
  apply fsub_mono; [done|done| |].
  - apply literal_term. unfold literals. cbn [In].
    repeat (try (left; reflexivity); right).
  - apply fadd_mono; [done|done|apply score_word_term|done].
Qed.

Lemma covers_final (pos : nat) (word : string) (v : num) :
  is_score v → covers visited (pos, word) v →
  pos = length bits → committable dictionary word →
  ∃ r, r ∈ results ∧ (result_score r >=? v + score_word word dictionary) = true.
Proof.
  intros Hv (best & Hl & Hbest & Hge)%covers_score Hpos Hword.
  destruct memo_closed as (_ & _ & Hclosed).
  destruct (Hclosed pos word best Hl) as (_ & _ & Hc).
  destruct (Hc Hpos Hword) as (r & Hr & Hnum & Hge').
  exists r. split; [done|].
  pose proof (step_scores dictionary best "" word Hbest) as (_ & Hb1 & _).
  pose proof (step_scores dictionary v "" word Hv) as (_ & Hv1 & _).
  apply (fge_trans _ (best + score_word word dictionary));
    try (by apply score_number); [done|done|].
  apply fadd_mono; [done|done|apply score_word_term|done].
Qed.

Lemma covers_letters (letters : list string) :
  ∀ (pos : nat) (cur_word : string) (v : num) (syms : list ascii),
    is_score v → covers visited (pos, cur_word) v →
    spell_letters letters = Some syms →
    syms `prefix_of` drop pos bits →
    (String.length cur_word + length letters ≤ MAX_WORD_LEN cfg)%nat →
    covers visited ((pos + length syms)%nat, cur_word +:+ String.concat "" letters)
           (fold_left (fun s c => s + score_letter c) letters v).
Proof.
  induction letters as [|l letters IH]; intros pos cur_word v syms Hv Hcov Hspell Hpre Hlen.
  - injection Hspell as <-. simpl. by rewrite Nat.add_0_r, append_empty_r.
  - simpl in Hspell.
    destruct (letter_code l) as [code|] eqn:Hcode; [|done]. simpl in Hspell.
    destruct (spell_letters letters) as [syms'|] eqn:Hrest; [|done].
    injection Hspell as <-.
    destruct (letter_code_follow _ _ Hcode) as (_ & _ & Hone & _).
    destruct Hpre as [k Hk].
    assert (covers visited ((pos + String.length code)%nat, cur_word +:+ l)
                   (v + score_letter l)) as Hcov'.
    { apply covers_letter; [done|done|done| |simpl in Hlen; lia].
      exists (syms' ++ k). by rewrite Hk, <- app_assoc. }
    rewrite concat_cons_empty, <- append_append, length_app,
      length_list_ascii_of_string, Nat.add_assoc.
    apply IH; [by apply (step_scores dictionary)|done|done| |].
    + exists k. rewrite <- drop_drop, Hk, <- app_assoc.
      rewrite <- (length_list_ascii_of_string code). by rewrite drop_app_length.
    + rewrite length_append, Hone. simpl in Hlen. lia.
Qed.

Lemma covers_word (pos : nat) (word : string) (v : num) (syms : list ascii) :
  is_score v → covers visited (pos, "") v →
  spell_letters (chars word) = Some syms →
  syms `prefix_of` drop pos bits →
  String.length word ≤ MAX_WORD_LEN cfg →
  covers visited ((pos + length syms)%nat, word) (typed v word).
Proof.
  intros Hv Hcov Hspell Hpre Hlen.
  pose proof (covers_letters (chars word) pos "" v syms Hv Hcov Hspell Hpre) as H.
  rewrite concat_chars, length_chars in H. apply H. simpl. lia.
Qed.

Lemma spell_nonempty (words : list string) (word : string) (syms : list ascii) :
  word ≠ "" → spell (words ++ [word]) = Some syms → syms ≠ [].
Proof.
  intros Hne Hspell ->. unfold spell in Hspell.
  apply spell_letters_nil in Hspell.
  rewrite fmap_app, concat_app in Hspell.
  apply app_eq_nil in Hspell as [_ Hw]. simpl in Hw. rewrite app_nil_r in Hw.
  destruct word; [done|discriminate].
Qed.

(** The results hold, for every decoding of what is left of the stream, its
    score or a better one. *)
Lemma covers_sentence (sentence : list string) :
  ∀ (pos : nat) (v : num) (word : string) (syms : list ascii),
    is_score v → covers visited (pos, "") v →
    Forall (fun w => committable dictionary w ∧ String.length w ≤ MAX_WORD_LEN cfg)
           (sentence ++ [word]) →
    spell (sentence ++ [word]) = Some syms →
    drop pos bits = syms → pos ≤ length bits →
    ∃ r, r ∈ results ∧
         (result_score r
          >=? typed (fold_left (committed dictionary) sentence v) word
              + score_word word dictionary) = true.
Proof.
  induction sentence as [|w sentence IH]; intros pos v word syms Hv Hcov Hwords Hspell Hdrop Hpos.
  - apply Forall_cons in Hwords as [[Hword Hlen] _].
    unfold spell in Hspell. simpl in Hspell. rewrite app_nil_r in Hspell.
    assert (covers visited ((pos + length syms)%nat, word) (typed v word)) as Hcov'.
    { apply covers_word; [done|done|done| |done]. by rewrite Hdrop. }
    apply (covers_final (pos + length syms)%nat word);
      [by apply typed_score|done| |done].
    rewrite <- Hdrop, length_drop. lia.
  - change ((w :: sentence) ++ [word]) with (w :: (sentence ++ [word])) in *.
    apply Forall_cons in Hwords as [[Hw Hlen] Hwords].
    unfold spell in Hspell. rewrite fmap_cons in Hspell. simpl in Hspell.
    rewrite spell_letters_app in Hspell.
    destruct (spell_letters (chars w)) as [x|] eqn:Hx; [|done]. simpl in Hspell.
    destruct (spell_letters (concat (chars <$> sentence ++ [word]))) as [y|] eqn:Hy;
      [|done].
    injection Hspell as <-.
    assert (y ≠ []) as Hne.
    { eapply (spell_nonempty sentence word); [|apply Hy].
      apply Forall_app in Hwords as [_ Hlast].
      by apply Forall_cons in Hlast as [[[? _] _] _]. }
    assert (length bits = (pos + length x + length y)%nat) as Hbits.
    { pose proof (length_drop bits pos) as Hd. rewrite Hdrop, length_app in Hd. lia. }
    assert (covers visited ((pos + length x)%nat, w) (typed v w)) as Hcov'.
    { apply covers_word; [done|done|done| |done]. rewrite Hdrop. by exists y. }
    assert (covers visited ((pos + length x)%nat, "") (committed dictionary v w))
      as Hcov''.
    { apply covers_commit; [by apply typed_score|done| |done].
      destruct y; [done|]. simpl in Hbits. lia. }
    simpl. apply (IH (pos + length x)%nat _ word y);
      [by apply committed_score|done|done|done| |lia].
    by rewrite <- drop_drop, Hdrop, drop_app_length.
Qed.

End Paths.

(** A search that never prunes returns, for every decoding of the stream, a
    result with its score or a better one. *)
Lemma unpruned_search_best {A : Arith} {O : ArithOrder A} (cfg : config)
    (dictionary : gset string) (bits : list ascii) (fuel : nat)
    (results : list result) (peak : nat) (r : result) :
  search cfg dictionary bits fuel = Ok (results, peak) →
  peak ≤ BEAM_WIDTH cfg →
  decodes cfg dictionary bits r →
  ∃ r', r' ∈ results ∧ fge (result_score r') (result_score r) = true.
Proof.
  unfold search. intros Hrun Hpeak (sentence & word & _ & Hwords & Hspell & Hscore).
  assert (is_score (flit 0.0)) as H0.
  { apply term_score, literal_term. unfold literals. cbn [In]. tauto. }
  assert (closed cfg dictionary bits ∅ [] [(0, "", [], flit 0.0)]) as Hinit.
  { split; [by intros key best Hl; rewrite lookup_empty in Hl|].
    split; [by repeat constructor|].
    intros pos cw best Hl. by rewrite lookup_empty in Hl. }
  destruct (while_states_closed cfg dictionary bits fuel _ _ _ _ _ _
              Hinit Hrun Hpeak) as (visited & Hclosed & Hcov).
  unfold result_score at 2. rewrite Hscore. unfold path_score.
  apply (covers_sentence cfg dictionary bits visited results Hclosed sentence 0 _ word bits);
    [done| |done|done|done|lia].
  apply Hcov; [by apply score_number|].
  right. eexists. split; [by apply list_elem_of_singleton|]. split; [done|].
  simpl. by apply fge_refl, score_number.
Qed.

(** C3, as the program has it.  The top-1 score of a run whose beam never
    prunes, that is a run in which no generation has more successors than the
    beam holds, is not below the top-1 score of the run with any other beam
    width, a narrower one in particular: the memo table of such a run ends
    closed under the steps of the search, so its results hold, for every
    decoding of the stream, the score of that decoding or a better one, and
    every result of the other run is a decoding.  The comparison is that of an
    ordered arithmetic, which binary64 is ([binary64_order]). *)
Theorem unpruned_beam_monotone {A : Arith} (O : ArithOrder A) (cfg : config)
    (bits : string) (dictionary : gset string) (b1 b2 peak : nat) :
  peak_frontier (with_beam b2 cfg) bits dictionary = Ok peak →
  peak ≤ b2 →
  beam_monotone_at cfg bits dictionary b1 b2.
Proof.
  intros Hpeak Hle ranked1 ranked2 s1 H1 H2 Htop.
  destruct ranked1 as [|r1 ranked1]; [done|]. injection Htop as <-.
  assert (decodes (with_beam b2 cfg) dictionary (list_ascii_of_string bits) r1)
    as Hdec.
  { pose proof H1 as Hall. unfold brute_force_decode in Hall.
    apply (brute_force_decode_invariant (with_beam b1 cfg) dictionary _
             (reads (with_beam b1 cfg) dictionary (list_ascii_of_string bits))
             (decodes (with_beam b1 cfg) dictionary (list_ascii_of_string bits)))
      in Hall.
    - by apply Forall_cons in Hall as [? _].
    - intros s visited results next_states visited' results' next_states'.
      apply process_state_reads.
    - apply initial_state_reads. }
  assert (1 ≤ MAX_RESULTS cfg) as Hmax.
  { pose proof (brute_force_decode_outcome (with_beam b1 cfg) bits dictionary) as Hout.
    rewrite H1 in Hout. destruct Hout as (Hlen & _). simpl in Hlen. lia. }
  unfold peak_frontier, brute_force_decode, brute_force_decode_fuel in Hpeak, H2.
  destruct (search _ _ _ _) as [[results2 p]|e|] eqn:Hrun; simpl in Hpeak, H2;
    [|done|done].
  injection Hpeak as ->. injection H2 as <-.
  destruct (unpruned_search_best _ _ _ _ _ _ r1 Hrun Hle Hdec) as (r2 & Hr2 & Hge).
  pose proof (search_numbers _ _ _ _ _ _ Hrun) as Hnum.
  pose proof (sorted_descending results2 Hnum) as Hsorted.
  apply (sorted_elem (fun x => fneg (result_score x))) in Hr2.
  assert (∀ r, r ∈ sorted (fun x => fneg (result_score x)) results2 →
               number (result_score r)) as Hnum'.
  { intros r Hr%sorted_elem. rewrite Forall_forall in Hnum. auto. }
  destruct (sorted (fun x => fneg (result_score x)) results2) as [|h t]; 
    [by apply elem_of_nil in Hr2|].
  change (MAX_RESULTS (with_beam b2 cfg)) with (MAX_RESULTS cfg).
  destruct (MAX_RESULTS cfg) as [|m]; [lia|]. simpl.
  exists (result_score h). split; [done|].
  apply StronglySorted_inv in Hsorted as [_ Hhead].
  apply (fge_trans _ (result_score r2)).
  - apply Hnum'. left.
  - by apply Hnum'.
  - by eapply score_number, decodes_score.
  - apply elem_of_cons in Hr2 as [->|Hr2].
    + apply fge_refl, Hnum'. left.
    + rewrite Forall_forall in Hhead. by apply Hhead.
  - done.
Qed.

(** With the words TTTE, O and OE and the symbols ["---."], no generation has
    more than seven successors; a beam of seven returns TTTE first, with
    [12.4], where a beam of two returns OE, with [8.7]. *)
Lemma unpruned_beam_monotone_witness :
  peak_frontier (A:=binary64) (with_beam 7 source_config) "---."
                {["TTTE"; "O"; "OE"]} = Ok 7 ∧
  7 ≤ 7 ∧
  beam_monotone_at (A:=binary64) source_config "---." {["TTTE"; "O"; "OE"]} 2 7.
Proof.
  assert (peak_frontier (A:=binary64) (with_beam 7 source_config) "---."
                        {["TTTE"; "O"; "OE"]} = Ok 7) as Hpeak
    by (vm_compute; reflexivity).
  split; [exact Hpeak|]. split; [lia|].
  apply (unpruned_beam_monotone binary64_order source_config "---."
           {["TTTE"; "O"; "OE"]} 2 7 7 Hpeak).
  lia.
Defined.

(** C3, as the claim has it, fails: with the dictionary [{"TTTE", "O", "OE"}]
    and the symbols ["---."], a beam of width 1 follows T, TT, TTT, TTTE and
    returns [("TTTE", 12.4)]; a beam of width 2 also keeps the state that read
    O, whose two successors push the successors of T out of the beam, and
    returns [("OE", 8.7)]. *)
Lemma beam_not_monotone :
  ¬ beam_monotone_at (A:=binary64) source_config "---." {["TTTE"; "O"; "OE"]} 1 2.
Proof.
  intros H.
  destruct (H [("TTTE", (3.7 + (3.7 + 5.0))%float)]
              [("OE", (1.85 + (1.85 + 5.0))%float)]
              (3.7 + (3.7 + 5.0))%float) as (s2 & Hs2 & Hge);
    try (vm_compute; reflexivity).
  injection Hs2 as <-. vm_compute in Hge. discriminate.
Qed.
